(** * Matrix multiplication: classical, Strassen and Strassen-Winograd

    A shallow embedding of [utility/answer.py] and
    [utility/matrix_benchmark.py].  Matrices are Python lists of lists of
    integers, so they are modelled as [list (list Z)] without any shape
    invariant; every subscript that Python checks at run time is checked
    here too and raises [IndexError] when it is out of range.

    The functions are modelled twice: on values, in an exception monad,
    for what they compute; and on a store of list objects, where the
    in-place updates of [matmul_classic] are real updates, for what they
    leave untouched. *)

From stdpp Require Import base list numbers gmap.

(** * Part I: the code *)

(** ** Exceptions and the result monad *)

(** The exceptions the modelled code can raise.  [RecursionError] is what
    the interpreter raises when the recursion budget is exhausted;
    [TypeError] is what it raises when a list of the wrong kind is
    subscripted (only possible in the store model, on a malformed store). *)
Inductive exn : Type :=
  | IndexError
  | AssertionError
  | ValueError
  | RecursionError
  | TypeError.

Inductive result (A : Type) : Type :=
  | Ok (a : A)
  | Raise (e : exn).
Arguments Ok {A} a.
Arguments Raise {A} e.

Global Instance result_ret : MRet result := λ _ a, Ok a.
Global Instance result_bind : MBind result := λ _ _ f m,
  match m with
  | Ok a => f a
  | Raise e => Raise e
  end.

(** [l[i]] for a non-negative index [i]. *)
Definition getitem {A} (l : list A) (i : nat) : result A :=
  match l !! i with
  | Some x => Ok x
  | None => Raise IndexError
  end.

(** [for i in l: s = body(i, s)], threading the loop-carried state. *)
Fixpoint for_each {St} (body : nat → St → result St) (l : list nat) (s : St)
    : result St :=
  match l with
  | [] => Ok s
  | i :: l' => s' ← body i s; for_each body l' s'
  end.

(** [for i in range(n)]. *)
Definition for_range {St} (n : nat) (body : nat → St → result St) (s : St)
    : result St :=
  for_each body (seq 0 n) s.

(** [int.bit_length()]. *)
Definition bit_length (z : Z) : Z :=
  if bool_decide (z = 0)%Z then 0%Z else (Z.log2 (Z.abs z) + 1)%Z.

(** ** Functions that both source files define identically *)

Abbreviation Matrix := (list (list Z)).

(** [matmul_classic]: the accumulator [C] is a list of [n] distinct rows;
    [Ci = C[i]] is an alias of row [i], so the in-place updates
    [Ci[j] += aik * Bk[j]] are written back to [C] at index [i]. *)
Definition matmul_classic (A B : Matrix) : result Matrix :=
  let n := length A in
  let C := replicate n (replicate n 0%Z) in
  for_range n (λ i C,
    rowA ← getitem A i;
    Ci ← getitem C i;
    Ci' ← for_range n (λ k Ci,
      aik ← getitem rowA k;
      Bk ← getitem B k;
      for_range n (λ j Ci,
        cij ← getitem Ci j;
        bkj ← getitem Bk j;
        Ok (<[j := (cij + aik * bkj)%Z]> Ci)) Ci) Ci;
    Ok (<[i := Ci']> C)) C.

(** [[[A[i][j] op B[i][j] for j in range(n)] for i in range(n)]]. *)
Definition elementwise (op : Z → Z → Z) (A B : Matrix) : result Matrix :=
  let n := length A in
  mapM (λ i,
    mapM (λ j,
      Ai ← getitem A i;
      aij ← getitem Ai j;
      Bi ← getitem B i;
      bij ← getitem Bi j;
      Ok (op aij bij)) (seq 0 n)) (seq 0 n).

Definition add_matrix (A B : Matrix) : result Matrix := elementwise Z.add A B.
Definition sub_matrix (A B : Matrix) : result Matrix := elementwise Z.sub A B.

(** The four quadrants [[row[:m] for row in A[:m]]], ... *)
Definition quad11 (m : nat) (A : Matrix) : Matrix := take m <$> take m A.
Definition quad12 (m : nat) (A : Matrix) : Matrix := drop m <$> take m A.
Definition quad21 (m : nat) (A : Matrix) : Matrix := take m <$> drop m A.
Definition quad22 (m : nat) (A : Matrix) : Matrix := drop m <$> drop m A.

(** [[c11[i] + c12[i] for i in range(m)] + [c21[i] + c22[i] for i in range(m)]] *)
Definition glue_rows (m : nat) (l r : Matrix) : result Matrix :=
  mapM (λ i, li ← getitem l i; ri ← getitem r i; Ok (li ++ ri)) (seq 0 m).

Definition glue (m : nat) (c11 c12 c21 c22 : Matrix) : result Matrix :=
  top ← glue_rows m c11 c12;
  bot ← glue_rows m c21 c22;
  Ok (top ++ bot).

(** The recursive branch of the Strassen cores (the same text in both
    files), with the recursive call abstracted as [rec]. *)
Definition strassen_step (rec : Matrix → Matrix → result Matrix)
    (A B : Matrix) : result Matrix :=
  let n := length A in
  let m := n / 2 in
  let a11 := quad11 m A in
  let a12 := quad12 m A in
  let a21 := quad21 m A in
  let a22 := quad22 m A in
  let b11 := quad11 m B in
  let b12 := quad12 m B in
  let b21 := quad21 m B in
  let b22 := quad22 m B in
  M1 ← (x ← add_matrix a11 a22; y ← add_matrix b11 b22; rec x y);
  M2 ← (x ← add_matrix a21 a22; rec x b11);
  M3 ← (y ← sub_matrix b12 b22; rec a11 y);
  M4 ← (y ← sub_matrix b21 b11; rec a22 y);
  M5 ← (x ← add_matrix a11 a12; rec x b22);
  M6 ← (x ← sub_matrix a21 a11; y ← add_matrix b11 b12; rec x y);
  M7 ← (x ← sub_matrix a12 a22; y ← add_matrix b21 b22; rec x y);
  c11 ← (t ← add_matrix M1 M4; t ← add_matrix t M7; sub_matrix t M5);
  c12 ← add_matrix M3 M5;
  c21 ← add_matrix M2 M4;
  c22 ← (t ← add_matrix M1 M3; t ← sub_matrix t M2; add_matrix t M6);
  glue m c11 c12 c21 c22.

(** ** [utility/answer.py] *)
Module Answer.

(** [fuel] is the number of nested calls the interpreter still allows. *)
Fixpoint strassen_core (fuel : nat) (A B : Matrix) (cutoff : Z)
    : result Matrix :=
  match fuel with
  | 0 => Raise RecursionError
  | S fuel' =>
      let n := length A in
      if bool_decide (Z.of_nat n ≤ cutoff)%Z then matmul_classic A B
      else if bool_decide (n `mod` 2 = 1) then matmul_classic A B
      else strassen_step (λ X Y, strassen_core fuel' X Y cutoff) A B
  end.

Definition matmul_strassen (fuel : nat) (A B : Matrix) (cutoff : Z)
    : result Matrix :=
  let n := length A in
  if bool_decide (n = 0) then Ok []
  else if bool_decide (n ≠ length B) then Raise ValueError
  else
    A0 ← getitem A 0;
    if bool_decide (n ≠ length A0) then Raise ValueError
    else
      B0 ← getitem B 0;
      if bool_decide (n ≠ length B0) then Raise ValueError
      else strassen_core fuel A B cutoff.

End Answer.

(** ** [utility/matrix_benchmark.py] *)
Module Benchmark.

Definition CUTOFF_STRASSEN : Z := 64.
Definition CUTOFF_WINOGRAD : Z := 64.

Fixpoint _strassen_core (fuel : nat) (A B : Matrix) (cutoff : Z)
    : result Matrix :=
  match fuel with
  | 0 => Raise RecursionError
  | S fuel' =>
      let n := length A in
      if bool_decide (Z.of_nat n ≤ cutoff)%Z then matmul_classic A B
      else strassen_step (λ X Y, _strassen_core fuel' X Y cutoff) A B
  end.

(** The recursive branch of [_strassen_winograd_core]. *)
Definition winograd_step (rec : Matrix → Matrix → result Matrix)
    (A B : Matrix) : result Matrix :=
  let n := length A in
  let m := n / 2 in
  let a11 := quad11 m A in
  let a12 := quad12 m A in
  let a21 := quad21 m A in
  let a22 := quad22 m A in
  let b11 := quad11 m B in
  let b12 := quad12 m B in
  let b21 := quad21 m B in
  let b22 := quad22 m B in
  S1 ← sub_matrix b12 b22;
  S2 ← add_matrix a11 a12;
  S3 ← add_matrix a21 a22;
  S4 ← sub_matrix b21 b11;
  S5 ← add_matrix a11 a22;
  S6 ← add_matrix b11 b22;
  S7 ← sub_matrix a12 a22;
  S8 ← add_matrix b21 b22;
  S9 ← sub_matrix a11 a21;
  S10 ← add_matrix b11 b12;
  P1 ← rec a11 S1;
  P2 ← rec S2 b22;
  P3 ← rec S3 b11;
  P4 ← rec a22 S4;
  P5 ← rec S5 S6;
  P6 ← rec S7 S8;
  P7 ← rec S9 S10;
  C11 ← (t ← add_matrix P5 P4; t ← sub_matrix t P2; add_matrix t P6);
  C12 ← add_matrix P1 P2;
  C21 ← add_matrix P3 P4;
  C22 ← (t ← add_matrix P5 P1; t ← sub_matrix t P3; sub_matrix t P7);
  glue m C11 C12 C21 C22.

Fixpoint _strassen_winograd_core (fuel : nat) (A B : Matrix) (cutoff : Z)
    : result Matrix :=
  match fuel with
  | 0 => Raise RecursionError
  | S fuel' =>
      let n := length A in
      if bool_decide (Z.of_nat n ≤ cutoff)%Z then matmul_classic A B
      else winograd_step (λ X Y, _strassen_winograd_core fuel' X Y cutoff) A B
  end.

(** [[0] * k]: a non-positive count gives the empty list. *)
Definition zeros (k : Z) : list Z := replicate (Z.to_nat k) 0%Z.

(** [[row + [0] * (m - n) for row in A] + [[0] * m for _ in range(m - n)]] *)
Definition pad (n m : Z) (A : Matrix) : Matrix :=
  ((λ row, row ++ zeros (m - n)) <$> A)
    ++ replicate (Z.to_nat (m - n)) (zeros m).

(** [[row[:n] for row in Cp[:n]]] *)
Definition crop (n : nat) (Cp : Matrix) : Matrix := take n <$> take n Cp.

(** The chained comparison [n == len(B) == len(A[0]) == len(B[0])] of
    the [assert]: each link is evaluated only if the previous one held. *)
Definition shape_assert (A B : Matrix) : result unit :=
  let n := length A in
  if bool_decide (n ≠ length B) then Raise AssertionError
  else
    A0 ← getitem A 0;
    if bool_decide (length B ≠ length A0) then Raise AssertionError
    else
      B0 ← getitem B 0;
      if bool_decide (length A0 ≠ length B0) then Raise AssertionError
      else Ok ().

(** [matmul_strassen]: pads to the next power of two when [n & (n - 1)]
    is non-zero, and crops the product back. *)
Definition matmul_strassen (fuel : nat) (A B : Matrix) (cutoff : Z)
    : result Matrix :=
  let n := length A in
  if bool_decide (n = 0) then Ok []
  else
    _ ← shape_assert A B;
    if bool_decide (Z.land (Z.of_nat n) (Z.of_nat n - 1) ≠ 0)%Z then
      let m := Z.shiftl 1 (bit_length (Z.of_nat n - 1)) in
      let Ap := pad (Z.of_nat n) m A in
      let Bp := pad (Z.of_nat n) m B in
      Cp ← _strassen_core fuel Ap Bp cutoff;
      Ok (crop n Cp)
    else _strassen_core fuel A B cutoff.

Definition matmul_strassen_winograd (fuel : nat) (A B : Matrix) (cutoff : Z)
    : result Matrix :=
  let n := length A in
  if bool_decide (n = 0) then Ok []
  else
    _ ← shape_assert A B;
    if bool_decide (Z.land (Z.of_nat n) (Z.of_nat n - 1) ≠ 0)%Z then
      let m := Z.shiftl 1 (bit_length (Z.of_nat n - 1)) in
      let Ap := pad (Z.of_nat n) m A in
      let Bp := pad (Z.of_nat n) m B in
      Cp ← _strassen_winograd_core fuel Ap Bp cutoff;
      Ok (crop n Cp)
    else _strassen_winograd_core fuel A B cutoff.

End Benchmark.

(** ** [utility/matrix_benchmark.py]: the generator, the correctness check
    and the timing *)

(** [[e for _ in range(k)]], where evaluating [e] reads and updates a
    state (here: the state of the generator). *)
Fixpoint comprehension {St T} (k : nat) (e : St → T * St) (s : St)
    : list T * St :=
  match k with
  | 0 => ([], s)
  | S k' =>
      let '(x, s1) := e s in
      let '(l, s2) := comprehension k' e s1 in
      (x :: l, s2)
  end.

Module Run.

(** The constants of the experiment. *)
Definition N : Z := 384.
Definition IS_RANDOM : bool := false.
Definition NUM_REPEATS : Z := 1.
Definition RANDOM_SEED : Z := 42.

Section random.

(** The generator of the [random] module: the state of a generator,
    [random.Random(seed)] and [rng.randint(a, b)], which returns a number
    and advances the state. *)
Variable rng : Type.
Variable Random : Z → rng.
Variable randint : Z → Z → rng → Z * rng.

Definition generate_matrix (n seed : Z) : Matrix :=
  let g := Random seed in
  (comprehension (Z.to_nat n)
     (comprehension (Z.to_nat n) (randint (-9) 9)) g).1.

(** The operands for all the repeats (lines 259-273 of [run_benchmark]),
    for any values of the constants. *)
Definition matrices_list (n : Z) (is_random : bool) (num_repeats seed : Z)
    : list (Matrix * Matrix) :=
  if is_random then
    (λ r : nat,
       let seed_a := (seed + Z.of_nat r)%Z in
       let seed_b := (seed + 10000 + Z.of_nat r)%Z in
       (generate_matrix n seed_a, generate_matrix n seed_b))
    <$> seq 0 (Z.to_nat num_repeats)
  else
    let A := generate_matrix n seed in
    let B := generate_matrix n (seed + 10000) in
    replicate (Z.to_nat num_repeats) (A, B).

(** The correctness check (lines 275-285 of [run_benchmark]); the
    messages printed and the timing that follows are left out. *)
Definition correctness_check (fuel : nat) (n : Z) (is_random : bool)
    (num_repeats seed cutoff_strassen cutoff_winograd : Z) : result unit :=
  '(A0_list, B0_list) ←
    getitem (matrices_list n is_random num_repeats seed) 0;
  C_ref ← matmul_classic A0_list B0_list;
  C_strassen ← Benchmark.matmul_strassen fuel A0_list B0_list cutoff_strassen;
  C_winograd ←
    Benchmark.matmul_strassen_winograd fuel A0_list B0_list cutoff_winograd;
  if bool_decide (C_strassen ≠ C_ref) then Raise AssertionError
  else if bool_decide (C_winograd ≠ C_ref) then Raise AssertionError
  else Ok ().

(** The check as [run_benchmark] runs it. *)
Definition run_benchmark_check (fuel : nat) : result unit :=
  correctness_check fuel N IS_RANDOM NUM_REPEATS RANDOM_SEED
    Benchmark.CUTOFF_STRASSEN Benchmark.CUTOFF_WINOGRAD.

End random.

(** A small generator to run the definitions on: a linear congruential
    sequence, reduced to the range asked for. *)
Definition ex_Random (seed : Z) : Z := (seed `mod` 65537)%Z.
Definition ex_randint (a b g : Z) : Z * Z :=
  ((a + g `mod` (b - a + 1))%Z, ((75 * g + 74) `mod` 65537)%Z).

End Run.

Module Timing.

(** What [time_algo] changes outside its arguments: whether the garbage
    collector is enabled, and the clock. *)
Record world (clock : Type) : Type := World {
  gc_enabled : bool;
  clk : clock
}.
Arguments World {clock} _ _.
Arguments gc_enabled {clock} _.
Arguments clk {clock} _.

Section time_algo.

(** The clock: [time.perf_counter()] returns a time and advances the
    clock; [t1 - t0] is the difference of two times; and the clock moves
    on while a call [fn(A, B)] runs. *)
Variable clock : Type.
Variable time : Type.
Variable perf_counter : clock → time * clock.
Variable elapsed : time → time → time.
Variable during : Matrix → Matrix → clock → clock.

(** The loop of [time_algo], with the list [times] built so far.
    [gc.collect()] changes neither the flag nor the clock. *)
Fixpoint time_loop (fn : Matrix → Matrix → result Matrix)
    (matrices : list (Matrix * Matrix)) (times : list time)
    (w : world clock) : result (list time) * world clock :=
  match matrices with
  | [] => (Ok times, w)
  | (A, B) :: rest =>
      let w := World false (clk w) in
      let '(t0, c) := perf_counter (clk w) in
      let w := World (gc_enabled w) (during A B c) in
      match fn A B with
      | Raise e => (Raise e, w)
      | Ok _ =>
          let '(t1, c) := perf_counter (clk w) in
          let w := World true c in
          time_loop fn rest (times ++ [elapsed t1 t0]) w
      end
  end.

Definition time_algo (fn : Matrix → Matrix → result Matrix)
    (matrices : list (Matrix * Matrix)) (w : world clock)
    : result (list time) * world clock :=
  time_loop fn matrices [] w.

End time_algo.

(** A clock that counts its readings and the calls. *)
Definition ex_perf_counter (c : nat) : nat * nat := (c, S c).
Definition ex_during (A B : Matrix) (c : nat) : nat := c + length A.

End Timing.

(** ** The same code over a store of list objects

    Here a matrix is a reference to a list object whose items are
    references to row objects.  Every expression of the source that builds
    a list allocates a new object; the only statement that updates an
    object in place is [Ci[j] += aik * Bk[j]] in [matmul_classic]. *)
Module Store.

Definition loc : Type := positive.

(** A list object holds integers (a row) or references to rows. *)
Inductive obj : Type :=
  | ORow (items : list Z)
  | OMat (items : list loc).

Abbreviation heap := (gmap loc obj).

(** A computation reads and updates the store and returns a value or
    raises; the store survives an exception. *)
Definition hm (A : Type) : Type := heap → result A * heap.

Definition hret {A} (x : A) : hm A := λ h, (Ok x, h).
Definition hraise {A} (e : exn) : hm A := λ h, (Raise e, h).
Definition hbind {A B} (m : hm A) (k : A → hm B) : hm B := λ h,
  match m h with
  | (Ok x, h') => k x h'
  | (Raise e, h') => (Raise e, h')
  end.

Global Instance hm_ret : MRet hm := @hret.
Global Instance hm_bind : MBind hm := λ _ _ k m, hbind m k.

(** A new list object, at a reference not yet in the store. *)
Definition new (o : obj) : hm loc := λ h,
  let l := fresh (dom h) in (Ok l, <[l := o]> h).

(** The items of a list of integers, of a list of rows. *)
Definition ints (l : loc) : hm (list Z) := λ h,
  match h !! l with
  | Some (ORow items) => (Ok items, h)
  | _ => (Raise TypeError, h)
  end.

Definition refs (l : loc) : hm (list loc) := λ h,
  match h !! l with
  | Some (OMat items) => (Ok items, h)
  | _ => (Raise TypeError, h)
  end.

(** [len(l)]. *)
Definition len (l : loc) : hm nat := λ h,
  match h !! l with
  | Some (ORow items) => (Ok (length items), h)
  | Some (OMat items) => (Ok (length items), h)
  | None => (Raise TypeError, h)
  end.

Definition lift {A} (r : result A) : hm A := λ h, (r, h).

(** [A[i]] on a matrix, [row[j]] on a row. *)
Definition get_row (l : loc) (i : nat) : hm loc :=
  items ← refs l; lift (getitem items i).

Definition get_int (l : loc) (j : nat) : hm Z :=
  items ← ints l; lift (getitem items j).

(** [row[j] = v]: the object at [l] is updated in place. *)
Definition set_int (l : loc) (j : nat) (v : Z) : hm unit := λ h,
  match h !! l with
  | Some (ORow items) =>
      if decide (j < length items)
      then (Ok (), <[l := ORow (<[j := v]> items)]> h)
      else (Raise IndexError, h)
  | _ => (Raise TypeError, h)
  end.

(** [for i in l: body(i)]. *)
Fixpoint hiter (body : nat → hm unit) (l : list nat) : hm unit :=
  match l with
  | [] => hret ()
  | i :: l' => _ ← body i; hiter body l'
  end.

Definition hfor (n : nat) (body : nat → hm unit) : hm unit :=
  hiter body (seq 0 n).

(** [[0] * k]: the literal [[0]], then its repetition. *)
Definition zeros (k : Z) : hm loc :=
  _ ← new (ORow [0%Z]); new (ORow (replicate (Z.to_nat k) 0%Z)).

(** [[f(x) for x in l]] where the items are rows: the rows are built
    first, then the list that holds them. *)
Definition list_of {A} (f : A → hm loc) (l : list A) : hm loc :=
  rows ← mapM f l; new (OMat rows).

Definition matmul_classic (a b : loc) : hm loc :=
  n ← len a;
  c ← list_of (λ _, zeros (Z.of_nat n)) (seq 0 n);
  _ ← hfor n (λ i,
    rowA ← get_row a i;
    Ci ← get_row c i;
    hfor n (λ k,
      aik ← get_int rowA k;
      Bk ← get_row b k;
      hfor n (λ j,
        cij ← get_int Ci j;
        bkj ← get_int Bk j;
        set_int Ci j (cij + aik * bkj)%Z)));
  hret c.

Definition elementwise (op : Z → Z → Z) (a b : loc) : hm loc :=
  n ← len a;
  list_of (λ i,
    row ← mapM (λ j,
      Ai ← get_row a i;
      aij ← get_int Ai j;
      Bi ← get_row b i;
      bij ← get_int Bi j;
      hret (op aij bij)) (seq 0 n);
    new (ORow row)) (seq 0 n).

Definition add_matrix (a b : loc) : hm loc := elementwise Z.add a b.
Definition sub_matrix (a b : loc) : hm loc := elementwise Z.sub a b.

(** The slices [A[:m]], [A[m:]] and [row[:m]], [row[m:]] are new lists. *)
Definition slice_rows (cut : nat → list loc → list loc) (m : nat) (a : loc)
    : hm loc :=
  items ← refs a; new (OMat (cut m items)).

Definition slice_ints (cut : nat → list Z → list Z) (m : nat) (r : loc)
    : hm loc :=
  items ← ints r; new (ORow (cut m items)).

(** [[row[...] for row in A[...]]]. *)
Definition quadrant (cut_rows : nat → list loc → list loc)
    (cut_ints : nat → list Z → list Z) (m : nat) (a : loc) : hm loc :=
  t ← slice_rows cut_rows m a;
  rows ← refs t;
  list_of (slice_ints cut_ints m) rows.

Definition quad11 : nat → loc → hm loc := quadrant take take.
Definition quad12 : nat → loc → hm loc := quadrant take drop.
Definition quad21 : nat → loc → hm loc := quadrant drop take.
Definition quad22 : nat → loc → hm loc := quadrant drop drop.

(** [x + y] on two lists is a new list of the same items. *)
Definition concat_rows (x y : loc) : hm loc :=
  xs ← refs x; ys ← refs y; new (OMat (xs ++ ys)).

Definition concat_ints (x y : loc) : hm loc :=
  xs ← ints x; ys ← ints y; new (ORow (xs ++ ys)).

Definition glue_rows (m : nat) (l r : loc) : hm loc :=
  list_of (λ i, li ← get_row l i; ri ← get_row r i; concat_ints li ri)
    (seq 0 m).

Definition glue (m : nat) (c11 c12 c21 c22 : loc) : hm loc :=
  top ← glue_rows m c11 c12;
  bot ← glue_rows m c21 c22;
  concat_rows top bot.

Definition strassen_step (rec : loc → loc → hm loc) (a b : loc) : hm loc :=
  n ← len a;
  let m := n / 2 in
  a11 ← quad11 m a;
  a12 ← quad12 m a;
  a21 ← quad21 m a;
  a22 ← quad22 m a;
  b11 ← quad11 m b;
  b12 ← quad12 m b;
  b21 ← quad21 m b;
  b22 ← quad22 m b;
  M1 ← (x ← add_matrix a11 a22; y ← add_matrix b11 b22; rec x y);
  M2 ← (x ← add_matrix a21 a22; rec x b11);
  M3 ← (y ← sub_matrix b12 b22; rec a11 y);
  M4 ← (y ← sub_matrix b21 b11; rec a22 y);
  M5 ← (x ← add_matrix a11 a12; rec x b22);
  M6 ← (x ← sub_matrix a21 a11; y ← add_matrix b11 b12; rec x y);
  M7 ← (x ← sub_matrix a12 a22; y ← add_matrix b21 b22; rec x y);
  c11 ← (t ← add_matrix M1 M4; t ← add_matrix t M7; sub_matrix t M5);
  c12 ← add_matrix M3 M5;
  c21 ← add_matrix M2 M4;
  c22 ← (t ← add_matrix M1 M3; t ← sub_matrix t M2; add_matrix t M6);
  glue m c11 c12 c21 c22.

Module Answer.

Fixpoint strassen_core (fuel : nat) (a b : loc) (cutoff : Z) : hm loc :=
  match fuel with
  | 0 => hraise RecursionError
  | S fuel' =>
      n ← len a;
      if bool_decide (Z.of_nat n ≤ cutoff)%Z then matmul_classic a b
      else if bool_decide (n `mod` 2 = 1) then matmul_classic a b
      else strassen_step (λ x y, strassen_core fuel' x y cutoff) a b
  end.

Definition matmul_strassen (fuel : nat) (a b : loc) (cutoff : Z) : hm loc :=
  n ← len a;
  if bool_decide (n = 0) then new (OMat [])
  else
    lb ← len b;
    if bool_decide (n ≠ lb) then hraise ValueError
    else
      A0 ← get_row a 0;
      la0 ← len A0;
      if bool_decide (n ≠ la0) then hraise ValueError
      else
        B0 ← get_row b 0;
        lb0 ← len B0;
        if bool_decide (n ≠ lb0) then hraise ValueError
        else strassen_core fuel a b cutoff.

End Answer.

Module Benchmark.

Fixpoint _strassen_core (fuel : nat) (a b : loc) (cutoff : Z) : hm loc :=
  match fuel with
  | 0 => hraise RecursionError
  | S fuel' =>
      n ← len a;
      if bool_decide (Z.of_nat n ≤ cutoff)%Z then matmul_classic a b
      else strassen_step (λ x y, _strassen_core fuel' x y cutoff) a b
  end.

Definition winograd_step (rec : loc → loc → hm loc) (a b : loc) : hm loc :=
  n ← len a;
  let m := n / 2 in
  a11 ← quad11 m a;
  a12 ← quad12 m a;
  a21 ← quad21 m a;
  a22 ← quad22 m a;
  b11 ← quad11 m b;
  b12 ← quad12 m b;
  b21 ← quad21 m b;
  b22 ← quad22 m b;
  S1 ← sub_matrix b12 b22;
  S2 ← add_matrix a11 a12;
  S3 ← add_matrix a21 a22;
  S4 ← sub_matrix b21 b11;
  S5 ← add_matrix a11 a22;
  S6 ← add_matrix b11 b22;
  S7 ← sub_matrix a12 a22;
  S8 ← add_matrix b21 b22;
  S9 ← sub_matrix a11 a21;
  S10 ← add_matrix b11 b12;
  P1 ← rec a11 S1;
  P2 ← rec S2 b22;
  P3 ← rec S3 b11;
  P4 ← rec a22 S4;
  P5 ← rec S5 S6;
  P6 ← rec S7 S8;
  P7 ← rec S9 S10;
  C11 ← (t ← add_matrix P5 P4; t ← sub_matrix t P2; add_matrix t P6);
  C12 ← add_matrix P1 P2;
  C21 ← add_matrix P3 P4;
  C22 ← (t ← add_matrix P5 P1; t ← sub_matrix t P3; sub_matrix t P7);
  glue m C11 C12 C21 C22.

Fixpoint _strassen_winograd_core (fuel : nat) (a b : loc) (cutoff : Z)
    : hm loc :=
  match fuel with
  | 0 => hraise RecursionError
  | S fuel' =>
      n ← len a;
      if bool_decide (Z.of_nat n ≤ cutoff)%Z then matmul_classic a b
      else winograd_step (λ x y, _strassen_winograd_core fuel' x y cutoff) a b
  end.

Definition shape_assert (a b : loc) : hm unit :=
  n ← len a;
  lb ← len b;
  if bool_decide (n ≠ lb) then hraise AssertionError
  else
    A0 ← get_row a 0;
    la0 ← len A0;
    if bool_decide (lb ≠ la0) then hraise AssertionError
    else
      B0 ← get_row b 0;
      lb0 ← len B0;
      if bool_decide (la0 ≠ lb0) then hraise AssertionError
      else hret ().

(** [[row + [0] * (m - n) for row in A] + [[0] * m for _ in range(m - n)]] *)
Definition pad (n m : Z) (a : loc) : hm loc :=
  rows ← refs a;
  top ← list_of (λ row, z ← zeros (m - n); concat_ints row z) rows;
  bot ← list_of (λ _, zeros m) (seq 0 (Z.to_nat (m - n)));
  concat_rows top bot.

(** [[row[:n] for row in Cp[:n]]] *)
Definition crop (n : nat) (cp : loc) : hm loc := quadrant take take n cp.

Definition matmul_strassen (fuel : nat) (a b : loc) (cutoff : Z) : hm loc :=
  n ← len a;
  if bool_decide (n = 0) then new (OMat [])
  else
    _ ← shape_assert a b;
    if bool_decide (Z.land (Z.of_nat n) (Z.of_nat n - 1) ≠ 0)%Z then
      let m := Z.shiftl 1 (bit_length (Z.of_nat n - 1)) in
      Ap ← pad (Z.of_nat n) m a;
      Bp ← pad (Z.of_nat n) m b;
      Cp ← _strassen_core fuel Ap Bp cutoff;
      crop n Cp
    else _strassen_core fuel a b cutoff.

Definition matmul_strassen_winograd (fuel : nat) (a b : loc) (cutoff : Z)
    : hm loc :=
  n ← len a;
  if bool_decide (n = 0) then new (OMat [])
  else
    _ ← shape_assert a b;
    if bool_decide (Z.land (Z.of_nat n) (Z.of_nat n - 1) ≠ 0)%Z then
      let m := Z.shiftl 1 (bit_length (Z.of_nat n - 1)) in
      Ap ← pad (Z.of_nat n) m a;
      Bp ← pad (Z.of_nat n) m b;
      Cp ← _strassen_winograd_core fuel Ap Bp cutoff;
      crop n Cp
    else _strassen_winograd_core fuel a b cutoff.

End Benchmark.

(** *** Reading and writing whole matrices *)

Definition row_at (h : heap) (r : loc) : option (list Z) :=
  match h !! r with
  | Some (ORow items) => Some items
  | _ => None
  end.

(** The matrix a reference denotes in a store, when it denotes one. *)
Definition matrix_at (h : heap) (a : loc) : option Matrix :=
  match h !! a with
  | Some (OMat rows) => mapM (row_at h) rows
  | _ => None
  end.

Definition store_matrix (A : Matrix) : hm loc :=
  list_of (λ row, new (ORow row)) A.

(** Store [A] and [B] in the empty store, call [f] on them, and read the
    two operands and the result back. *)
Definition run_on (A B : Matrix) (f : loc → loc → hm loc)
    : result (option Matrix * option Matrix * option Matrix) :=
  let '(r, h) :=
    (a ← store_matrix A; b ← store_matrix B; c ← f a b; hret (a, b, c))
      (∅ : heap) in
  match r with
  | Ok (a, b, c) => Ok (matrix_at h a, matrix_at h b, matrix_at h c)
  | Raise e => Raise e
  end.

(** *** What a call may do to the store *)

(** Every object of the store before is in the store after, unchanged. *)
Definition ext {A} (m : hm A) : Prop := ∀ h, h ⊆ (m h).2.

(** The store is not touched at all. *)
Definition readonly {A} (m : hm A) : Prop := ∀ h, (m h).2 = h.

(** The reference returned was not in the store before. *)
Definition fresh1 (m : hm loc) : Prop :=
  ext m ∧ ∀ h l, (m h).1 = Ok l → h !! l = None.

Definition freshN (m : hm (list loc)) : Prop :=
  ext m ∧ ∀ h ls, (m h).1 = Ok ls → Forall (λ l, h !! l = None) ls.

(** [c] is a list of rows that is new in [h'] with respect to [h], and so
    is each of its rows. *)
Definition fresh_matrix (h h' : heap) (c : loc) : Prop :=
  h !! c = None
  ∧ ∃ rows, h' !! c = Some (OMat rows) ∧ Forall (λ l, h !! l = None) rows.

Definition fresh_mat (m : hm loc) : Prop :=
  ext m ∧ ∀ h c, (m h).1 = Ok c → fresh_matrix h (m h).2 c.

(** Running [m] from a store satisfying [I] leads to a store satisfying
    [I], and the value returned satisfies [Q]. *)
Definition keeps {A} (I : heap → Prop) (m : hm A) (Q : A → Prop) : Prop :=
  ∀ h, I h → I (m h).2 ∧ ∀ x, (m h).1 = Ok x → Q x.

(** While the loops of [matmul_classic] run: the store before the call is
    intact and [c] is still the list of the rows allocated for it. *)
Definition acc_inv (h0 : heap) (c : loc) (rows : list loc) (h : heap) : Prop :=
  h0 ⊆ h ∧ h !! c = Some (OMat rows).

(** The text shared by the two entry points of [matrix_benchmark.py]. *)
Definition padded_call (core : loc → loc → Z → hm loc) (a b : loc)
    (cutoff : Z) : hm loc :=
  n ← len a;
  if bool_decide (n = 0) then new (OMat [])
  else
    _ ← Benchmark.shape_assert a b;
    if bool_decide (Z.land (Z.of_nat n) (Z.of_nat n - 1) ≠ 0)%Z then
      let m := Z.shiftl 1 (bit_length (Z.of_nat n - 1)) in
      Ap ← Benchmark.pad (Z.of_nat n) m a;
      Bp ← Benchmark.pad (Z.of_nat n) m b;
      Cp ← core Ap Bp cutoff;
      Benchmark.crop n Cp
    else core a b cutoff.

(** A call that mutates nothing: whatever the store [h] and whether the
    call returns or raises, every object of [h] is unchanged afterwards, so
    every matrix readable in [h] reads the same afterwards; and a returned
    reference is a new matrix made of new rows. *)
Definition pure_call (m : hm loc) : Prop :=
  ∀ h,
    h ⊆ (m h).2
    ∧ (∀ x M, matrix_at h x = Some M → matrix_at (m h).2 x = Some M)
    ∧ (∀ c, (m h).1 = Ok c → fresh_matrix h (m h).2 c).

End Store.

(** ** Relating the store model to the value model *)

(** The object at [r] is the row [row]. *)
Definition rep_row (h : Store.heap) (r : Store.loc) (row : list Z) : Prop :=
  h !! r = Some (Store.ORow row).

(** The objects at [rs] are the rows [rows], one by one. *)
Definition rep_rows (h : Store.heap) (rs : list Store.loc) (rows : Matrix)
    : Prop :=
  Forall2 (rep_row h) rs rows.

(** The reference [a] denotes the matrix [A]. *)
Definition rep (h : Store.heap) (a : Store.loc) (A : Matrix) : Prop :=
  ∃ rs, h !! a = Some (Store.OMat rs) ∧ rep_rows h rs A.

(** Values that are not references are related when they are equal. *)
Definition same {X} (h : Store.heap) (x y : X) : Prop := x = y.

(** The store computation [m], run from [h], does what the value
    computation [p] does: it raises the same exception, or returns a
    value related by [R] to the value [p] returns; and it leaves what was
    in [h] unchanged. *)
Definition sim {X Y} (R : Store.heap → X → Y → Prop) (h : Store.heap)
    (m : Store.hm X) (p : result Y) : Prop :=
  h ⊆ (m h).2
  ∧ match p with
    | Ok y => ∃ x, (m h).1 = Ok x ∧ R (m h).2 x y
    | Raise e => (m h).1 = Raise e
    end.

Definition stable {X Y} (R : Store.heap → X → Y → Prop) : Prop :=
  ∀ h h' x y, h ⊆ h' → R h x y → R h' x y.

(** A slice of the rows: [take] or [drop] on both sides. *)
Definition cuts (cut : nat → list Store.loc → list Store.loc)
    (cut' : nat → Matrix → Matrix) : Prop :=
  ∀ h m rs rows, rep_rows h rs rows → rep_rows h (cut m rs) (cut' m rows).

(** A loop on the store follows a loop on values: when the value loop
    yields the state [s'], the store loop ends in a store satisfying
    [I s']; when it raises, the store loop raises the same exception and
    ends in a store satisfying [E]. *)
Definition steps {St} (I : St → Store.heap → Prop) (E : Store.heap → Prop)
    (h : Store.heap) (m : Store.hm unit) (p : result St) : Prop :=
  match p with
  | Ok s' => ∃ h', m h = (Ok (), h') ∧ I s' h'
  | Raise e => ∃ h', m h = (Raise e, h') ∧ E h'
  end.

(** The accumulator [c] is the list of the rows [rs], which hold the
    matrix [C]; and the store [h0] from before the call is intact. *)
Definition acc_rep (h0 : Store.heap) (c : Store.loc) (rs : list Store.loc)
    (C : Matrix) (h : Store.heap) : Prop :=
  h0 ⊆ h ∧ h !! c = Some (Store.OMat rs) ∧ rep_rows h rs C.

(** The store model refines the value model: started in a store where
    [a] and [b] denote [A] and [B], a call raises the exception the value
    model raises, or returns a reference that denotes, in the store after
    the call, the matrix the value model returns. *)
Definition refines (h : Store.heap) (m : Store.hm Store.loc)
    (p : result Matrix) : Prop :=
  match p with
  | Ok C => ∃ c, (m h).1 = Ok c ∧ Store.matrix_at (m h).2 c = Some C
  | Raise e => (m h).1 = Raise e
  end.

(** * Part II: mathematical matrices *)

(** [A[i][j]], with [0] standing for an entry that does not exist. *)
Definition entry (A : Matrix) (i j : nat) : Z :=
  default 0%Z (A !! i ≫= (.!! j)).

(** A square matrix of order [n]: [n] rows, each of length [n]. *)
Definition square (n : nat) (A : Matrix) : Prop :=
  length A = n ∧ Forall (λ row, length row = n) A.

(** The sum of [f k] for [0 <= k < n]. *)
Fixpoint bigsum (n : nat) (f : nat → Z) : Z :=
  match n with
  | 0 => 0%Z
  | S n' => (bigsum n' f + f n')%Z
  end.

(** The matrix of order [n] with entries [f i j]. *)
Definition mk (n : nat) (f : nat → nat → Z) : Matrix :=
  (λ i, f i <$> seq 0 n) <$> seq 0 n.

(** Entries of the product of two matrices of order [n], given by their
    entries. *)
Definition fprod (n : nat) (f g : nat → nat → Z) : nat → nat → Z :=
  λ i j, bigsum n (λ k, f i k * g k j)%Z.

(** The standard matrix product, as the specification words it:
    [C[i][j]] is the sum over [k] of [A[i][k] * B[k][j]]. *)
Definition matrix_product (A B : Matrix) : Matrix :=
  mk (length A) (fprod (length A) (entry A) (entry B)).

(** [M] has at least the entries [f i j] for [i, j < n] (it may have more
    rows, and longer rows). *)
Definition has_entries (n : nat) (M : Matrix) (f : nat → nat → Z) : Prop :=
  ∀ i j, i < n → j < n → ∃ row, M !! i = Some row ∧ row !! j = Some (f i j).

Definition power_of_two (n : nat) : Prop := ∃ k : nat, n = 2 ^ k.

(** Entries of the matrix glued from four quadrants of order [m]. *)
Definition blocks (m : nat) (c11 c12 c21 c22 : nat → nat → Z)
    : nat → nat → Z := λ i j,
  if decide (i < m)
  then (if decide (j < m) then c11 i j else c12 i (j - m))
  else (if decide (j < m) then c21 (i - m) j else c22 (i - m) (j - m)).

(** Entries of a matrix of order [n] extended with zeros: the leading
    [n]-by-[n] block is the original, everything else is zero. *)
Definition padded (n : nat) (f : nat → nat → Z) : nat → nat → Z := λ i j,
  if decide (i < n) then (if decide (j < n) then f i j else 0%Z) else 0%Z.

(** The length of the first row, the only row the entry points look at. *)
Definition first_row_len (M : Matrix) : nat := length (default [] (M !! 0)).

(** What it means for a core to be right on matrices of order [2 ^ k]. *)
Definition core_ok (core : nat → Matrix → Matrix → Z → result Matrix)
    : Prop :=
  ∀ k fuel f g cutoff,
    k < fuel → (1 ≤ cutoff)%Z →
    core fuel (mk (2 ^ k) f) (mk (2 ^ k) g) cutoff
    = Ok (mk (2 ^ k) (fprod (2 ^ k) f g)).

(** The text shared by [matmul_strassen] and [matmul_strassen_winograd]. *)
Definition padded_entry (core : Matrix → Matrix → Z → result Matrix)
    (A B : Matrix) (cutoff : Z) : result Matrix :=
  let n := length A in
  if bool_decide (n = 0) then Ok []
  else
    _ ← Benchmark.shape_assert A B;
    if bool_decide (Z.land (Z.of_nat n) (Z.of_nat n - 1) ≠ 0)%Z then
      let m := Z.shiftl 1 (bit_length (Z.of_nat n - 1)) in
      let Ap := Benchmark.pad (Z.of_nat n) m A in
      let Bp := Benchmark.pad (Z.of_nat n) m B in
      Cp ← core Ap Bp cutoff;
      Ok (Benchmark.crop n Cp)
    else core A B cutoff.

(** [r] is not one of the two exceptions of the shape checks. *)
Definition no_shape_error {T} (r : result T) : Prop :=
  r ≠ Raise AssertionError ∧ r ≠ Raise ValueError.

(** ** Concrete inputs *)

Definition ex_A2 : Matrix := [[1; 2]; [3; 4]]%Z.
Definition ex_I2 : Matrix := [[1; 0]; [0; 1]]%Z.
Definition ex_A3 : Matrix := [[2; 0; 1]; [1; 3; 2]; [0; 1; 4]]%Z.
Definition ex_B3 : Matrix := [[1; 2; 3]; [4; 5; 6]; [7; 8; 9]]%Z.
(** Two rows, the first of length two, the second of length three. *)
Definition ex_ragged : Matrix := [[1; 2]; [3; 4; 5]]%Z.
(** The products of [ex_A3] and [ex_B3], and their sum. *)
Definition ex_A3B3 : Matrix := [[9; 12; 15]; [27; 33; 39]; [32; 37; 42]]%Z.
Definition ex_A3_plus_B3 : Matrix := [[3; 2; 4]; [5; 8; 8]; [7; 9; 13]]%Z.

(** ** Notions for the further properties *)

(** The identity matrix of order [n]. *)
Definition identity (n : nat) : Matrix :=
  mk n (λ i j, if decide (i = j) then 1%Z else 0%Z).

(** [M] contains a leading [n]-by-[n] block: it has at least [n] rows, and
    each of its first [n] rows has at least [n] entries. *)
Definition has_block (n : nat) (M : Matrix) : Prop :=
  n ≤ length M ∧ Forall (λ row, n ≤ length row) (take n M).

(** The halvings of the order [n] arrive at or below the cutoff without
    passing through an odd order: [n] is [q * 2 ^ k] for some [q] that is
    at most the cutoff. *)
Definition reaches_cutoff (n : nat) (cutoff : Z) : Prop :=
  ∃ q k : nat, n = q * 2 ^ k ∧ (Z.of_nat q ≤ cutoff)%Z.

(** What a core does at order [n]: the product when the halvings of [n]
    reach the cutoff, [IndexError] otherwise. *)
Definition core_by_order (core : nat → Matrix → Matrix → Z → result Matrix)
    : Prop :=
  ∀ fuel n f g cutoff,
    0 < n → n < 2 ^ fuel → (1 ≤ cutoff)%Z →
    (reaches_cutoff n cutoff
     ∧ core fuel (mk n f) (mk n g) cutoff = Ok (mk n (fprod n f g)))
    ∨ (¬ reaches_cutoff n cutoff
       ∧ core fuel (mk n f) (mk n g) cutoff = Raise IndexError).

(** Run from the store [h], the call [m] returns a reference to a new
    list of new rows that denotes [C], and [a] and [b] still denote [A]
    and [B]. *)
Definition returns_new (h : Store.heap) (a b : Store.loc) (A B : Matrix)
    (m : Store.hm Store.loc) (C : Matrix) : Prop :=
  ∃ c,
    (m h).1 = Ok c
    ∧ Store.fresh_matrix h (m h).2 c
    ∧ Store.matrix_at (m h).2 c = Some C
    ∧ Store.matrix_at (m h).2 a = Some A
    ∧ Store.matrix_at (m h).2 b = Some B.

(** A store in which one row object is both rows of the matrix at
    reference 2, as after [row = [1, 2]; M = [row] * 2]. *)
Definition ex_shared_rows : Store.heap :=
  <[2%positive := Store.OMat [1%positive; 1%positive]]>
    (<[1%positive := Store.ORow [1; 2]%Z]> ∅).

(** * Part III: proofs *)

(** ** Lemmas: the result monad and loops *)

Lemma getitem_Some {A} (l : list A) i x : l !! i = Some x → getitem l i = Ok x.
Proof. unfold getitem. by intros ->. Qed.

Lemma getitem_None {A} (l : list A) i :
  length l ≤ i → getitem l i = Raise IndexError.
Proof. intros H. unfold getitem. by rewrite lookup_ge_None_2. Qed.

Lemma for_each_app {St} (body : nat → St → result St) l1 l2 s :
  for_each body (l1 ++ l2) s = (s' ← for_each body l1 s; for_each body l2 s').
Proof.
  revert s. induction l1 as [|i l1 IH]; intros s; simpl; [done|].
  destruct (body i s) as [s'|e]; simpl; [apply IH | done].
Qed.

Lemma for_range_S {St} (body : nat → St → result St) n s :
  for_range (S n) body s = (s' ← for_range n body s; body n s').
Proof.
  unfold for_range. rewrite seq_S, for_each_app. simpl.
  destruct (for_each body (seq 0 n) s) as [s'|e]; simpl; [|done].
  by destruct (body n s').
Qed.

(** A loop whose every iteration succeeds and keeps an invariant indexed
    by the number of iterations done. *)
Lemma for_range_inv {St} (I : nat → St → Prop)
    (body : nat → St → result St) n s :
  I 0 s →
  (∀ i s, i < n → I i s → ∃ s', body i s = Ok s' ∧ I (S i) s') →
  ∃ s', for_range n body s = Ok s' ∧ I n s'.
Proof.
  intros H0 Hstep. induction n as [|n IH].
  - by exists s.
  - destruct IH as (s1 & Hs1 & HI); [intros; apply Hstep; [lia|done]|].
    destruct (Hstep n s1) as (s2 & Hs2 & HI2); [lia|done|].
    exists s2. rewrite for_range_S, Hs1. by simpl.
Qed.

Lemma mapM_Ok {A B} (f : A → result B) (g : A → B) (l : list A) :
  (∀ x, x ∈ l → f x = Ok (g x)) → mapM f l = Ok (g <$> l).
Proof.
  induction l as [|x l IH]; intros H; simpl; [done|].
  rewrite H by left. simpl. rewrite IH; [done|].
  intros y Hy. apply H. by right.
Qed.

(** ** Lemmas: finite sums *)

Lemma bigsum_ext n f g :
  (∀ k, k < n → f k = g k) → bigsum n f = bigsum n g.
Proof.
  induction n as [|n IH]; intros H; simpl; [done|].
  rewrite IH, H by (intros; try apply H; lia). done.
Qed.

Lemma bigsum_plus n f g :
  (bigsum n f + bigsum n g)%Z = bigsum n (λ k, f k + g k)%Z.
Proof. induction n as [|n IH]; simpl; [done|]. rewrite <- IH. lia. Qed.

Lemma bigsum_minus n f g :
  (bigsum n f - bigsum n g)%Z = bigsum n (λ k, f k - g k)%Z.
Proof. induction n as [|n IH]; simpl; [done|]. rewrite <- IH. lia. Qed.

Lemma bigsum_zero n f : (∀ k, k < n → f k = 0%Z) → bigsum n f = 0%Z.
Proof.
  induction n as [|n IH]; intros H; simpl; [done|].
  rewrite IH, H by (intros; try apply H; lia). done.
Qed.

Lemma bigsum_split m m' f :
  bigsum (m + m') f = (bigsum m f + bigsum m' (λ k, f (m + k)%nat))%Z.
Proof.
  induction m' as [|m' IH]; simpl.
  - rewrite Nat.add_0_r. lia.
  - rewrite Nat.add_succ_r. simpl. rewrite IH. lia.
Qed.

(** ** Lemmas: rows and matrices as tabulated functions *)

Section tabulate.
Context {T : Type}.
Implicit Types f g : nat → T.

Lemma lookup_tab f n j : j < n → (f <$> seq 0 n) !! j = Some (f j).
Proof. intros H. by rewrite list_lookup_fmap, lookup_seq_lt. Qed.

Lemma tab_ext n f g :
  (∀ j, j < n → f j = g j) → f <$> seq 0 n = g <$> seq 0 n.
Proof.
  intros H. apply list_fmap_ext. intros k x Hx.
  apply lookup_seq in Hx as [-> Hlt]. by apply H.
Qed.

Lemma replicate_tab n (x : T) : replicate n x = (λ _, x) <$> seq 0 n.
Proof.
  induction n as [|n IH]; [done|].
  rewrite seq_S, fmap_app, <- IH. simpl.
  by rewrite replicate_cons_app.
Qed.

Lemma insert_tab n f j (v : T) :
  j < n →
  <[j := v]> (f <$> seq 0 n) = (λ k, if decide (k = j) then v else f k) <$> seq 0 n.
Proof.
  intros Hj. apply list_eq. intros k.
  destruct (decide (k = j)) as [->|Hne].
  - rewrite list_lookup_insert_eq by (by rewrite length_fmap, length_seq).
    rewrite lookup_tab by done. by rewrite decide_True.
  - rewrite list_lookup_insert_ne by done.
    destruct (decide (k < n)) as [Hk|Hk].
    + rewrite !lookup_tab by done. by rewrite decide_False.
    + rewrite !lookup_ge_None_2; [done|..]; rewrite length_fmap, length_seq; lia.
Qed.

Lemma take_tab m n f : m ≤ n → take m (f <$> seq 0 n) = f <$> seq 0 m.
Proof.
  intros H. rewrite <- fmap_take, take_seq. by rewrite Nat.min_l.
Qed.

Lemma drop_tab m m' f :
  drop m (f <$> seq 0 (m + m')) = (λ j, f (m + j)) <$> seq 0 m'.
Proof.
  rewrite <- fmap_drop, drop_seq.
  replace (m + m' - m) with m' by lia.
  replace (0 + m) with (m + 0) by lia.
  by rewrite <- (fmap_add_seq m 0 m'), <- list_fmap_compose.
Qed.

Lemma app_tab m m' f g :
  (f <$> seq 0 m) ++ (g <$> seq 0 m')
  = (λ j, if decide (j < m) then f j else g (j - m)) <$> seq 0 (m + m').
Proof.
  rewrite seq_app, fmap_app. f_equal.
  - apply tab_ext. intros j Hj. by rewrite decide_True.
  - replace (0 + m) with (m + 0) by lia.
    rewrite <- (fmap_add_seq m 0 m'), <- list_fmap_compose.
    apply tab_ext. intros j Hj. simpl. rewrite decide_False by lia.
    f_equal. lia.
Qed.
End tabulate.

(** ** Lemmas: matrices given by their entries *)

Lemma length_mk n f : length (mk n f) = n.
Proof. unfold mk. by rewrite length_fmap, length_seq. Qed.

Lemma lookup_mk n f i : i < n → mk n f !! i = Some (f i <$> seq 0 n).
Proof.
  intros H. unfold mk. by rewrite list_lookup_fmap, lookup_seq_lt.
Qed.

Lemma has_entries_mk n f : has_entries n (mk n f) f.
Proof.
  intros i j Hi Hj. exists (f i <$> seq 0 n).
  by rewrite lookup_mk, lookup_tab.
Qed.

Lemma has_entries_le n n' M f : n ≤ n' → has_entries n' M f → has_entries n M f.
Proof. intros Hle H i j Hi Hj. apply H; lia. Qed.

Lemma entry_mk n f i j : i < n → j < n → entry (mk n f) i j = f i j.
Proof.
  intros Hi Hj. unfold entry. rewrite lookup_mk by done. simpl.
  by rewrite lookup_tab.
Qed.

Lemma mk_ext n f g :
  (∀ i j, i < n → j < n → f i j = g i j) → mk n f = mk n g.
Proof.
  intros H. unfold mk. apply list_fmap_ext. intros k x Hx.
  apply lookup_seq in Hx as [-> Hlt]. apply tab_ext. intros j Hj. by apply H.
Qed.

Lemma square_mk n f : square n (mk n f).
Proof.
  split; [apply length_mk|]. unfold mk. apply Forall_fmap, Forall_true.
  intros i. simpl. by rewrite length_fmap, length_seq.
Qed.

Lemma row_eq_fmap (row : list Z) :
  row = (λ j, default 0%Z (row !! j)) <$> seq 0 (length row).
Proof.
  apply list_eq. intros j. rewrite list_lookup_fmap.
  destruct (decide (j < length row)) as [Hj|Hj].
  - rewrite lookup_seq_lt by done. simpl.
    destruct (lookup_lt_is_Some_2 row j Hj) as [x ->]. done.
  - rewrite lookup_seq_ge, lookup_ge_None_2 by lia. done.
Qed.

Lemma square_eq_mk n A : square n A → A = mk n (entry A).
Proof.
  intros [Hlen Hrows]. apply list_eq. intros i.
  destruct (decide (i < n)) as [Hi|Hi].
  - rewrite lookup_mk by done.
    destruct (lookup_lt_is_Some_2 A i) as [row Hrow]; [lia|].
    rewrite Hrow. f_equal.
    assert (length row = n) as Hr.
    { by eapply (Forall_lookup_1 _ _ _ _ Hrows). }
    rewrite (row_eq_fmap row) at 1. rewrite Hr. apply tab_ext.
    intros j Hj. unfold entry. by rewrite Hrow.
  - rewrite lookup_ge_None_2 by lia.
    rewrite lookup_ge_None_2; [done|]. rewrite length_mk. lia.
Qed.

Lemma has_entries_square n A : square n A → has_entries n A (entry A).
Proof.
  intros H. rewrite (square_eq_mk n A H) at 1. apply has_entries_mk.
Qed.

Lemma has_entries_ext n M f g :
  has_entries n M f → has_entries n M g →
  ∀ i j, i < n → j < n → f i j = g i j.
Proof.
  intros Hf Hg i j Hi Hj.
  destruct (Hf i j Hi Hj) as (r1 & H1 & H1').
  destruct (Hg i j Hi Hj) as (r2 & H2 & H2').
  congruence.
Qed.

Lemma has_entries_row n M f i :
  has_entries n M f → i < n →
  ∃ row, M !! i = Some row ∧ ∀ j, j < n → row !! j = Some (f i j).
Proof.
  intros H Hi. destruct (H i 0 Hi) as (row & Hrow & _); [lia|].
  exists row. split; [done|]. intros j Hj.
  destruct (H i j Hi Hj) as (row' & Hrow' & Hj'). congruence.
Qed.

Lemma quad11_mk m f : quad11 m (mk (m + m) f) = mk m f.
Proof.
  unfold quad11, mk. rewrite take_tab by lia.
  rewrite <- list_fmap_compose. apply tab_ext. intros i Hi. simpl.
  apply take_tab. lia.
Qed.

Lemma quad12_mk m f : quad12 m (mk (m + m) f) = mk m (λ i j, f i (m + j)).
Proof.
  unfold quad12, mk. rewrite take_tab by lia.
  rewrite <- list_fmap_compose. apply tab_ext. intros i Hi. simpl.
  apply drop_tab.
Qed.

Lemma quad21_mk m f : quad21 m (mk (m + m) f) = mk m (λ i j, f (m + i) j).
Proof.
  unfold quad21, mk. rewrite drop_tab.
  rewrite <- list_fmap_compose. apply tab_ext. intros i Hi. simpl.
  apply take_tab. lia.
Qed.

Lemma quad22_mk m f :
  quad22 m (mk (m + m) f) = mk m (λ i j, f (m + i) (m + j)).
Proof.
  unfold quad22, mk. rewrite drop_tab.
  rewrite <- list_fmap_compose. apply tab_ext. intros i Hi. simpl.
  apply drop_tab.
Qed.

Lemma glue_rows_mk m f g :
  glue_rows m (mk m f) (mk m g)
  = Ok ((λ i, (λ j, if decide (j < m) then f i j else g i (j - m))
                <$> seq 0 (m + m)) <$> seq 0 m).
Proof.
  unfold glue_rows. apply mapM_Ok. intros i Hi.
  apply elem_of_seq in Hi.
  rewrite (getitem_Some _ _ _ (lookup_mk m f i ltac:(lia))). simpl.
  rewrite (getitem_Some _ _ _ (lookup_mk m g i ltac:(lia))). simpl.
  by rewrite app_tab.
Qed.

Lemma glue_mk m c11 c12 c21 c22 :
  glue m (mk m c11) (mk m c12) (mk m c21) (mk m c22)
  = Ok (mk (m + m) (blocks m c11 c12 c21 c22)).
Proof.
  unfold glue. rewrite !glue_rows_mk. simpl. f_equal.
  rewrite app_tab. unfold mk, blocks. apply tab_ext. intros i Hi.
  destruct (decide (i < m)); apply tab_ext; intros j Hj; done.
Qed.

(** ** Lemmas: the elementwise operations and the classical product *)

Lemma elementwise_ok op n A B a b :
  length A = n → has_entries n A a → has_entries n B b →
  elementwise op A B = Ok (mk n (λ i j, op (a i j) (b i j))).
Proof.
  intros Hlen Ha Hb. unfold elementwise, mk. rewrite Hlen.
  apply mapM_Ok. intros i Hi. apply elem_of_seq in Hi.
  apply mapM_Ok. intros j Hj. apply elem_of_seq in Hj.
  destruct (Ha i j) as (ra & Hra & Hja); [lia..|].
  destruct (Hb i j) as (rb & Hrb & Hjb); [lia..|].
  rewrite (getitem_Some _ _ _ Hra). simpl.
  rewrite (getitem_Some _ _ _ Hja). simpl.
  rewrite (getitem_Some _ _ _ Hrb). simpl.
  rewrite (getitem_Some _ _ _ Hjb). done.
Qed.

Lemma add_matrix_mk n f g :
  add_matrix (mk n f) (mk n g) = Ok (mk n (λ i j, f i j + g i j)%Z).
Proof.
  apply elementwise_ok; [apply length_mk | apply has_entries_mk..].
Qed.

Lemma sub_matrix_mk n f g :
  sub_matrix (mk n f) (mk n g) = Ok (mk n (λ i j, f i j - g i j)%Z).
Proof.
  apply elementwise_ok; [apply length_mk | apply has_entries_mk..].
Qed.

(** The innermost loop, run for [t] iterations on a row of length [n],
    adds [aik * Bk[j]] to [Ci[j]] for [j < t]. *)
Lemma classic_loop_j_upto t n aik (Bk : list Z) (bk c : nat → Z) :
  t ≤ n →
  (∀ j, j < t → Bk !! j = Some (bk j)) →
  for_range t (λ j Ci,
      cij ← getitem Ci j;
      bkj ← getitem Bk j;
      Ok (<[j := (cij + aik * bkj)%Z]> Ci)) (c <$> seq 0 n)
  = Ok ((λ j, if decide (j < t) then (c j + aik * bk j)%Z else c j)
          <$> seq 0 n).
Proof.
  intros Ht HB.
  edestruct (for_range_inv
    (λ t Ci, Ci = (λ j, if decide (j < t) then (c j + aik * bk j)%Z else c j)
                    <$> seq 0 n)) as (Ci & -> & ->); [| |done].
  - apply tab_ext. intros j Hj. by rewrite decide_False by lia.
  - intros j Ci Hj ->. eexists. split.
    + rewrite (getitem_Some _ _ _ (lookup_tab _ n j ltac:(lia))). simpl.
      rewrite (getitem_Some _ _ _ (HB j Hj)). simpl.
      rewrite decide_False by lia. done.
    + rewrite insert_tab by lia. apply tab_ext. intros k Hk.
      destruct (decide (k = j)) as [->|]; repeat case_decide; done || lia.
Qed.

Lemma classic_loop_j n aik (Bk : list Z) (bk c : nat → Z) :
  (∀ j, j < n → Bk !! j = Some (bk j)) →
  for_range n (λ j Ci,
      cij ← getitem Ci j;
      bkj ← getitem Bk j;
      Ok (<[j := (cij + aik * bkj)%Z]> Ci)) (c <$> seq 0 n)
  = Ok ((λ j, c j + aik * bk j)%Z <$> seq 0 n).
Proof.
  intros HB. rewrite (classic_loop_j_upto n n aik Bk bk c) by done.
  f_equal. apply tab_ext. intros j Hj. by rewrite decide_True.
Qed.

(** The middle loop accumulates the dot product into every [Ci[j]]. *)
Lemma classic_loop_k n (rowA : list Z) (B : Matrix) (a : nat → Z) b c :
  (∀ k, k < n → rowA !! k = Some (a k)) →
  has_entries n B b →
  for_range n (λ k Ci,
      aik ← getitem rowA k;
      Bk ← getitem B k;
      for_range n (λ j Ci,
        cij ← getitem Ci j;
        bkj ← getitem Bk j;
        Ok (<[j := (cij + aik * bkj)%Z]> Ci)) Ci) (c <$> seq 0 n)
  = Ok ((λ j, c j + bigsum n (λ k, a k * b k j))%Z <$> seq 0 n).
Proof.
  intros HA HB.
  edestruct (for_range_inv
    (λ t Ci, Ci = (λ j, c j + bigsum t (λ k, a k * b k j))%Z <$> seq 0 n))
    as (Ci & -> & ->); [| |done].
  - apply tab_ext. intros j Hj. simpl. lia.
  - intros k Ci Hk ->.
    destruct (has_entries_row n B b k HB Hk) as (Bk & HBk & Hrow).
    eexists. split.
    + rewrite (getitem_Some _ _ _ (HA k Hk)). simpl.
      rewrite (getitem_Some _ _ _ HBk). simpl.
      apply classic_loop_j. exact Hrow.
    + apply tab_ext. intros j Hj. simpl. lia.
Qed.

Lemma matmul_classic_ok n A B a b :
  length A = n → has_entries n A a → has_entries n B b →
  matmul_classic A B = Ok (mk n (fprod n a b)).
Proof.
  intros Hlen HA HB. unfold matmul_classic. rewrite Hlen.
  rewrite (replicate_tab n (replicate n 0%Z)), (replicate_tab n 0%Z).
  edestruct (for_range_inv
    (λ t (C : Matrix), C = (λ i, if decide (i < t) then fprod n a b i <$> seq 0 n
                          else (λ _, 0%Z) <$> seq 0 n) <$> seq 0 n))
    as (C & -> & ->).
  - apply tab_ext. intros i Hi. by rewrite decide_False by lia.
  - intros i C Hi ->.
    destruct (has_entries_row n A a i HA Hi) as (rowA & HrowA & Hrow).
    eexists. split.
    + rewrite (getitem_Some _ _ _ HrowA). simpl.
      rewrite (getitem_Some _ _ _ (lookup_tab _ n i Hi)). simpl.
      rewrite decide_False by lia.
      rewrite (classic_loop_k n rowA B (a i) b _ Hrow HB). simpl. done.
    + rewrite insert_tab by done. apply tab_ext. intros k Hk.
      destruct (decide (k = i)) as [->|].
      * rewrite decide_True by lia. apply tab_ext. intros j Hj.
        unfold fprod. lia.
      * repeat case_decide; done || lia.
  - f_equal. apply tab_ext. intros i Hi. by rewrite decide_True.
Qed.

Lemma matmul_classic_mk n f g :
  matmul_classic (mk n f) (mk n g) = Ok (mk n (fprod n f g)).
Proof.
  apply matmul_classic_ok; [apply length_mk | apply has_entries_mk..].
Qed.

(** ** Lemmas: one level of the recursion *)

Lemma bind_Ok {A B} (x : A) (k : A → result B) : (Ok x ≫= k) = k x.
Proof. done. Qed.

Lemma mk_blocks_ext m c11 c12 c21 c22 h :
  (∀ i j, i < m → j < m → c11 i j = h i j) →
  (∀ i j, i < m → j < m → c12 i j = h i (m + j)) →
  (∀ i j, i < m → j < m → c21 i j = h (m + i) j) →
  (∀ i j, i < m → j < m → c22 i j = h (m + i) (m + j)) →
  mk (m + m) (blocks m c11 c12 c21 c22) = mk (m + m) h.
Proof.
  intros H11 H12 H21 H22. apply mk_ext. intros i j Hi Hj. unfold blocks.
  destruct (decide (i < m)) as [Hi'|Hi'];
    destruct (decide (j < m)) as [Hj'|Hj'].
  - by apply H11.
  - rewrite H12 by lia. f_equal. lia.
  - rewrite H21 by lia. f_equal. lia.
  - rewrite H22 by lia. f_equal; lia.
Qed.

(** Running the monadic code on tabulated matrices. *)
Ltac run_mk Hrec :=
  repeat first
    [ rewrite Hrec
    | rewrite add_matrix_mk
    | rewrite sub_matrix_mk
    | rewrite bind_Ok ];
  cbv beta.

(** Both sides become one sum over [k < m], compared term by term. *)
Ltac one_sum :=
  intros; unfold fprod; rewrite bigsum_split;
  repeat first [ rewrite bigsum_plus | rewrite bigsum_minus ];
  apply bigsum_ext; intros; cbv beta; ring.

Lemma half_double m : (m + m) / 2 = m.
Proof.
  replace (m + m) with (m * 2) by lia. apply Nat.div_mul. lia.
Qed.

Lemma strassen_step_ok (rec : Matrix → Matrix → result Matrix) m f g :
  (∀ f g, rec (mk m f) (mk m g) = Ok (mk m (fprod m f g))) →
  strassen_step rec (mk (m + m) f) (mk (m + m) g)
  = Ok (mk (m + m) (fprod (m + m) f g)).
Proof.
  intros Hrec. unfold strassen_step. rewrite length_mk, half_double.
  rewrite !quad11_mk, !quad12_mk, !quad21_mk, !quad22_mk.
  run_mk Hrec. rewrite glue_mk. f_equal.
  apply mk_blocks_ext; one_sum.
Qed.

Lemma winograd_step_ok (rec : Matrix → Matrix → result Matrix) m f g :
  (∀ f g, rec (mk m f) (mk m g) = Ok (mk m (fprod m f g))) →
  Benchmark.winograd_step rec (mk (m + m) f) (mk (m + m) g)
  = Ok (mk (m + m) (fprod (m + m) f g)).
Proof.
  intros Hrec. unfold Benchmark.winograd_step. rewrite length_mk, half_double.
  rewrite !quad11_mk, !quad12_mk, !quad21_mk, !quad22_mk.
  run_mk Hrec. rewrite glue_mk. f_equal.
  apply mk_blocks_ext; one_sum.
Qed.

(** ** Lemmas: the recursive cores *)

Lemma pow2_S k : 2 ^ S k = 2 ^ k + 2 ^ k.
Proof. simpl. lia. Qed.

Lemma pow2_pos k : 0 < 2 ^ k.
Proof. induction k; simpl; lia. Qed.

Lemma _strassen_core_S fuel A B cutoff :
  Benchmark._strassen_core (S fuel) A B cutoff
  = if bool_decide (Z.of_nat (length A) ≤ cutoff)%Z then matmul_classic A B
    else strassen_step (λ X Y, Benchmark._strassen_core fuel X Y cutoff) A B.
Proof. done. Qed.

Lemma _strassen_winograd_core_S fuel A B cutoff :
  Benchmark._strassen_winograd_core (S fuel) A B cutoff
  = if bool_decide (Z.of_nat (length A) ≤ cutoff)%Z then matmul_classic A B
    else Benchmark.winograd_step
           (λ X Y, Benchmark._strassen_winograd_core fuel X Y cutoff) A B.
Proof. done. Qed.

Lemma strassen_core_S fuel A B cutoff :
  Answer.strassen_core (S fuel) A B cutoff
  = if bool_decide (Z.of_nat (length A) ≤ cutoff)%Z then matmul_classic A B
    else if bool_decide (length A `mod` 2 = 1) then matmul_classic A B
    else strassen_step (λ X Y, Answer.strassen_core fuel X Y cutoff) A B.
Proof. done. Qed.

Lemma _strassen_core_ok : core_ok Benchmark._strassen_core.
Proof.
  intros k. induction k as [|k IH]; intros fuel f g cutoff Hfuel Hcut;
    (destruct fuel as [|fuel]; [lia|]); rewrite _strassen_core_S;
    rewrite length_mk; case_bool_decide as Hn.
  - apply matmul_classic_mk.
  - simpl in Hn. lia.
  - apply matmul_classic_mk.
  - rewrite pow2_S. apply strassen_step_ok. intros f' g'.
    apply IH; [lia|done].
Qed.

Lemma _strassen_winograd_core_ok : core_ok Benchmark._strassen_winograd_core.
Proof.
  intros k. induction k as [|k IH]; intros fuel f g cutoff Hfuel Hcut;
    (destruct fuel as [|fuel]; [lia|]); rewrite _strassen_winograd_core_S;
    rewrite length_mk; case_bool_decide as Hn.
  - apply matmul_classic_mk.
  - simpl in Hn. lia.
  - apply matmul_classic_mk.
  - rewrite pow2_S. apply winograd_step_ok. intros f' g'.
    apply IH; [lia|done].
Qed.

(** The core of [answer.py] is right at every positive order and for
    every cutoff, thanks to the fallback at odd orders. *)
Lemma strassen_core_ok fuel : ∀ n f g cutoff,
  0 < n → n < 2 ^ fuel →
  Answer.strassen_core fuel (mk n f) (mk n g) cutoff
  = Ok (mk n (fprod n f g)).
Proof.
  induction fuel as [|fuel IH]; intros n f g cutoff Hpos Hfuel;
    [simpl in Hfuel; lia|].
  rewrite strassen_core_S, length_mk.
  case_bool_decide; [apply matmul_classic_mk|].
  case_bool_decide as Hodd; [apply matmul_classic_mk|].
  assert (n = n / 2 + n / 2) as Hn.
  { pose proof (Nat.div_mod_eq n 2).
    pose proof (Nat.mod_upper_bound n 2). lia. }
  rewrite Hn. apply strassen_step_ok. intros f' g'.
  rewrite pow2_S in Hfuel. apply IH; lia.
Qed.

(** ** Lemmas: the power-of-two test and the padded order *)

Lemma land_pred_log2 (n : Z) :
  (0 < n)%Z → Z.land n (n - 1) = 0%Z → n = (2 ^ Z.log2 n)%Z.
Proof.
  intros Hpos Hland.
  destruct (Z.log2_spec n Hpos) as [Hlo Hhi].
  destruct (decide (n = 2 ^ Z.log2 n)%Z) as [|Hne]; [done|exfalso].
  assert (0 < 2 ^ Z.log2 n)%Z as Hpow
    by (apply Z.pow_pos_nonneg; [lia | apply Z.log2_nonneg]).
  assert (Z.log2 (n - 1) = Z.log2 n) as Hlog.
  { apply Z.log2_unique; [apply Z.log2_nonneg | lia]. }
  assert (Z.testbit (Z.land n (n - 1)) (Z.log2 n) = true) as Hbit.
  { rewrite Z.land_spec, Z.bit_log2 by done.
    rewrite <- Hlog, Z.bit_log2 by lia. done. }
  rewrite Hland, Z.bits_0 in Hbit. done.
Qed.

Lemma land_pred_power_of_two (n : nat) :
  0 < n → Z.land (Z.of_nat n) (Z.of_nat n - 1) = 0%Z → power_of_two n.
Proof.
  intros Hpos Hland. exists (Z.to_nat (Z.log2 (Z.of_nat n))).
  apply Nat2Z.inj. rewrite Nat2Z.inj_pow.
  rewrite Z2Nat.id by apply Z.log2_nonneg.
  apply land_pred_log2; [lia|done].
Qed.

Lemma power_of_two_land_pred (k : nat) :
  Z.land (Z.of_nat (2 ^ k)) (Z.of_nat (2 ^ k) - 1) = 0%Z.
Proof.
  rewrite Nat2Z.inj_pow. change (Z.of_nat 2) with 2%Z.
  apply Z.bits_inj'. intros i Hi.
  rewrite Z.land_spec, Z.bits_0.
  replace (2 ^ Z.of_nat k - 1)%Z with (Z.pred (2 ^ Z.of_nat k)) by lia.
  rewrite <- Z.ones_equiv.
  destruct (decide (i < Z.of_nat k)%Z).
  - rewrite Z.pow2_bits_false by lia. done.
  - rewrite Z.ones_spec_high by lia. apply andb_false_r.
Qed.

(** The padded order [1 << (n - 1).bit_length()] is the least power of two
    that is at least [n]. *)
Lemma padded_order (n : nat) :
  2 ≤ n →
  ∃ k : nat,
    Z.shiftl 1 (bit_length (Z.of_nat n - 1)) = Z.of_nat (2 ^ S k)
    ∧ 2 ^ k < n ≤ 2 ^ S k.
Proof.
  intros Hn. exists (Z.to_nat (Z.log2 (Z.of_nat n - 1))).
  unfold bit_length. rewrite bool_decide_false by lia.
  rewrite Z.abs_eq by lia. rewrite Z.shiftl_1_l.
  destruct (Z.log2_spec (Z.of_nat n - 1)) as [Hlo Hhi]; [lia|].
  pose proof (Z.log2_nonneg (Z.of_nat n - 1)) as Hk.
  assert (Z.of_nat (2 ^ Z.to_nat (Z.log2 (Z.of_nat n - 1)))
          = 2 ^ Z.log2 (Z.of_nat n - 1))%Z as Hpow.
  { rewrite Nat2Z.inj_pow, Z2Nat.id by done. done. }
  split.
  - rewrite pow2_S, Nat2Z.inj_add, Hpow.
    replace (Z.log2 (Z.of_nat n - 1) + 1)%Z
      with (Z.succ (Z.log2 (Z.of_nat n - 1))) by lia.
    rewrite Z.pow_succ_r by done. lia.
  - rewrite pow2_S. rewrite Z.pow_succ_r in Hhi by done. lia.
Qed.

(** ** Lemmas: padding, cropping and the shape check *)

Lemma pad_mk n M f :
  n ≤ M → Benchmark.pad (Z.of_nat n) (Z.of_nat M) (mk n f) = mk M (padded n f).
Proof.
  intros Hle. unfold Benchmark.pad, Benchmark.zeros.
  replace (Z.to_nat (Z.of_nat M - Z.of_nat n)) with (M - n) by lia.
  rewrite Nat2Z.id. unfold mk. rewrite <- list_fmap_compose.
  rewrite (replicate_tab (M - n) (replicate M 0%Z)), app_tab.
  replace (n + (M - n)) with M by lia.
  apply tab_ext. intros i Hi. unfold padded. simpl.
  destruct (decide (i < n)).
  - rewrite (replicate_tab (M - n) 0%Z), app_tab.
    replace (n + (M - n)) with M by lia.
    apply tab_ext. intros j Hj. by destruct (decide (j < n)).
  - by rewrite (replicate_tab M 0%Z).
Qed.

Lemma crop_mk n M h : n ≤ M → Benchmark.crop n (mk M h) = mk n h.
Proof.
  intros Hle. unfold Benchmark.crop, mk. rewrite take_tab by done.
  rewrite <- list_fmap_compose. apply tab_ext. intros i Hi. simpl.
  by apply take_tab.
Qed.

Lemma fprod_padded n M f g i j :
  n ≤ M → i < n → j < n →
  fprod M (padded n f) (padded n g) i j = fprod n f g i j.
Proof.
  intros Hle Hi Hj. unfold fprod.
  replace M with (n + (M - n)) by lia. rewrite bigsum_split.
  rewrite (bigsum_zero (M - n)).
  - rewrite Z.add_0_r. apply bigsum_ext. intros k Hk. unfold padded.
    by rewrite !decide_True by lia.
  - intros k Hk. unfold padded.
    rewrite (decide_False (P := n + k < n)) by lia.
    destruct (decide (i < n)); lia.
Qed.

Lemma shape_assert_spec A B :
  A ≠ [] →
  Benchmark.shape_assert A B
  = if bool_decide (length B = length A ∧ first_row_len A = length A
                    ∧ first_row_len B = length A)
    then Ok () else Raise AssertionError.
Proof.
  intros HA. destruct A as [|a0 A]; [done|clear HA].
  unfold Benchmark.shape_assert, first_row_len.
  case_bool_decide as H1.
  { rewrite bool_decide_false; [done|]. intros (? & _). congruence. }
  destruct B as [|b0 B]; [done|].
  cbn [getitem lookup list_lookup default mbind result_bind].
  repeat case_bool_decide; try done; exfalso; simpl in *; lia.
Qed.

Lemma first_row_len_square n A : 0 < n → square n A → first_row_len A = n.
Proof.
  intros Hn HA. rewrite (square_eq_mk n A HA). unfold first_row_len.
  rewrite lookup_mk by done. simpl. by rewrite length_fmap, length_seq.
Qed.

Lemma shape_assert_square n A B :
  0 < n → square n A → square n B → Benchmark.shape_assert A B = Ok ().
Proof.
  intros Hn HA HB. rewrite shape_assert_spec.
  - rewrite bool_decide_true; [done|].
    rewrite (first_row_len_square n A), (first_row_len_square n B) by done.
    destruct HA as [-> _], HB as [HB _]. done.
  - destruct HA as [HA _]. intros ->. simpl in HA. lia.
Qed.

Lemma matrix_product_mk n f g :
  matrix_product (mk n f) (mk n g) = mk n (fprod n f g).
Proof.
  unfold matrix_product. rewrite length_mk. apply mk_ext. intros i j Hi Hj.
  apply bigsum_ext. intros k Hk. by rewrite !entry_mk.
Qed.

(** ** Lemmas: the entry points of [matrix_benchmark.py] *)

Lemma matmul_strassen_unfold fuel A B cutoff :
  Benchmark.matmul_strassen fuel A B cutoff
  = padded_entry (Benchmark._strassen_core fuel) A B cutoff.
Proof. done. Qed.

Lemma matmul_strassen_winograd_unfold fuel A B cutoff :
  Benchmark.matmul_strassen_winograd fuel A B cutoff
  = padded_entry (Benchmark._strassen_winograd_core fuel) A B cutoff.
Proof. done. Qed.

Lemma pow2_lt_inv a b : 2 ^ a < 2 ^ b → a < b.
Proof. apply Nat.pow_lt_mono_r_iff. lia. Qed.

(** On the padding branch: the padded order, the padded operands, the
    product the core returns for them, and the cropped result. *)
Lemma padded_branch core n fuel f g cutoff :
  core_ok core → (1 ≤ cutoff)%Z → 2 * n ≤ 2 ^ fuel →
  Z.land (Z.of_nat n) (Z.of_nat n - 1) ≠ 0%Z →
  ∃ k : nat,
    let m := Z.shiftl 1 (bit_length (Z.of_nat n - 1)) in
    m = Z.of_nat (2 ^ S k) ∧ 2 ^ k < n ≤ 2 ^ S k
    ∧ Benchmark.pad (Z.of_nat n) m (mk n f) = mk (2 ^ S k) (padded n f)
    ∧ Benchmark.pad (Z.of_nat n) m (mk n g) = mk (2 ^ S k) (padded n g)
    ∧ core fuel (mk (2 ^ S k) (padded n f)) (mk (2 ^ S k) (padded n g)) cutoff
      = Ok (mk (2 ^ S k) (fprod (2 ^ S k) (padded n f) (padded n g)))
    ∧ Benchmark.crop n (mk (2 ^ S k) (fprod (2 ^ S k) (padded n f) (padded n g)))
      = mk n (fprod n f g).
Proof.
  intros Hcore Hcut Hfuel Hland.
  assert (2 ≤ n) as Hn.
  { destruct n as [|[|n]]; [done..|lia]. }
  destruct (padded_order n Hn) as (k & Hm & Hlo & Hhi).
  exists k. cbv zeta. rewrite Hm. repeat split; [done..| | | |].
  - by apply pad_mk.
  - by apply pad_mk.
  - apply Hcore; [|done]. apply pow2_lt_inv.
    rewrite (pow2_S k). destruct fuel; simpl in *; lia.
  - rewrite crop_mk by done. apply mk_ext. intros i j Hi Hj.
    by apply fprod_padded.
Qed.

Lemma padded_entry_ok core n fuel A B cutoff :
  core_ok core → square n A → square n B →
  (1 ≤ cutoff)%Z → 2 * n ≤ 2 ^ fuel →
  padded_entry (core fuel) A B cutoff = Ok (matrix_product A B).
Proof.
  intros Hcore HA HB Hcut Hfuel.
  pose proof (shape_assert_square n A B) as Hshape.
  rewrite (square_eq_mk n A HA), (square_eq_mk n B HB) in Hshape |- *.
  rewrite matrix_product_mk. unfold padded_entry. rewrite length_mk.
  case_bool_decide as Hn0; [by subst n|].
  rewrite Hshape by (lia || apply square_mk). rewrite bind_Ok.
  case_bool_decide as Hland.
  - destruct (padded_branch core n fuel (entry A) (entry B) cutoff)
      as (k & Hm & _ & -> & -> & -> & <-); done.
  - destruct (land_pred_power_of_two n) as [k ->]; [lia|done|].
    apply Hcore; [|done]. apply pow2_lt_inv.
    pose proof (pow2_pos k). lia.
Qed.

Lemma benchmark_strassen_ok n fuel A B cutoff :
  square n A → square n B → (1 ≤ cutoff)%Z → 2 * n ≤ 2 ^ fuel →
  Benchmark.matmul_strassen fuel A B cutoff = Ok (matrix_product A B).
Proof.
  intros. rewrite matmul_strassen_unfold.
  by apply (padded_entry_ok _ n); [apply _strassen_core_ok|..].
Qed.

Lemma benchmark_winograd_ok n fuel A B cutoff :
  square n A → square n B → (1 ≤ cutoff)%Z → 2 * n ≤ 2 ^ fuel →
  Benchmark.matmul_strassen_winograd fuel A B cutoff = Ok (matrix_product A B).
Proof.
  intros. rewrite matmul_strassen_winograd_unfold.
  by apply (padded_entry_ok _ n); [apply _strassen_winograd_core_ok|..].
Qed.

(** ** Lemmas: the entry point of [answer.py] *)

Lemma answer_check_spec fuel A B cutoff :
  A ≠ [] →
  Answer.matmul_strassen fuel A B cutoff
  = if bool_decide (length B = length A ∧ first_row_len A = length A
                    ∧ first_row_len B = length A)
    then Answer.strassen_core fuel A B cutoff else Raise ValueError.
Proof.
  intros HA. destruct A as [|a0 A]; [done|clear HA].
  unfold Answer.matmul_strassen, first_row_len.
  rewrite bool_decide_false by done.
  case_bool_decide as H1.
  { rewrite bool_decide_false; [done|]. intros (? & _). congruence. }
  destruct B as [|b0 B]; [done|].
  cbn [getitem lookup list_lookup default mbind result_bind].
  repeat case_bool_decide; try done; exfalso; simpl in *; lia.
Qed.

Lemma answer_strassen_ok n fuel A B cutoff :
  square n A → square n B → 2 * n ≤ 2 ^ fuel →
  Answer.matmul_strassen fuel A B cutoff = Ok (matrix_product A B).
Proof.
  intros HA HB Hfuel. destruct (decide (n = 0)) as [->|Hn].
  { destruct HA as [HA _]. by destruct A. }
  rewrite answer_check_spec.
  - rewrite bool_decide_true.
    + rewrite (square_eq_mk n A HA), (square_eq_mk n B HB), matrix_product_mk.
      apply strassen_core_ok; lia.
    + rewrite (first_row_len_square n A), (first_row_len_square n B) by (done || lia).
      destruct HA as [-> _], HB as [HB _]. done.
  - destruct HA as [HA _]. intros ->. simpl in HA. lia.
Qed.

Lemma matmul_classic_square n A B :
  square n A → square n B → matmul_classic A B = Ok (matrix_product A B).
Proof.
  intros HA HB.
  rewrite (square_eq_mk n A HA), (square_eq_mk n B HB), matrix_product_mk.
  apply matmul_classic_mk.
Qed.

(** ** Lemmas: the classical product on operands of different orders *)

Lemma for_range_fail {St} (body : nat → St → result St) t n s s' e :
  t < n → for_range t body s = Ok s' → body t s' = Raise e →
  for_range n body s = Raise e.
Proof.
  intros Ht Hpre Hfail. unfold for_range in *.
  replace n with (t + S (n - S t)) by lia.
  rewrite seq_app, for_each_app, Hpre. simpl. by rewrite Hfail.
Qed.

Lemma matmul_classic_short n p A B :
  square n A → square p B → p < n → matmul_classic A B = Raise IndexError.
Proof.
  intros HA HB Hlt. pose proof HA as [Hlen _].
  rewrite (square_eq_mk n A HA), (square_eq_mk p B HB).
  unfold matmul_classic. rewrite length_mk.
  rewrite (replicate_tab n (replicate n 0%Z)), (replicate_tab n 0%Z).
  eapply (for_range_fail _ 0); [lia|done|].
  rewrite (getitem_Some _ _ _ (lookup_mk n _ 0 ltac:(lia))), bind_Ok.
  rewrite (getitem_Some _ _ _ (lookup_tab _ n 0 ltac:(lia))), bind_Ok.
  erewrite (for_range_fail _ 0); [done|lia|done|].
  rewrite (getitem_Some _ _ _ (lookup_tab _ n 0 ltac:(lia))), bind_Ok.
  destruct (decide (p = 0)) as [->|Hp]; [done|].
  rewrite (getitem_Some _ _ _ (lookup_mk p _ 0 ltac:(lia))), bind_Ok.
  eapply (for_range_fail _ p); [done| |].
  - apply (classic_loop_j_upto p n _ _ (entry B 0)); [lia|].
    intros j Hj. by apply lookup_tab.
  - rewrite (getitem_Some _ _ _ (lookup_tab _ n p ltac:(lia))), bind_Ok.
    rewrite getitem_None; [done|]. by rewrite length_fmap, length_seq.
Qed.

Lemma matmul_classic_long n p A B :
  square n A → square p B → n ≤ p →
  matmul_classic A B = Ok (mk n (fprod n (entry A) (entry B))).
Proof.
  intros HA HB Hle. apply matmul_classic_ok.
  - by destruct HA.
  - by apply has_entries_square.
  - apply (has_entries_le n p); [done|]. by apply has_entries_square.
Qed.

(** ** Lemmas: nothing below the entry points raises a shape error *)

Lemma nse_Ok {T} (x : T) : no_shape_error (Ok x).
Proof. done. Qed.

Lemma nse_getitem {T} (l : list T) i : no_shape_error (getitem l i).
Proof. unfold getitem. by destruct (l !! i). Qed.

Lemma nse_bind {T U} (m : result T) (k : T → result U) :
  no_shape_error m → (∀ x, no_shape_error (k x)) → no_shape_error (m ≫= k).
Proof. intros Hm Hk. destruct m as [x|e]; [apply Hk|]. by destruct e, Hm. Qed.

Lemma nse_for_each {St} (body : nat → St → result St) l s :
  (∀ i s, no_shape_error (body i s)) → no_shape_error (for_each body l s).
Proof.
  intros Hbody. revert s. induction l as [|i l IH]; intros s; simpl; [done|].
  by apply nse_bind.
Qed.

Lemma nse_mapM {T U} (f : T → result U) l :
  (∀ x, no_shape_error (f x)) → no_shape_error (mapM f l).
Proof.
  intros Hf. induction l as [|x l IH]; simpl; [done|].
  apply nse_bind; [done|]. intros y. apply nse_bind; [done|]. done.
Qed.

Ltac nse_step :=
  first
    [ apply nse_Ok
    | apply nse_getitem
    | apply nse_for_each; intros
    | apply nse_mapM; intros
    | apply nse_bind; [|intros] ].

Lemma nse_matmul_classic A B : no_shape_error (matmul_classic A B).
Proof. unfold matmul_classic, for_range. repeat nse_step. Qed.

Lemma nse_elementwise op A B : no_shape_error (elementwise op A B).
Proof. unfold elementwise. repeat nse_step. Qed.

Lemma nse_glue m c11 c12 c21 c22 : no_shape_error (glue m c11 c12 c21 c22).
Proof. unfold glue, glue_rows. repeat nse_step. Qed.

Ltac nse_block Hrec :=
  repeat first
    [ apply Hrec
    | apply nse_elementwise
    | apply nse_glue
    | apply nse_bind; [|intros] ].

Lemma nse_strassen_step rec A B :
  (∀ X Y, no_shape_error (rec X Y)) → no_shape_error (strassen_step rec A B).
Proof.
  intros Hrec. unfold strassen_step, add_matrix, sub_matrix. nse_block Hrec.
Qed.

Lemma nse_winograd_step rec A B :
  (∀ X Y, no_shape_error (rec X Y)) →
  no_shape_error (Benchmark.winograd_step rec A B).
Proof.
  intros Hrec. unfold Benchmark.winograd_step, add_matrix, sub_matrix.
  nse_block Hrec.
Qed.

Lemma nse__strassen_core fuel A B cutoff :
  no_shape_error (Benchmark._strassen_core fuel A B cutoff).
Proof.
  revert A B. induction fuel as [|fuel IH]; intros A B; [done|].
  rewrite _strassen_core_S. case_bool_decide.
  - apply nse_matmul_classic.
  - by apply nse_strassen_step.
Qed.

Lemma nse__strassen_winograd_core fuel A B cutoff :
  no_shape_error (Benchmark._strassen_winograd_core fuel A B cutoff).
Proof.
  revert A B. induction fuel as [|fuel IH]; intros A B; [done|].
  rewrite _strassen_winograd_core_S. case_bool_decide.
  - apply nse_matmul_classic.
  - by apply nse_winograd_step.
Qed.

Lemma nse_strassen_core fuel A B cutoff :
  no_shape_error (Answer.strassen_core fuel A B cutoff).
Proof.
  revert A B. induction fuel as [|fuel IH]; intros A B; [done|].
  rewrite strassen_core_S. repeat case_bool_decide.
  - apply nse_matmul_classic.
  - apply nse_matmul_classic.
  - by apply nse_strassen_step.
Qed.

Lemma nse_padded_entry core A B cutoff :
  (∀ X Y, no_shape_error (core X Y cutoff)) →
  A ≠ [] → length B = length A → first_row_len A = length A →
  first_row_len B = length A →
  no_shape_error (padded_entry core A B cutoff).
Proof.
  intros Hcore HA H1 H2 H3. unfold padded_entry.
  case_bool_decide; [done|]. rewrite shape_assert_spec by done.
  rewrite (bool_decide_true (length B = length A ∧ _)) by done.
  rewrite bind_Ok.
  case_bool_decide; [|done]. apply nse_bind; [done|]. done.
Qed.

Lemma entry_mk_full n f i j :
  entry (mk n f) i j = if decide (i < n ∧ j < n) then f i j else 0%Z.
Proof.
  case_decide as H; [by apply entry_mk; destruct H|].
  unfold entry. destruct (decide (i < n)) as [Hi|Hi].
  - rewrite lookup_mk by done. simpl.
    rewrite lookup_ge_None_2; [done|]. rewrite length_fmap, length_seq. lia.
  - rewrite lookup_ge_None_2; [done|]. rewrite length_mk. lia.
Qed.

Lemma entry_mk_padded n M f i j :
  n ≤ M → entry (mk M (padded n f)) i j = padded n f i j.
Proof.
  intros Hle. rewrite entry_mk_full. case_decide as H; [done|].
  unfold padded. repeat case_decide; done || lia.
Qed.

Lemma padded_entry_of_mk n f i j :
  padded n (entry (mk n f)) i j = padded n f i j.
Proof. unfold padded. repeat case_decide; try done. by apply entry_mk. Qed.

(** ** Lemmas: the concrete inputs *)

Ltac solve_square := split; [reflexivity | repeat constructor].

Lemma three_not_power_of_two : ¬ power_of_two 3.
Proof.
  intros [k Hk]. destruct k as [|[|k]]; [done..|].
  rewrite !pow2_S in Hk. pose proof (pow2_pos k). lia.
Qed.

Lemma ragged_not_square : ¬ square 2 ex_ragged.
Proof.
  intros [_ H]. by apply (Forall_lookup_1 _ _ 1 [3; 4; 5]%Z) in H.
Qed.

(** ** Lemmas: the store only grows *)

Module StoreFacts.
Import Store.

Lemma hbind_eq {A B} (m : hm A) (k : A → hm B) h :
  (m ≫= k) h = match m h with
               | (Ok x, h') => k x h'
               | (Raise e, h') => (Raise e, h')
               end.
Proof. done. Qed.

Lemma readonly_ext {A} (m : hm A) : readonly m → ext m.
Proof. intros H h. by rewrite H. Qed.

Lemma readonly_hret {A} (x : A) : readonly (hret x).
Proof. done. Qed.

Lemma readonly_hraise {A} e : readonly (@hraise A e).
Proof. done. Qed.

Lemma readonly_lift {A} (r : result A) : readonly (lift r).
Proof. done. Qed.

Lemma readonly_ints l : readonly (ints l).
Proof. intros h. unfold ints. by destruct (h !! l) as [[]|]. Qed.

Lemma readonly_refs l : readonly (refs l).
Proof. intros h. unfold refs. by destruct (h !! l) as [[]|]. Qed.

Lemma readonly_len l : readonly (len l).
Proof. intros h. unfold len. by destruct (h !! l) as [[]|]. Qed.

Lemma readonly_bind {A B} (m : hm A) (k : A → hm B) :
  readonly m → (∀ x, readonly (k x)) → readonly (m ≫= k).
Proof.
  intros Hm Hk h. rewrite hbind_eq. specialize (Hm h).
  destruct (m h) as [[x|e] h1]; simpl in *; subst; [apply Hk|done].
Qed.

Lemma readonly_get_row l i : readonly (get_row l i).
Proof. apply readonly_bind; [apply readonly_refs|intros; apply readonly_lift]. Qed.

Lemma readonly_get_int l i : readonly (get_int l i).
Proof. apply readonly_bind; [apply readonly_ints|intros; apply readonly_lift]. Qed.

Lemma fresh_lookup (h : heap) : h !! fresh (dom h) = None.
Proof. apply not_elem_of_dom, is_fresh. Qed.

Lemma ext_new o : ext (new o).
Proof. intros h. apply insert_subseteq, fresh_lookup. Qed.

Lemma ext_bind {A B} (m : hm A) (k : A → hm B) :
  ext m → (∀ x, ext (k x)) → ext (m ≫= k).
Proof.
  intros Hm Hk h. rewrite hbind_eq. specialize (Hm h).
  destruct (m h) as [[x|e] h1]; simpl in *; [|done].
  etrans; [done|apply Hk].
Qed.

Lemma ext_ret {A} (x : A) : ext (mret x : hm A).
Proof. intros h. reflexivity. Qed.

Lemma ext_mapM {A B} (f : A → hm B) l : (∀ x, ext (f x)) → ext (mapM f l).
Proof.
  intros Hf. induction l as [|x l IH]; [apply ext_ret|]. simpl.
  apply ext_bind; [done|]. intros y. apply ext_bind; [done|].
  intros ys. apply ext_ret.
Qed.

Lemma ext_hiter body l : (∀ i, ext (body i)) → ext (hiter body l).
Proof.
  intros Hb. induction l as [|i l IH]; [apply (ext_ret ())|]. simpl.
  by apply ext_bind.
Qed.

Lemma fresh1_ext m : fresh1 m → ext m.
Proof. by intros [? _]. Qed.

Lemma fresh_mat_ext m : fresh_mat m → ext m.
Proof. by intros [? _]. Qed.

Lemma fresh_mat_fresh1 m : fresh_mat m → fresh1 m.
Proof. intros [He H]. split; [done|]. intros h l Hl. by apply H. Qed.

Lemma fresh1_new o : fresh1 (new o).
Proof. split; [apply ext_new|]. intros h l [= <-]. apply fresh_lookup. Qed.

Lemma lookup_None_weaken (h h' : heap) l : h ⊆ h' → h' !! l = None → h !! l = None.
Proof.
  intros Hsub Hl. destruct (h !! l) as [o|] eqn:E; [|done].
  by rewrite (lookup_weaken _ _ _ _ E Hsub) in Hl.
Qed.

Lemma fresh1_bind {A} (m : hm A) (k : A → hm loc) :
  ext m → (∀ x, fresh1 (k x)) → fresh1 (m ≫= k).
Proof.
  intros Hm Hk. split.
  { apply ext_bind; [done|]. intros x. apply Hk. }
  intros h l. rewrite hbind_eq. specialize (Hm h).
  destruct (m h) as [[x|e] h1]; simpl in *; [|done].
  intros Hl. apply (lookup_None_weaken h h1); [done|].
  destruct (Hk x) as [_ H]. by apply H.
Qed.

Lemma freshN_mapM {A} (f : A → hm loc) l :
  (∀ x, fresh1 (f x)) → freshN (mapM f l).
Proof.
  intros Hf. split; [apply ext_mapM; intros; apply Hf|].
  induction l as [|x l IH]; intros h ls; simpl.
  { intros [= <-]. constructor. }
  rewrite hbind_eq. destruct (Hf x) as [He Hfr].
  specialize (He h). specialize (Hfr h).
  destruct (f x h) as [[y|e] h1]; simpl in *; [|done].
  rewrite hbind_eq. specialize (IH h1).
  destruct (mapM f l h1) as [[ys|e] h2]; simpl in *; [|done].
  intros [= <-]. constructor; [by apply Hfr|].
  eapply Forall_impl; [by apply IH|]. intros l'. by apply lookup_None_weaken.
Qed.

Lemma fresh_mat_list_of {A} (f : A → hm loc) l :
  (∀ x, fresh1 (f x)) → fresh_mat (list_of f l).
Proof.
  intros Hf. destruct (freshN_mapM f l Hf) as [He Hfr]. split.
  { apply ext_bind; [done|]. intros. apply ext_new. }
  intros h c. unfold list_of. rewrite hbind_eq.
  specialize (He h). specialize (Hfr h).
  destruct (mapM f l h) as [[rows|e] h1]; simpl in *; [|done].
  intros [= <-]. split.
  - apply (lookup_None_weaken h h1); [done|apply fresh_lookup].
  - exists rows. split; [apply lookup_insert_eq|by apply Hfr].
Qed.

Lemma fresh_matrix_weaken h h1 h' c :
  h ⊆ h1 → fresh_matrix h1 h' c → fresh_matrix h h' c.
Proof.
  intros Hsub (Hc & rows & Hrows & Hfr). split.
  - by apply (lookup_None_weaken h h1).
  - exists rows. split; [done|].
    eapply Forall_impl; [done|]. intros l'. by apply lookup_None_weaken.
Qed.

Lemma fresh_mat_bind {A} (m : hm A) (k : A → hm loc) :
  ext m → (∀ x, fresh_mat (k x)) → fresh_mat (m ≫= k).
Proof.
  intros Hm Hk. split.
  { apply ext_bind; [done|]. intros x. apply Hk. }
  intros h c. rewrite hbind_eq. specialize (Hm h).
  destruct (m h) as [[x|e] h1]; simpl in *; [|done].
  intros Hc. apply (fresh_matrix_weaken h h1); [done|].
  destruct (Hk x) as [_ H]. by apply H.
Qed.

Lemma fresh_mat_new_empty : fresh_mat (new (OMat [])).
Proof.
  split; [apply ext_new|]. intros h c [= <-]. split; [apply fresh_lookup|].
  exists []. split; [apply lookup_insert_eq|constructor].
Qed.

(** Concatenating two new lists of new rows gives a new list of new rows. *)
Lemma fresh_mat_concat_rows (m1 m2 : hm loc) :
  fresh_mat m1 → fresh_mat m2 →
  fresh_mat (top ← m1; bot ← m2; concat_rows top bot).
Proof.
  intros [He1 H1] [He2 H2].
  assert (∀ x y, ext (concat_rows x y)) as Hcat.
  { intros x y. apply ext_bind; [apply readonly_ext, readonly_refs|].
    intros xs. apply ext_bind; [apply readonly_ext, readonly_refs|].
    intros ys. apply ext_new. }
  split.
  { apply ext_bind; [done|]. intros x. apply ext_bind; [done|]. done. }
  intros h c. rewrite hbind_eq. specialize (He1 h). specialize (H1 h).
  destruct (m1 h) as [[top|e] h1]; simpl in *; [|done].
  rewrite hbind_eq. specialize (He2 h1). specialize (H2 h1).
  destruct (m2 h1) as [[bot|e] h2]; simpl in *; [|done].
  destruct (H1 top eq_refl) as (Htop & rt & Hrt & Hft).
  destruct (H2 bot eq_refl) as (Hbot & rb & Hrb & Hfb).
  unfold concat_rows, refs, new. rewrite !hbind_eq.
  rewrite (lookup_weaken _ _ _ _ Hrt He2). rewrite hbind_eq, Hrb.
  intros [= <-]. split.
  - apply (lookup_None_weaken h h2); [by etrans|apply fresh_lookup].
  - exists (rt ++ rb). split; [apply lookup_insert_eq|].
    apply Forall_app. split; [done|].
    eapply Forall_impl; [done|]. intros l'. by apply lookup_None_weaken.
Qed.

Lemma fresh1_zeros k : fresh1 (zeros k).
Proof. apply fresh1_bind; [apply ext_new|]. intros. apply fresh1_new. Qed.

Lemma fresh_mat_elementwise op a b : fresh_mat (elementwise op a b).
Proof.
  apply fresh_mat_bind; [apply readonly_ext, readonly_len|]. intros n.
  apply fresh_mat_list_of. intros i.
  apply fresh1_bind; [|intros; apply fresh1_new].
  apply ext_mapM. intros j. apply readonly_ext.
  repeat first
    [ apply readonly_get_row | apply readonly_get_int | apply readonly_hret
    | apply readonly_bind; [|intros] ].
Qed.

Lemma fresh1_slice_ints cut m r : fresh1 (slice_ints cut m r).
Proof.
  apply fresh1_bind; [apply readonly_ext, readonly_ints|].
  intros. apply fresh1_new.
Qed.

Lemma fresh_mat_quadrant cut_rows cut_ints m a :
  fresh_mat (quadrant cut_rows cut_ints m a).
Proof.
  apply fresh_mat_bind.
  { apply ext_bind; [apply readonly_ext, readonly_refs|]. intros. apply ext_new. }
  intros t. apply fresh_mat_bind; [apply readonly_ext, readonly_refs|].
  intros rows. apply fresh_mat_list_of. intros r. apply fresh1_slice_ints.
Qed.

Lemma fresh1_concat_ints x y : fresh1 (concat_ints x y).
Proof.
  apply fresh1_bind; [apply readonly_ext, readonly_ints|]. intros xs.
  apply fresh1_bind; [apply readonly_ext, readonly_ints|]. intros ys.
  apply fresh1_new.
Qed.

Lemma fresh_mat_glue_rows m l r : fresh_mat (glue_rows m l r).
Proof.
  apply fresh_mat_list_of. intros i.
  apply fresh1_bind; [apply readonly_ext, readonly_get_row|]. intros li.
  apply fresh1_bind; [apply readonly_ext, readonly_get_row|]. intros ri.
  apply fresh1_concat_ints.
Qed.

Lemma fresh_mat_glue m c11 c12 c21 c22 : fresh_mat (glue m c11 c12 c21 c22).
Proof. apply fresh_mat_concat_rows; apply fresh_mat_glue_rows. Qed.

Lemma fresh_mat_pad n m a : fresh_mat (Benchmark.pad n m a).
Proof.
  apply fresh_mat_bind; [apply readonly_ext, readonly_refs|]. intros rows.
  apply fresh_mat_concat_rows; apply fresh_mat_list_of.
  - intros row. apply fresh1_bind; [apply fresh1_ext, fresh1_zeros|].
    intros z. apply fresh1_concat_ints.
  - intros _. apply fresh1_zeros.
Qed.

(** *** The accumulator of [matmul_classic] *)

Lemma keeps_readonly {A} I (m : hm A) : readonly m → keeps I m (λ _, True).
Proof. intros Hm h HI. by rewrite Hm. Qed.

Lemma keeps_bind {A B} I (m : hm A) (k : A → hm B) Q R :
  keeps I m Q → (∀ x, Q x → keeps I (k x) R) → keeps I (m ≫= k) R.
Proof.
  intros Hm Hk h HI. rewrite hbind_eq. destruct (Hm h HI) as [HI1 HQ].
  destruct (m h) as [[x|e] h1]; simpl in *; [|done].
  by apply Hk; [apply HQ|].
Qed.

Lemma keeps_hiter I body l :
  (∀ i, keeps I (body i) (λ _, True)) → keeps I (hiter body l) (λ _, True).
Proof.
  intros Hb. induction l as [|i l IH]; [by intros h HI|]. simpl.
  eapply keeps_bind; [apply Hb|]. intros _ _. apply IH.
Qed.

Lemma keeps_get_acc_row h0 c rows i :
  keeps (acc_inv h0 c rows) (get_row c i) (λ Ci, Ci ∈ rows).
Proof.
  intros h [Hsub Hc]. rewrite readonly_get_row. split; [done|].
  intros Ci. unfold get_row, refs. rewrite hbind_eq, Hc. unfold lift, getitem.
  destruct (rows !! i) as [r|] eqn:E; [|done]. intros [= <-].
  by eapply list_elem_of_lookup_2.
Qed.

Lemma keeps_set_int h0 c rows Ci j v :
  Forall (λ l, h0 !! l = None) rows → Ci ∈ rows →
  keeps (acc_inv h0 c rows) (set_int Ci j v) (λ _, True).
Proof.
  intros Hfresh HCi h [Hsub Hc]. split; [|done]. unfold set_int.
  destruct (h !! Ci) as [[items|items]|] eqn:E; [|done..].
  case_decide; [|done]. simpl. split.
  - apply insert_subseteq_r; [|done].
    rewrite Forall_forall in Hfresh. by apply Hfresh.
  - rewrite lookup_insert_ne; [done|]. intros ->. congruence.
Qed.

Lemma keeps_classic_loops h0 a b c rows n :
  Forall (λ l, h0 !! l = None) rows →
  keeps (acc_inv h0 c rows)
    (hfor n (λ i,
      rowA ← get_row a i;
      Ci ← get_row c i;
      hfor n (λ k,
        aik ← get_int rowA k;
        Bk ← get_row b k;
        hfor n (λ j,
          cij ← get_int Ci j;
          bkj ← get_int Bk j;
          set_int Ci j (cij + aik * bkj)%Z))))
    (λ _, True).
Proof.
  intros Hfresh. apply keeps_hiter. intros i.
  eapply keeps_bind; [apply keeps_readonly, readonly_get_row|]. intros rowA _.
  eapply keeps_bind; [apply keeps_get_acc_row|]. intros Ci HCi.
  apply keeps_hiter. intros k.
  eapply keeps_bind; [apply keeps_readonly, readonly_get_int|]. intros aik _.
  eapply keeps_bind; [apply keeps_readonly, readonly_get_row|]. intros Bk _.
  apply keeps_hiter. intros j.
  eapply keeps_bind; [apply keeps_readonly, readonly_get_int|]. intros cij _.
  eapply keeps_bind; [apply keeps_readonly, readonly_get_int|]. intros bkj _.
  by apply keeps_set_int.
Qed.

Lemma fresh_mat_matmul_classic a b : fresh_mat (matmul_classic a b).
Proof.
  assert (∀ h, h ⊆ (matmul_classic a b h).2
               ∧ ∀ c, (matmul_classic a b h).1 = Ok c
                      → fresh_matrix h (matmul_classic a b h).2 c) as H.
  { intros h. unfold matmul_classic. rewrite hbind_eq.
    pose proof (readonly_len a h) as Hlen.
    destruct (len a h) as [[n|e] h']; simpl in Hlen; subst h'; [|done].
    rewrite hbind_eq.
    destruct (fresh_mat_list_of (λ _ : nat, zeros (Z.of_nat n)) (seq 0 n))
      as [He Hfr]; [intros; apply fresh1_zeros|].
    specialize (He h). specialize (Hfr h).
    destruct (list_of _ _ h) as [[c|e] h1]; simpl in He, Hfr; [|done].
    destruct (Hfr c eq_refl) as (Hc & rows & Hrows & Hfresh).
    rewrite hbind_eq.
    destruct (keeps_classic_loops h a b c rows n Hfresh h1) as [[Hsub Hc2] _];
      [done|].
    destruct (hfor n _ h1) as [[[]|e] h2]; simpl in *; [|done].
    split; [done|]. intros c' [= <-]. split; [done|]. by exists rows. }
  split; intros h; apply H.
Qed.

(** *** The recursive cores and the entry points *)

Ltac fresh_mat_block Hrec :=
  repeat first
    [ apply fresh_mat_glue
    | apply fresh_mat_ext, Hrec
    | apply fresh_mat_ext, fresh_mat_elementwise
    | apply fresh_mat_ext, fresh_mat_quadrant
    | apply readonly_ext, readonly_len
    | apply ext_bind; [|intros]
    | apply fresh_mat_bind; [|intros] ].

Lemma fresh_mat_strassen_step rec a b :
  (∀ x y, fresh_mat (rec x y)) → fresh_mat (strassen_step rec a b).
Proof.
  intros Hrec. unfold strassen_step. fresh_mat_block Hrec.
Qed.

Lemma fresh_mat_winograd_step rec a b :
  (∀ x y, fresh_mat (rec x y)) → fresh_mat (Benchmark.winograd_step rec a b).
Proof.
  intros Hrec. unfold Benchmark.winograd_step. fresh_mat_block Hrec.
Qed.

Lemma fresh_mat_raise e : fresh_mat (hraise e).
Proof. split; [apply readonly_ext, readonly_hraise|done]. Qed.

Lemma fresh_mat__strassen_core fuel a b cutoff :
  fresh_mat (Benchmark._strassen_core fuel a b cutoff).
Proof.
  revert a b. induction fuel as [|fuel IH]; intros a b; simpl.
  { apply fresh_mat_raise. }
  apply fresh_mat_bind; [apply readonly_ext, readonly_len|]. intros n.
  case_bool_decide; [apply fresh_mat_matmul_classic|].
  by apply fresh_mat_strassen_step.
Qed.

Lemma fresh_mat__strassen_winograd_core fuel a b cutoff :
  fresh_mat (Benchmark._strassen_winograd_core fuel a b cutoff).
Proof.
  revert a b. induction fuel as [|fuel IH]; intros a b; simpl.
  { apply fresh_mat_raise. }
  apply fresh_mat_bind; [apply readonly_ext, readonly_len|]. intros n.
  case_bool_decide; [apply fresh_mat_matmul_classic|].
  by apply fresh_mat_winograd_step.
Qed.

Lemma fresh_mat_strassen_core fuel a b cutoff :
  fresh_mat (Answer.strassen_core fuel a b cutoff).
Proof.
  revert a b. induction fuel as [|fuel IH]; intros a b; simpl.
  { apply fresh_mat_raise. }
  apply fresh_mat_bind; [apply readonly_ext, readonly_len|]. intros n.
  repeat case_bool_decide; try apply fresh_mat_matmul_classic.
  by apply fresh_mat_strassen_step.
Qed.

Lemma readonly_shape_assert a b : readonly (Benchmark.shape_assert a b).
Proof.
  unfold Benchmark.shape_assert.
  repeat first
    [ apply readonly_len | apply readonly_get_row | apply readonly_hret
    | apply readonly_hraise
    | apply readonly_bind; [|intros]
    | case_bool_decide ].
Qed.

Lemma fresh_mat_padded_call core a b cutoff :
  (∀ x y, fresh_mat (core x y cutoff)) →
  fresh_mat (padded_call core a b cutoff).
Proof.
  intros Hcore. unfold padded_call.
  apply fresh_mat_bind; [apply readonly_ext, readonly_len|]. intros n.
  case_bool_decide; [apply fresh_mat_new_empty|].
  apply fresh_mat_bind; [apply readonly_ext, readonly_shape_assert|]. intros _.
  case_bool_decide; [|done].
  apply fresh_mat_bind; [apply fresh_mat_ext, fresh_mat_pad|]. intros Ap.
  apply fresh_mat_bind; [apply fresh_mat_ext, fresh_mat_pad|]. intros Bp.
  apply fresh_mat_bind; [apply fresh_mat_ext, Hcore|]. intros Cp.
  apply fresh_mat_quadrant.
Qed.

Lemma fresh_mat_answer_matmul_strassen fuel a b cutoff :
  fresh_mat (Answer.matmul_strassen fuel a b cutoff).
Proof.
  unfold Answer.matmul_strassen.
  apply fresh_mat_bind; [apply readonly_ext, readonly_len|]. intros n.
  case_bool_decide; [apply fresh_mat_new_empty|].
  apply fresh_mat_bind; [apply readonly_ext, readonly_len|]. intros lb.
  case_bool_decide; [apply fresh_mat_raise|].
  apply fresh_mat_bind; [apply readonly_ext, readonly_get_row|]. intros A0.
  apply fresh_mat_bind; [apply readonly_ext, readonly_len|]. intros la0.
  case_bool_decide; [apply fresh_mat_raise|].
  apply fresh_mat_bind; [apply readonly_ext, readonly_get_row|]. intros B0.
  apply fresh_mat_bind; [apply readonly_ext, readonly_len|]. intros lb0.
  case_bool_decide; [apply fresh_mat_raise|].
  apply fresh_mat_strassen_core.
Qed.

Lemma matrix_at_weaken h h' x M :
  h ⊆ h' → matrix_at h x = Some M → matrix_at h' x = Some M.
Proof.
  intros Hsub. unfold matrix_at.
  destruct (h !! x) as [[items|rows]|] eqn:E; [done| |done].
  rewrite (lookup_weaken _ _ _ _ E Hsub). intros HM. rewrite <- HM.
  apply Forall_mapM_ext. apply mapM_Some_1 in HM.
  apply Forall_lookup_2. intros i r Hi.
  destruct (Forall2_lookup_l _ _ _ _ _ HM Hi) as (row & _ & Hrow).
  unfold row_at in *.
  destruct (h !! r) as [o|] eqn:Er; [|done].
  by rewrite (lookup_weaken _ _ _ _ Er Hsub).
Qed.

Lemma matmul_strassen_padded_call fuel a b cutoff :
  Benchmark.matmul_strassen fuel a b cutoff
  = padded_call (Benchmark._strassen_core fuel) a b cutoff.
Proof. done. Qed.

Lemma matmul_strassen_winograd_padded_call fuel a b cutoff :
  Benchmark.matmul_strassen_winograd fuel a b cutoff
  = padded_call (Benchmark._strassen_winograd_core fuel) a b cutoff.
Proof. done. Qed.

Lemma fresh_mat_pure_call m : fresh_mat m → pure_call m.
Proof.
  intros [He Hfr] h. split; [apply He|]. split; [|apply Hfr].
  intros x M. apply matrix_at_weaken, He.
Qed.

End StoreFacts.

(** ** Lemmas: the store model refines the value model *)

Module StoreRefine.

Lemma rep_row_weaken : stable rep_row.
Proof. intros h h' r row Hsub Hr. by apply (lookup_weaken h h'). Qed.

Lemma rep_rows_weaken : stable rep_rows.
Proof.
  intros h h' rs rows Hsub H. eapply Forall2_impl; [done|]. intros r row.
  by apply rep_row_weaken.
Qed.

Lemma rep_weaken : stable rep.
Proof.
  intros h h' a A Hsub (rs & Ha & Hrs). exists rs. split.
  - by apply (lookup_weaken h h').
  - by apply (rep_rows_weaken h h').
Qed.

Lemma same_stable {X} : stable (@same X).
Proof. by intros h h' x y _. Qed.

Lemma rep_rows_mapM h rs rows :
  rep_rows h rs rows ↔ mapM (Store.row_at h) rs = Some rows.
Proof.
  rewrite mapM_Some. unfold rep_rows, rep_row.
  split; intros H; (eapply Forall2_impl; [done|]).
  - intros r row Hr. unfold Store.row_at. by rewrite Hr.
  - intros r row. unfold Store.row_at.
    by destruct (h !! r) as [[]|]; intros [= ->].
Qed.

Lemma rep_matrix_at h a A : rep h a A ↔ Store.matrix_at h a = Some A.
Proof.
  unfold rep, Store.matrix_at. split.
  - intros (rs & -> & Hrs). by apply rep_rows_mapM.
  - destruct (h !! a) as [[|rs]|]; [done| |done].
    intros H. exists rs. split; [done|]. by apply rep_rows_mapM.
Qed.

(** *** Rules *)

Lemma sim_bind {X Y X' Y'} (R : Store.heap → X → Y → Prop)
    (S : Store.heap → X' → Y' → Prop) h (m : Store.hm X)
    (k : X → Store.hm X') (p : result Y) (q : Y → result Y') :
  sim R h m p →
  (∀ h1 x y, h ⊆ h1 → R h1 x y → sim S h1 (k x) (q y)) →
  sim S h (m ≫= k) (p ≫= q).
Proof.
  intros [Hsub Hm] Hk. unfold sim. rewrite StoreFacts.hbind_eq.
  destruct p as [y|e].
  - destruct Hm as (x & Hx & HR).
    destruct (m h) as [r h1]. simpl in *. subst r.
    destruct (Hk h1 x y Hsub HR) as [Hsub2 Hq]. split; [by etrans|done].
  - destruct (m h) as [r h1]. simpl in *. by subst r.
Qed.

(** The store side takes a step where the value side has the value. *)
Lemma sim_bind_l {X Y X' Y'} (R : Store.heap → X → Y → Prop)
    (S : Store.heap → X' → Y' → Prop) h (m : Store.hm X)
    (k : X → Store.hm X') (y : Y) (p : result Y') :
  sim R h m (Ok y) →
  (∀ h1 x, h ⊆ h1 → R h1 x y → sim S h1 (k x) p) →
  sim S h (m ≫= k) p.
Proof.
  intros [Hsub (x & Hx & HR)] Hk. unfold sim. rewrite StoreFacts.hbind_eq.
  destruct (m h) as [r h1]. simpl in *. subst r.
  destruct (Hk h1 x Hsub HR) as [Hsub2 Hq]. split; [by etrans|done].
Qed.

(** The store side goes on where the value side is done. *)
Lemma sim_bind_r {X Y X'} (R : Store.heap → X → Y → Prop)
    (S : Store.heap → X' → Y → Prop) h (m : Store.hm X)
    (k : X → Store.hm X') (p : result Y) :
  sim R h m p →
  (∀ h1 x y, h ⊆ h1 → R h1 x y → sim S h1 (k x) (Ok y)) →
  sim S h (m ≫= k) p.
Proof.
  intros Hm Hk. replace p with (p ≫= Ok) by (by destruct p).
  by eapply sim_bind.
Qed.

Lemma sim_ret {X Y} (R : Store.heap → X → Y → Prop) h x y :
  R h x y → sim R h (Store.hret x) (Ok y).
Proof. intros HR. split; [done|]. by exists x. Qed.

Lemma sim_raise {X Y} (R : Store.heap → X → Y → Prop) h e :
  sim R h (Store.hraise e) (Raise e).
Proof. by split. Qed.

Lemma sim_post {X Y} (R S : Store.heap → X → Y → Prop) h m p :
  sim R h m p → (∀ h' x y, R h' x y → S h' x y) → sim S h m p.
Proof.
  intros [Hsub Hm] HRS. split; [done|]. destruct p as [y|e]; [|done].
  destruct Hm as (x & Hx & HR). exists x. split; [done|]. by apply HRS.
Qed.

Lemma sim_new_row h row :
  sim rep_row h (Store.new (Store.ORow row)) (Ok row).
Proof.
  split; [apply StoreFacts.ext_new|]. eexists. split; [done|].
  apply lookup_insert_eq.
Qed.

Lemma sim_new_mat h rs rows :
  rep_rows h rs rows → sim rep h (Store.new (Store.OMat rs)) (Ok rows).
Proof.
  intros Hrs. split; [apply StoreFacts.ext_new|]. eexists. split; [done|].
  exists rs. split; [apply lookup_insert_eq|].
  eapply rep_rows_weaken; [|done]. apply (StoreFacts.ext_new _ h).
Qed.

Lemma sim_len h a A : rep h a A → sim same h (Store.len a) (Ok (length A)).
Proof.
  intros (rs & Ha & Hrs). unfold sim, Store.len. rewrite Ha. simpl.
  split; [done|]. eexists. split; [done|]. by eapply Forall2_length.
Qed.

Lemma sim_len_row h r row :
  rep_row h r row → sim same h (Store.len r) (Ok (length row)).
Proof.
  intros Hr. unfold rep_row in Hr. unfold sim, Store.len. rewrite Hr. simpl.
  split; [done|]. by eexists.
Qed.

Lemma sim_refs h a A : rep h a A → sim rep_rows h (Store.refs a) (Ok A).
Proof.
  intros (rs & Ha & Hrs). unfold sim, Store.refs. rewrite Ha. simpl.
  split; [done|]. by exists rs.
Qed.

Lemma sim_ints h r row : rep_row h r row → sim same h (Store.ints r) (Ok row).
Proof.
  intros Hr. unfold rep_row in Hr. unfold sim, Store.ints. rewrite Hr. simpl.
  split; [done|]. by eexists.
Qed.

Lemma sim_getitem_rows h rs rows i :
  rep_rows h rs rows →
  sim rep_row h (Store.lift (getitem rs i)) (getitem rows i).
Proof.
  intros Hrs. split; [done|]. unfold Store.lift, getitem. simpl.
  destruct (rows !! i) as [row|] eqn:E.
  - destruct (Forall2_lookup_r _ _ _ _ _ Hrs E) as (r & -> & Hr). by exists r.
  - apply (Forall2_length) in Hrs as Hlen.
    rewrite lookup_ge_None_2; [done|]. apply lookup_ge_None_1 in E. lia.
Qed.

Lemma sim_get_row h a A i :
  rep h a A → sim rep_row h (Store.get_row a i) (getitem A i).
Proof.
  intros Ha. unfold Store.get_row.
  eapply sim_bind_l; [by apply sim_refs|]. intros h1 rs _ Hrs.
  by apply sim_getitem_rows.
Qed.

Lemma sim_get_int h r row j :
  rep_row h r row → sim same h (Store.get_int r j) (getitem row j).
Proof.
  intros Hr. unfold Store.get_int.
  eapply sim_bind_l; [by apply sim_ints|]. intros h1 items _ ->.
  split; [done|]. unfold Store.lift. simpl. destruct (getitem row j); [|done].
  by eexists.
Qed.

Lemma sim_mapM2 {T T' X Y} (Q : Store.heap → T → T' → Prop)
    (R : Store.heap → X → Y → Prop) h
    (f : T → Store.hm X) (g : T' → result Y) l l' :
  stable Q → stable R →
  Forall2 (Q h) l l' →
  (∀ x x' h1, h ⊆ h1 → Q h1 x x' → sim R h1 (f x) (g x')) →
  sim (λ h' xs ys, Forall2 (R h') xs ys) h (mapM f l) (mapM g l').
Proof.
  intros HQ HR Hl Hf. revert h l' Hl Hf.
  induction l as [|t l IH]; intros h l' Hl Hf.
  { apply Forall2_nil_inv_l in Hl as ->. apply sim_ret. constructor. }
  apply Forall2_cons_inv_l in Hl as (t' & l'' & Ht & Hl & ->).
  simpl. eapply sim_bind; [by apply Hf|]. intros h1 x y Hsub1 Hxy.
  eapply sim_bind.
  { apply IH.
    - eapply Forall2_impl; [done|]. intros u u'. by apply HQ.
    - intros u u' h2 Hsub2. apply Hf. by etrans. }
  intros h2 xs ys Hsub2 Hxs. apply sim_ret. constructor; [|done].
  by apply (HR h1 h2).
Qed.

Lemma Forall2_same {X} h (l : list X) : Forall2 (same h) l l.
Proof. by apply Forall_Forall2_diag, Forall_true. Qed.

Lemma Forall2_same_eq {X} h (l k : list X) : Forall2 (same h) l k → l = k.
Proof. induction 1 as [|x y l k Hxy _ IH]; [done|]. by rewrite Hxy, IH. Qed.

Lemma sim_mapM {T X Y} (R : Store.heap → X → Y → Prop) h
    (f : T → Store.hm X) (g : T → result Y) l :
  stable R →
  (∀ x h1, h ⊆ h1 → sim R h1 (f x) (g x)) →
  sim (λ h' xs ys, Forall2 (R h') xs ys) h (mapM f l) (mapM g l).
Proof.
  intros HR Hf.
  apply (sim_mapM2 same); [apply same_stable|done|apply Forall2_same|].
  intros x x' h1 Hsub <-. by apply Hf.
Qed.

Lemma sim_list_of {T} h (f : T → Store.hm Store.loc)
    (g : T → result (list Z)) l :
  (∀ x h1, h ⊆ h1 → sim rep_row h1 (f x) (g x)) →
  sim rep h (Store.list_of f l) (mapM g l).
Proof.
  intros Hf. unfold Store.list_of. eapply sim_bind_r.
  { apply sim_mapM; [apply rep_row_weaken|done]. }
  intros h1 rs rows _ Hrs. by apply sim_new_mat.
Qed.

Lemma sim_list_of2 {T T'} (Q : Store.heap → T → T' → Prop) h
    (f : T → Store.hm Store.loc) (g : T' → result (list Z)) l l' :
  stable Q → Forall2 (Q h) l l' →
  (∀ x x' h1, h ⊆ h1 → Q h1 x x' → sim rep_row h1 (f x) (g x')) →
  sim rep h (Store.list_of f l) (mapM g l').
Proof.
  intros HQ Hl Hf. unfold Store.list_of. eapply sim_bind_r.
  { by apply (sim_mapM2 Q); [|apply rep_row_weaken|..]. }
  intros h1 rs rows _ Hrs. by apply sim_new_mat.
Qed.

Ltac same_subst :=
  repeat match goal with
    | H : same _ _ _ |- _ => unfold same in H; subst
    end.

(** Facts about a store are carried along when the store grows. *)
Ltac lift_reps :=
  repeat match goal with
    | Hs : ?h ⊆ ?h1, H : rep ?h ?a ?A |- _ =>
        apply (rep_weaken h h1 a A Hs) in H
    | Hs : ?h ⊆ ?h1, H : rep_row ?h ?a ?A |- _ =>
        apply (rep_row_weaken h h1 a A Hs) in H
    | Hs : ?h ⊆ ?h1, H : rep_rows ?h ?a ?A |- _ =>
        apply (rep_rows_weaken h h1 a A Hs) in H
    end.

(** *** The operations without in-place updates *)

Lemma sim_elementwise op h a b A B :
  rep h a A → rep h b B →
  sim rep h (Store.elementwise op a b) (elementwise op A B).
Proof.
  intros Ha Hb. unfold Store.elementwise, elementwise.
  eapply sim_bind_l; [by apply sim_len|]. intros h1 n Hs1 ?. same_subst.
  apply sim_list_of. intros i h2 Hs2. eapply sim_bind_r.
  { apply sim_mapM; [apply same_stable|]. intros j h3 Hs3. lift_reps.
    eapply sim_bind; [by apply sim_get_row|]. intros h4 Ai rowA Hs4 HAi.
    eapply sim_bind; [by apply sim_get_int|]. intros h5 aij ? Hs5 ?. same_subst.
    lift_reps.
    eapply sim_bind; [by apply sim_get_row|]. intros h6 Bi rowB Hs6 HBi.
    eapply sim_bind; [by apply sim_get_int|]. intros h7 bij ? Hs7 ?. same_subst.
    by apply sim_ret. }
  intros h3 xs ys _ ->%Forall2_same_eq. apply sim_new_row.
Qed.

Lemma sim_concat_ints h x y xs ys :
  rep_row h x xs → rep_row h y ys →
  sim rep_row h (Store.concat_ints x y) (Ok (xs ++ ys)).
Proof.
  intros Hx Hy. unfold Store.concat_ints.
  eapply sim_bind_l; [by apply sim_ints|]. intros h1 ? Hs1 ?. same_subst.
  lift_reps.
  eapply sim_bind_l; [by apply sim_ints|]. intros h2 ? Hs2 ?. same_subst.
  apply sim_new_row.
Qed.

Lemma sim_concat_rows h x y X Y :
  rep h x X → rep h y Y → sim rep h (Store.concat_rows x y) (Ok (X ++ Y)).
Proof.
  intros Hx Hy. unfold Store.concat_rows.
  eapply sim_bind_l; [by apply sim_refs|]. intros h1 xs Hs1 Hxs.
  lift_reps.
  eapply sim_bind_l; [by apply sim_refs|]. intros h2 ys Hs2 Hys.
  lift_reps. apply sim_new_mat. by apply Forall2_app.
Qed.

Lemma sim_glue_rows m h l r L R :
  rep h l L → rep h r R →
  sim rep h (Store.glue_rows m l r) (glue_rows m L R).
Proof.
  intros Hl Hr. unfold Store.glue_rows, glue_rows.
  apply sim_list_of. intros i h1 Hs1. lift_reps.
  eapply sim_bind; [by apply sim_get_row|]. intros h2 li Li Hs2 Hli.
  lift_reps.
  eapply sim_bind; [by apply sim_get_row|]. intros h3 ri Ri Hs3 Hri.
  lift_reps. by apply sim_concat_ints.
Qed.

Lemma sim_glue m h c11 c12 c21 c22 C11 C12 C21 C22 :
  rep h c11 C11 → rep h c12 C12 → rep h c21 C21 → rep h c22 C22 →
  sim rep h (Store.glue m c11 c12 c21 c22) (glue m C11 C12 C21 C22).
Proof.
  intros H11 H12 H21 H22. unfold Store.glue, glue.
  eapply sim_bind; [by apply sim_glue_rows|]. intros h1 top Top Hs1 Htop.
  lift_reps.
  eapply sim_bind; [by apply sim_glue_rows|]. intros h2 bot Bot Hs2 Hbot.
  lift_reps. by apply sim_concat_rows.
Qed.

Lemma cuts_take : cuts take take.
Proof. intros h m rs rows. apply Forall2_take. Qed.

Lemma cuts_drop : cuts drop drop.
Proof. intros h m rs rows. apply Forall2_drop. Qed.

Lemma sim_quadrant cut cut' cut_ints m h a A :
  cuts cut cut' → rep h a A →
  sim rep h (Store.quadrant cut cut_ints m a) (Ok (cut_ints m <$> cut' m A)).
Proof.
  intros Hcut Ha. unfold Store.quadrant, Store.slice_rows.
  eapply (sim_bind_l rep _ _ _ _ (cut' m A)).
  { eapply sim_bind_l; [by apply sim_refs|]. intros h1 rs Hs1 Hrs.
    apply sim_new_mat. by apply Hcut. }
  intros h1 t Hs1 Ht.
  eapply sim_bind_l; [by apply sim_refs|]. intros h2 rs Hs2 Hrs.
  rewrite <- (mapM_Ok (λ row, Ok (cut_ints m row))) by done.
  apply (sim_list_of2 rep_row); [apply rep_row_weaken|done|].
  intros r row h3 Hs3 Hr. unfold Store.slice_ints.
  eapply sim_bind_l; [by apply sim_ints|]. intros h4 ? Hs4 ?. same_subst.
  apply sim_new_row.
Qed.

Lemma sim_zeros h k :
  sim rep_row h (Store.zeros k) (Ok (Benchmark.zeros k)).
Proof.
  unfold Store.zeros.
  eapply sim_bind_l; [apply sim_new_row|]. intros h1 _ _ _.
  apply sim_new_row.
Qed.

Lemma sim_pad n m h a A :
  rep h a A →
  sim rep h (Store.Benchmark.pad n m a) (Ok (Benchmark.pad n m A)).
Proof.
  intros Ha. unfold Store.Benchmark.pad, Benchmark.pad.
  eapply sim_bind_l; [by apply sim_refs|]. intros h1 rs Hs1 Hrs.
  eapply (sim_bind_l rep _ _ _ _ ((λ row, row ++ Benchmark.zeros (m - n)) <$> A)).
  { rewrite <- (mapM_Ok (λ row, Ok (row ++ Benchmark.zeros (m - n)))) by done.
    apply (sim_list_of2 rep_row); [apply rep_row_weaken|done|].
    intros r row h2 Hs2 Hr.
    eapply sim_bind_l; [apply sim_zeros|]. intros h3 z Hs3 Hz.
    lift_reps. by apply sim_concat_ints. }
  intros h2 top Hs2 Htop.
  eapply (sim_bind_l rep _ _ _ _
            (replicate (Z.to_nat (m - n)) (Benchmark.zeros m))).
  { rewrite replicate_tab.
    rewrite <- (mapM_Ok (λ _, Ok (Benchmark.zeros m))) by done.
    apply sim_list_of. intros _ h3 _. apply sim_zeros. }
  intros h3 bot Hs3 Hbot. lift_reps. by apply sim_concat_rows.
Qed.

(** *** [matmul_classic]: the accumulator is updated in place *)

Lemma steps_hiter {St} (I : St → Store.heap → Prop) E body_s body_p l :
  (∀ i s h, I s h → steps I E h (body_s i) (body_p i s)) →
  ∀ s h, I s h → steps I E h (Store.hiter body_s l) (for_each body_p l s).
Proof.
  intros Hbody. induction l as [|i l IH]; intros s h HI; simpl.
  { by exists h. }
  specialize (Hbody i s h HI). unfold steps in Hbody.
  destruct (body_p i s) as [s1|e]; simpl.
  - destruct Hbody as (h1 & Hrun & HI1). specialize (IH s1 h1 HI1).
    unfold steps in *. rewrite StoreFacts.hbind_eq, Hrun. done.
  - destruct Hbody as (h1 & Hrun & HE). exists h1.
    by rewrite StoreFacts.hbind_eq, Hrun.
Qed.

Lemma steps_bind {St X Y} (R : Store.heap → X → Y → Prop)
    (I : St → Store.heap → Prop) (E : Store.heap → Prop) h
    (m : Store.hm X) (k : X → Store.hm unit) (p : result Y)
    (q : Y → result St) :
  sim R h m p →
  (∀ h', h ⊆ h' → E h') →
  (∀ h1 x y, h ⊆ h1 → p = Ok y → R h1 x y → steps I E h1 (k x) (q y)) →
  steps I E h (m ≫= k) (p ≫= q).
Proof.
  intros [Hsub Hm] HE Hk. unfold steps. rewrite StoreFacts.hbind_eq.
  destruct p as [y|e]; simpl.
  - destruct Hm as (x & Hx & HR).
    destruct (m h) as [r h1]. simpl in *. subst r.
    by apply (Hk h1 x y).
  - destruct (m h) as [r h1]. simpl in *. subst r. exists h1. auto.
Qed.

Lemma steps_post {St St'} (I' : St' → Store.heap → Prop)
    (I : St → Store.heap → Prop) E h m (p : result St') (φ : St' → St) :
  steps I' E h m p →
  (∀ s h', I' s h' → I (φ s) h') →
  steps I E h m (p ≫= λ s, Ok (φ s)).
Proof.
  intros Hm HI. unfold steps in *. destruct p as [s|e]; simpl; [|done].
  destruct Hm as (h' & Hrun & HI'). exists h'. auto.
Qed.

Lemma acc_rep_weaken h0 c rs C h h' :
  h ⊆ h' → acc_rep h0 c rs C h → acc_rep h0 c rs C h'.
Proof.
  intros Hsub (H0 & Hc & Hrs). split; [by etrans|]. split.
  - by apply (lookup_weaken h h').
  - by apply (rep_rows_weaken h h').
Qed.

(** Reading a row of an operand that was in the store before the call. *)
Lemma sim_get_row_base h0 h a A i :
  rep h0 a A → h0 ⊆ h →
  sim (λ _ r row, rep_row h0 r row) h (Store.get_row a i) (getitem A i).
Proof.
  intros (rs & Ha & Hrs) Hsub. unfold Store.get_row.
  eapply (sim_bind_l (λ _ rs' (_ : Matrix), rs' = rs) _ _ _ _ A).
  { unfold sim, Store.refs. rewrite (lookup_weaken _ _ _ _ Ha Hsub). simpl.
    split; [done|]. by exists rs. }
  intros h1 ? _ ->. split; [done|]. unfold Store.lift, getitem. simpl.
  destruct (A !! i) as [row|] eqn:E.
  - destruct (Forall2_lookup_r _ _ _ _ _ Hrs E) as (r & -> & Hr). by exists r.
  - apply (Forall2_length) in Hrs as Hlen.
    rewrite lookup_ge_None_2; [done|]. apply lookup_ge_None_1 in E. lia.
Qed.

(** Reading a row of the accumulator. *)
Lemma sim_get_row_acc h0 c rs C h i :
  acc_rep h0 c rs C h →
  sim (λ _ Ci row, rs !! i = Some Ci ∧ C !! i = Some row) h
    (Store.get_row c i) (getitem C i).
Proof.
  intros (H0 & Hc & Hrs). unfold Store.get_row.
  eapply (sim_bind_l (λ _ rs' (_ : Matrix), rs' = rs) _ _ _ _ C).
  { unfold sim, Store.refs. rewrite Hc. simpl. split; [done|]. by exists rs. }
  intros h1 ? _ ->. split; [done|]. unfold Store.lift, getitem. simpl.
  destruct (C !! i) as [row|] eqn:E.
  - destruct (Forall2_lookup_r _ _ _ _ _ Hrs E) as (r & Hr & _).
    rewrite Hr. by exists r.
  - apply (Forall2_length) in Hrs as Hlen.
    rewrite lookup_ge_None_2; [done|]. apply lookup_ge_None_1 in E. lia.
Qed.

Section classic.
Context (h0 : Store.heap) (a b c : Store.loc) (rs : list Store.loc)
  (A B : Matrix).
Hypothesis Ha : rep h0 a A.
Hypothesis Hb : rep h0 b B.
Hypothesis Hnodup : NoDup rs.
Hypothesis Hfresh : Forall (λ r, h0 !! r = None) rs.

Lemma acc_row C i Ci row h :
  rs !! i = Some Ci → i < length C →
  acc_rep h0 c rs (<[i := row]> C) h → rep_row h Ci row.
Proof.
  intros HCi Hi (_ & _ & Hrs).
  eapply (Forall2_lookup_lr _ _ _ i); [done..|].
  by apply list_lookup_insert_eq.
Qed.

Lemma steps_set_int C i Ci row j v h :
  rs !! i = Some Ci → i < length C → j < length row →
  acc_rep h0 c rs (<[i := row]> C) h →
  steps (λ row', acc_rep h0 c rs (<[i := row']> C)) (λ h', h0 ⊆ h') h
    (Store.set_int Ci j v) (Ok (<[j := v]> row)).
Proof.
  intros HCi Hi Hj Hacc. pose proof (acc_row C i Ci row h HCi Hi Hacc) as Hrow.
  destruct Hacc as (H0 & Hc & Hrs). unfold rep_row in Hrow.
  unfold steps, Store.set_int. rewrite Hrow, decide_True by done.
  eexists. split; [done|]. split; [|split].
  - apply insert_subseteq_r; [|done].
    rewrite Forall_forall in Hfresh. apply Hfresh.
    by eapply list_elem_of_lookup_2.
  - rewrite lookup_insert_ne; [done|]. intros ->. congruence.
  - apply Forall2_same_length_lookup in Hrs as [Hlen Hlook].
    apply Forall2_same_length_lookup. split.
    { by rewrite length_insert in *. }
    intros i' r y Hr Hy. unfold rep_row.
    destruct (decide (i' = i)) as [->|Hne].
    + rewrite list_lookup_insert_eq in Hy by done.
      assert (r = Ci) as -> by congruence. injection Hy as <-.
      apply lookup_insert_eq.
    + rewrite list_lookup_insert_ne in Hy by done.
      rewrite lookup_insert_ne.
      * apply (Hlook i'); [done|]. by rewrite list_lookup_insert_ne.
      * intros <-. apply Hne. by eapply (NoDup_lookup rs).
Qed.

Lemma steps_classic_j C i Ci aik Bk Bkp j row h :
  rs !! i = Some Ci → i < length C → rep_row h0 Bk Bkp →
  acc_rep h0 c rs (<[i := row]> C) h →
  steps (λ row', acc_rep h0 c rs (<[i := row']> C)) (λ h', h0 ⊆ h') h
    (cij ← Store.get_int Ci j;
     bkj ← Store.get_int Bk j;
     Store.set_int Ci j (cij + aik * bkj)%Z)
    (cij ← getitem row j;
     bkj ← getitem Bkp j;
     Ok (<[j := (cij + aik * bkj)%Z]> row)).
Proof.
  intros HCi Hi HBk Hacc. pose proof Hacc as (H0 & _).
  eapply steps_bind.
  { apply sim_get_int. by eapply acc_row. }
  { intros h' ?. by etrans. }
  intros h1 cij ? Hs1 Hget ?. same_subst.
  eapply steps_bind.
  { apply sim_get_int. eapply rep_row_weaken; [|done]. by etrans. }
  { intros h' ?. etrans; [done|]. by etrans. }
  intros h2 bkj ? Hs2 _ ?. same_subst.
  apply steps_set_int; [done..| |].
  - unfold getitem in Hget. destruct (row !! j) eqn:E; [|done].
    by eapply lookup_lt_Some.
  - eapply acc_rep_weaken; [|done]. by etrans.
Qed.

Lemma steps_classic_k n C i Ci rowA rowAp k row h :
  rs !! i = Some Ci → i < length C → rep_row h0 rowA rowAp →
  acc_rep h0 c rs (<[i := row]> C) h →
  steps (λ row', acc_rep h0 c rs (<[i := row']> C)) (λ h', h0 ⊆ h') h
    (aik ← Store.get_int rowA k;
     Bk ← Store.get_row b k;
     Store.hfor n (λ j,
       cij ← Store.get_int Ci j;
       bkj ← Store.get_int Bk j;
       Store.set_int Ci j (cij + aik * bkj)%Z))
    (aik ← getitem rowAp k;
     Bk ← getitem B k;
     for_range n (λ j Ci,
       cij ← getitem Ci j;
       bkj ← getitem Bk j;
       Ok (<[j := (cij + aik * bkj)%Z]> Ci)) row).
Proof.
  intros HCi Hi HrowA Hacc. pose proof Hacc as (H0 & _).
  eapply steps_bind.
  { apply sim_get_int. by eapply rep_row_weaken. }
  { intros h' ?. by etrans. }
  intros h1 aik ? Hs1 _ ?. same_subst.
  eapply steps_bind.
  { apply (sim_get_row_base h0); [done|]. by etrans. }
  { intros h' ?. etrans; [done|]. by etrans. }
  intros h2 Bk Bkp Hs2 _ HBk.
  apply (steps_hiter (λ row', acc_rep h0 c rs (<[i := row']> C))).
  - intros j row' h' Hacc'. by apply steps_classic_j.
  - eapply acc_rep_weaken; [|done]. by etrans.
Qed.

Lemma steps_classic_i n i C h :
  acc_rep h0 c rs C h →
  steps (acc_rep h0 c rs) (λ h', h0 ⊆ h') h
    (rowA ← Store.get_row a i;
     Ci ← Store.get_row c i;
     Store.hfor n (λ k,
       aik ← Store.get_int rowA k;
       Bk ← Store.get_row b k;
       Store.hfor n (λ j,
         cij ← Store.get_int Ci j;
         bkj ← Store.get_int Bk j;
         Store.set_int Ci j (cij + aik * bkj)%Z)))
    (rowA ← getitem A i;
     Ci ← getitem C i;
     Ci' ← for_range n (λ k Ci,
       aik ← getitem rowA k;
       Bk ← getitem B k;
       for_range n (λ j Ci,
         cij ← getitem Ci j;
         bkj ← getitem Bk j;
         Ok (<[j := (cij + aik * bkj)%Z]> Ci)) Ci) Ci;
     Ok (<[i := Ci']> C)).
Proof.
  intros Hacc. pose proof Hacc as (H0 & _).
  eapply steps_bind.
  { by apply (sim_get_row_base h0). }
  { intros h' ?. by etrans. }
  intros h1 rowA rowAp Hs1 _ HrowA.
  eapply steps_bind.
  { eapply sim_get_row_acc. by eapply acc_rep_weaken. }
  { intros h' ?. etrans; [done|]. by etrans. }
  intros h2 Ci row Hs2 _ [HCi Hrow].
  assert (i < length C) as Hi by (by eapply lookup_lt_Some).
  apply (steps_post (λ row', acc_rep h0 c rs (<[i := row']> C))); [|done].
  apply (steps_hiter (λ row', acc_rep h0 c rs (<[i := row']> C))).
  - intros k row' h' Hacc'. by apply steps_classic_k.
  - rewrite list_insert_id by done.
    eapply acc_rep_weaken; [|done]. by etrans.
Qed.

End classic.

(** Allocating rows one after the other gives distinct new rows. *)
Lemma mapM_alloc {T} (f : T → Store.hm Store.loc) (g : T → list Z) l h :
  (∀ x h1, ∃ r h2,
     f x h1 = (Ok r, h2) ∧ h1 ⊆ h2 ∧ h1 !! r = None ∧ rep_row h2 r (g x)) →
  ∃ rs h',
    mapM f l h = (Ok rs, h') ∧ h ⊆ h' ∧ rep_rows h' rs (g <$> l)
    ∧ NoDup rs ∧ Forall (λ r, h !! r = None) rs.
Proof.
  intros Hf. revert h. induction l as [|x l IH]; intros h.
  { exists [], h. split; [done|]. split; [done|].
    split; [constructor|]. split; constructor. }
  destruct (Hf x h) as (r & h1 & Hrun & Hs1 & Hr & Hrep).
  destruct (IH h1) as (rs & h2 & Hrun2 & Hs2 & Hreps & Hnd & Hfr).
  exists (r :: rs), h2. simpl.
  rewrite StoreFacts.hbind_eq, Hrun, StoreFacts.hbind_eq, Hrun2.
  split; [done|]. split; [by etrans|]. split; [|split].
  - constructor; [|done]. by apply (rep_row_weaken h1 h2).
  - apply NoDup_cons. split; [|done]. intros Hin.
    rewrite Forall_forall in Hfr. specialize (Hfr r Hin).
    unfold rep_row in Hrep. congruence.
  - constructor; [done|]. eapply Forall_impl; [done|]. intros r'.
    by apply StoreFacts.lookup_None_weaken.
Qed.

Lemma zeros_alloc k h1 :
  ∃ r h2,
    Store.zeros k h1 = (Ok r, h2) ∧ h1 ⊆ h2 ∧ h1 !! r = None
    ∧ rep_row h2 r (replicate (Z.to_nat k) 0%Z).
Proof.
  destruct (StoreFacts.fresh1_zeros k) as [He Hfr].
  destruct (sim_zeros h1 k) as [_ (r & Hr & Hrep)].
  specialize (He h1). specialize (Hfr h1 r Hr).
  destruct (Store.zeros k h1) as [res h2] eqn:E. simpl in *. subst res.
  by exists r, h2.
Qed.

Lemma run_bind {X Y} (m : Store.hm X) (k : X → Store.hm Y) h x h1 res :
  m h = (Ok x, h1) → k x h1 = res → (m ≫= k) h = res.
Proof. intros Hm Hk. by rewrite StoreFacts.hbind_eq, Hm. Qed.

Lemma run_bind_raise {X Y} (m : Store.hm X) (k : X → Store.hm Y) h e h1 :
  m h = (Raise e, h1) → (m ≫= k) h = (Raise e, h1).
Proof. intros Hm. by rewrite StoreFacts.hbind_eq, Hm. Qed.

Lemma sim_intro {X Y} (R : Store.heap → X → Y → Prop) h (m : Store.hm X)
    (p : result Y) r h' :
  m h = (r, h') → h ⊆ h' →
  match p with
  | Ok y => ∃ x, r = Ok x ∧ R h' x y
  | Raise e => r = Raise e
  end →
  sim R h m p.
Proof. intros Hm Hsub Hp. unfold sim. by rewrite Hm. Qed.

Lemma sim_matmul_classic h a b A B :
  rep h a A → rep h b B →
  sim rep h (Store.matmul_classic a b) (matmul_classic A B).
Proof.
  intros Ha Hb. unfold Store.matmul_classic, matmul_classic.
  eapply sim_bind_l; [by apply sim_len|]. intros h0 n Hs0 ?. same_subst.
  lift_reps. set (n := length A).
  destruct (mapM_alloc (λ _ : nat, Store.zeros (Z.of_nat n))
              (λ _, replicate n 0%Z) (seq 0 n) h0)
    as (rs & h1 & Hrun & Hs1 & Hrs & Hnd & Hfr).
  { intros _ h'. pose proof (zeros_alloc (Z.of_nat n) h') as Hz.
    by rewrite Nat2Z.id in Hz. }
  set (c := fresh (dom h1)). set (h2 := <[c := Store.OMat rs]> h1).
  assert (Store.list_of (λ _ : nat, Store.zeros (Z.of_nat n)) (seq 0 n) h0
          = (Ok c, h2)) as Hc.
  { by apply (run_bind _ _ _ rs h1). }
  assert (h1 ⊆ h2) as Hs2 by apply insert_subseteq, StoreFacts.fresh_lookup.
  assert (acc_rep h0 c rs (replicate n (replicate n 0%Z)) h2) as Hacc.
  { split; [by etrans|]. split; [apply lookup_insert_eq|].
    rewrite (replicate_tab n (replicate n 0%Z)).
    by apply (rep_rows_weaken h1 h2). }
  pose proof (steps_hiter (acc_rep h0 c rs) (λ h', h0 ⊆ h') _ _ (seq 0 n)
    (λ i C h' Hacc', steps_classic_i h0 a b c rs A B Ha Hb Hnd Hfr n i C h' Hacc')
    _ h2 Hacc) as Hloop.
  unfold steps, for_range in Hloop. unfold for_range.
  match goal with |- context [for_each ?f ?l ?s] =>
    destruct (for_each f l s) as [C|e] end.
  - destruct Hloop as (h3 & Hrun3 & (H0 & Hc3 & HC)).
    apply (sim_intro _ _ _ _ (Ok c) h3); [|done|].
    + eapply run_bind; [exact Hc|]. eapply run_bind; [exact Hrun3|]. done.
    + exists c. split; [done|]. by exists rs.
  - destruct Hloop as (h3 & Hrun3 & H0).
    apply (sim_intro _ _ _ _ (Raise e) h3); [|done..].
    eapply run_bind; [exact Hc|]. by apply run_bind_raise.
Qed.

(** *** The recursive cores and the entry points *)

Ltac sim_go Hrec :=
  lift_reps;
  first
    [ by apply sim_elementwise
    | by apply Hrec
    | by apply sim_glue
    | eapply sim_bind; [sim_go Hrec | intros; sim_go Hrec] ].

Ltac sim_quadrants :=
  repeat (eapply sim_bind_l;
          [ apply sim_quadrant; [first [apply cuts_take | apply cuts_drop]|];
            eassumption
          | intros; lift_reps ]).

Lemma sim_strassen_step rec_s rec_p h a b A B :
  (∀ h x y X Y, rep h x X → rep h y Y → sim rep h (rec_s x y) (rec_p X Y)) →
  rep h a A → rep h b B →
  sim rep h (Store.strassen_step rec_s a b) (strassen_step rec_p A B).
Proof.
  intros Hrec Ha Hb. unfold Store.strassen_step, strassen_step. cbv zeta.
  eapply sim_bind_l; [by apply sim_len|]. intros h0 n Hs0 ?. same_subst.
  lift_reps.
  unfold Store.quad11, Store.quad12, Store.quad21, Store.quad22.
  sim_quadrants.
  unfold Store.add_matrix, Store.sub_matrix, add_matrix, sub_matrix.
  sim_go Hrec.
Qed.

Lemma sim_winograd_step rec_s rec_p h a b A B :
  (∀ h x y X Y, rep h x X → rep h y Y → sim rep h (rec_s x y) (rec_p X Y)) →
  rep h a A → rep h b B →
  sim rep h (Store.Benchmark.winograd_step rec_s a b)
    (Benchmark.winograd_step rec_p A B).
Proof.
  intros Hrec Ha Hb.
  unfold Store.Benchmark.winograd_step, Benchmark.winograd_step. cbv zeta.
  eapply sim_bind_l; [by apply sim_len|]. intros h0 n Hs0 ?. same_subst.
  lift_reps.
  unfold Store.quad11, Store.quad12, Store.quad21, Store.quad22.
  sim_quadrants.
  unfold Store.add_matrix, Store.sub_matrix, add_matrix, sub_matrix.
  sim_go Hrec.
Qed.

Lemma sim__strassen_core fuel cutoff : ∀ h a b A B,
  rep h a A → rep h b B →
  sim rep h (Store.Benchmark._strassen_core fuel a b cutoff)
    (Benchmark._strassen_core fuel A B cutoff).
Proof.
  induction fuel as [|fuel IH]; intros h a b A B Ha Hb.
  { apply sim_raise. }
  rewrite _strassen_core_S.
  change (Store.Benchmark._strassen_core (S fuel) a b cutoff) with
    (n ← Store.len a;
     if bool_decide (Z.of_nat n ≤ cutoff)%Z then Store.matmul_classic a b
     else Store.strassen_step
            (λ x y, Store.Benchmark._strassen_core fuel x y cutoff) a b).
  eapply sim_bind_l; [by apply sim_len|]. intros h0 n Hs0 ?. same_subst.
  lift_reps. case_bool_decide.
  - by apply sim_matmul_classic.
  - apply sim_strassen_step; [|done..]. intros. by apply IH.
Qed.

Lemma sim__strassen_winograd_core fuel cutoff : ∀ h a b A B,
  rep h a A → rep h b B →
  sim rep h (Store.Benchmark._strassen_winograd_core fuel a b cutoff)
    (Benchmark._strassen_winograd_core fuel A B cutoff).
Proof.
  induction fuel as [|fuel IH]; intros h a b A B Ha Hb.
  { apply sim_raise. }
  rewrite _strassen_winograd_core_S.
  change (Store.Benchmark._strassen_winograd_core (S fuel) a b cutoff) with
    (n ← Store.len a;
     if bool_decide (Z.of_nat n ≤ cutoff)%Z then Store.matmul_classic a b
     else Store.Benchmark.winograd_step
            (λ x y, Store.Benchmark._strassen_winograd_core fuel x y cutoff)
            a b).
  eapply sim_bind_l; [by apply sim_len|]. intros h0 n Hs0 ?. same_subst.
  lift_reps. case_bool_decide.
  - by apply sim_matmul_classic.
  - apply sim_winograd_step; [|done..]. intros. by apply IH.
Qed.

Lemma sim_strassen_core fuel cutoff : ∀ h a b A B,
  rep h a A → rep h b B →
  sim rep h (Store.Answer.strassen_core fuel a b cutoff)
    (Answer.strassen_core fuel A B cutoff).
Proof.
  induction fuel as [|fuel IH]; intros h a b A B Ha Hb.
  { apply sim_raise. }
  rewrite strassen_core_S.
  change (Store.Answer.strassen_core (S fuel) a b cutoff) with
    (n ← Store.len a;
     if bool_decide (Z.of_nat n ≤ cutoff)%Z then Store.matmul_classic a b
     else if bool_decide (n `mod` 2 = 1) then Store.matmul_classic a b
     else Store.strassen_step
            (λ x y, Store.Answer.strassen_core fuel x y cutoff) a b).
  eapply sim_bind_l; [by apply sim_len|]. intros h0 n Hs0 ?. same_subst.
  lift_reps. repeat case_bool_decide.
  - by apply sim_matmul_classic.
  - by apply sim_matmul_classic.
  - apply sim_strassen_step; [|done..]. intros. by apply IH.
Qed.

Lemma sim_new_empty h : sim rep h (Store.new (Store.OMat [])) (Ok []).
Proof. apply sim_new_mat. constructor. Qed.

Lemma sim_shape_assert h a b A B :
  rep h a A → rep h b B →
  sim same h (Store.Benchmark.shape_assert a b) (Benchmark.shape_assert A B).
Proof.
  intros Ha Hb. unfold Store.Benchmark.shape_assert, Benchmark.shape_assert.
  cbv zeta.
  eapply sim_bind_l; [by apply sim_len|]. intros h1 n Hs1 ?. same_subst.
  lift_reps.
  eapply sim_bind_l; [by apply sim_len|]. intros h2 lb Hs2 ?. same_subst.
  lift_reps. case_bool_decide; [apply sim_raise|].
  eapply sim_bind; [by apply sim_get_row|]. intros h3 A0 rowA Hs3 HA0.
  eapply sim_bind_l; [by apply sim_len_row|]. intros h4 la0 Hs4 ?. same_subst.
  lift_reps. case_bool_decide; [apply sim_raise|].
  eapply sim_bind; [by apply sim_get_row|]. intros h5 B0 rowB Hs5 HB0.
  eapply sim_bind_l; [by apply sim_len_row|]. intros h6 lb0 Hs6 ?. same_subst.
  case_bool_decide; [apply sim_raise|]. by apply sim_ret.
Qed.

Lemma sim_padded_call core_s core_p h a b A B cutoff :
  (∀ h x y X Y, rep h x X → rep h y Y →
     sim rep h (core_s x y cutoff) (core_p X Y cutoff)) →
  rep h a A → rep h b B →
  sim rep h (Store.padded_call core_s a b cutoff)
    (padded_entry core_p A B cutoff).
Proof.
  intros Hcore Ha Hb. unfold Store.padded_call, padded_entry. cbv zeta.
  eapply sim_bind_l; [by apply sim_len|]. intros h1 n Hs1 ?. same_subst.
  lift_reps. case_bool_decide; [apply sim_new_empty|].
  eapply sim_bind; [by apply sim_shape_assert|]. intros h2 ? ? Hs2 _.
  lift_reps. case_bool_decide; [|by apply Hcore].
  eapply sim_bind_l; [by apply sim_pad|]. intros h3 Ap Hs3 HAp. lift_reps.
  eapply sim_bind_l; [by apply sim_pad|]. intros h4 Bp Hs4 HBp. lift_reps.
  eapply sim_bind; [by apply Hcore|]. intros h5 cp Cp Hs5 HCp.
  apply sim_quadrant; [apply cuts_take|done].
Qed.

Lemma sim_answer_matmul_strassen fuel cutoff h a b A B :
  rep h a A → rep h b B →
  sim rep h (Store.Answer.matmul_strassen fuel a b cutoff)
    (Answer.matmul_strassen fuel A B cutoff).
Proof.
  intros Ha Hb. unfold Store.Answer.matmul_strassen, Answer.matmul_strassen.
  cbv zeta.
  eapply sim_bind_l; [by apply sim_len|]. intros h1 n Hs1 ?. same_subst.
  lift_reps. case_bool_decide; [apply sim_new_empty|].
  eapply sim_bind_l; [by apply sim_len|]. intros h2 lb Hs2 ?. same_subst.
  lift_reps. case_bool_decide; [apply sim_raise|].
  eapply sim_bind; [by apply sim_get_row|]. intros h3 A0 rowA Hs3 HA0.
  eapply sim_bind_l; [by apply sim_len_row|]. intros h4 la0 Hs4 ?. same_subst.
  lift_reps. case_bool_decide; [apply sim_raise|].
  eapply sim_bind; [by apply sim_get_row|]. intros h5 B0 rowB Hs5 HB0.
  eapply sim_bind_l; [by apply sim_len_row|]. intros h6 lb0 Hs6 ?. same_subst.
  lift_reps. case_bool_decide; [apply sim_raise|].
  by apply sim_strassen_core.
Qed.

End StoreRefine.

Lemma sim_refines h m p : sim rep h m p → refines h m p.
Proof.
  intros [_ H]. unfold refines. destruct p as [C|e]; [|done].
  destruct H as (c & Hc & Hrep). exists c. split; [done|].
  by apply StoreRefine.rep_matrix_at.
Qed.

(** The two models agree.  In a store where [a] and [b] denote [A] and
    [B], each operation of the store model raises the exception its value
    model raises, or returns a reference that denotes, in the store after
    the call, the matrix its value model returns. *)
Theorem store_refines_values h a b A B fuel cutoff :
  Store.matrix_at h a = Some A → Store.matrix_at h b = Some B →
  refines h (Store.add_matrix a b) (add_matrix A B)
  ∧ refines h (Store.sub_matrix a b) (sub_matrix A B)
  ∧ refines h (Store.matmul_classic a b) (matmul_classic A B)
  ∧ refines h (Store.Benchmark.matmul_strassen fuel a b cutoff)
      (Benchmark.matmul_strassen fuel A B cutoff)
  ∧ refines h (Store.Benchmark.matmul_strassen_winograd fuel a b cutoff)
      (Benchmark.matmul_strassen_winograd fuel A B cutoff)
  ∧ refines h (Store.Answer.matmul_strassen fuel a b cutoff)
      (Answer.matmul_strassen fuel A B cutoff).
Proof.
  intros Ha%StoreRefine.rep_matrix_at Hb%StoreRefine.rep_matrix_at.
  split_and!; apply sim_refines.
  - by apply StoreRefine.sim_elementwise.
  - by apply StoreRefine.sim_elementwise.
  - by apply StoreRefine.sim_matmul_classic.
  - rewrite StoreFacts.matmul_strassen_padded_call, matmul_strassen_unfold.
    apply StoreRefine.sim_padded_call; [|done..].
    intros. by apply StoreRefine.sim__strassen_core.
  - rewrite StoreFacts.matmul_strassen_winograd_padded_call,
      matmul_strassen_winograd_unfold.
    apply StoreRefine.sim_padded_call; [|done..].
    intros. by apply StoreRefine.sim__strassen_winograd_core.
  - by apply StoreRefine.sim_answer_matmul_strassen.
Qed.

(** ** The properties of the specification *)

(** C1. For square integer matrices [A], [B] of equal order [n >= 0] and
    every cutoff [>= 1], [matmul_strassen] and [matmul_strassen_winograd]
    (and the [matmul_strassen] of [answer.py]) each return exactly the
    matrix [matmul_classic] returns, given a recursion budget of at least
    [log2 (2 n)] calls. *)
Theorem strassen_winograd_equal_classic n fuel A B cutoff :
  square n A → square n B → (1 ≤ cutoff)%Z → 2 * n ≤ 2 ^ fuel →
  ∃ C : Matrix,
    matmul_classic A B = Ok C
    ∧ Benchmark.matmul_strassen fuel A B cutoff = Ok C
    ∧ Benchmark.matmul_strassen_winograd fuel A B cutoff = Ok C
    ∧ Answer.matmul_strassen fuel A B cutoff = Ok C.
Proof.
  intros HA HB Hcut Hfuel. exists (matrix_product A B). repeat split.
  - by apply (matmul_classic_square n).
  - by apply (benchmark_strassen_ok n).
  - by apply (benchmark_winograd_ok n).
  - by apply (answer_strassen_ok n).
Qed.

Lemma strassen_winograd_equal_classic_witness :
  ∃ C : Matrix,
    matmul_classic ex_A3 ex_B3 = Ok C
    ∧ Benchmark.matmul_strassen 3 ex_A3 ex_B3 1 = Ok C
    ∧ Benchmark.matmul_strassen_winograd 3 ex_A3 ex_B3 1 = Ok C
    ∧ Answer.matmul_strassen 3 ex_A3 ex_B3 1 = Ok C.
Proof.
  apply (strassen_winograd_equal_classic 3 3 ex_A3 ex_B3 1);
    [solve_square | solve_square | lia | simpl; lia].
Defined.

(** C2. For square matrices [A], [B] of equal order [n], [matmul_classic]
    returns the matrix [C] of order [n] with [C[i][j]] equal to the sum
    over [k] of [A[i][k] * B[k][j]]. *)
Theorem matmul_classic_standard_product n A B :
  square n A → square n B →
  ∃ C : Matrix,
    matmul_classic A B = Ok C
    ∧ square n C
    ∧ ∀ i j, i < n → j < n →
        entry C i j = bigsum n (λ k, entry A i k * entry B k j)%Z.
Proof.
  intros HA HB. exists (matrix_product A B).
  assert (length A = n) as Hlen by (by destruct HA).
  split; [by apply (matmul_classic_square n)|].
  unfold matrix_product. rewrite Hlen. split; [apply square_mk|].
  intros i j Hi Hj. by rewrite entry_mk.
Qed.

Lemma matmul_classic_standard_product_witness :
  ∃ C : Matrix,
    matmul_classic ex_A2 ex_A2 = Ok C
    ∧ square 2 C
    ∧ ∀ i j, i < 2 → j < 2 →
        entry C i j = bigsum 2 (λ k, entry ex_A2 i k * entry ex_A2 k j)%Z.
Proof.
  apply (matmul_classic_standard_product 2 ex_A2 ex_A2); solve_square.
Defined.

(** C3. For square [A], [B] of order [n >= 1] with [n] not a power of two,
    the entry points pad both operands with zeros to order [m], the next
    power of two above [n], run the core on the padded matrices, and the
    cropped leading [n]-by-[n] block of the padded product is the exact
    product of [A] and [B] (cutoff [>= 1]). *)
Theorem padding_is_transparent n fuel A B cutoff :
  square n A → square n B → 1 ≤ n → ¬ power_of_two n →
  (1 ≤ cutoff)%Z → 2 * n ≤ 2 ^ fuel →
  ∃ (k : nat) (Ap Bp : Matrix),
    Ap = Benchmark.pad (Z.of_nat n)
           (Z.shiftl 1 (bit_length (Z.of_nat n - 1))) A
    ∧ Bp = Benchmark.pad (Z.of_nat n)
           (Z.shiftl 1 (bit_length (Z.of_nat n - 1))) B
    ∧ Z.shiftl 1 (bit_length (Z.of_nat n - 1)) = Z.of_nat (2 ^ S k)
    ∧ 2 ^ k < n ≤ 2 ^ S k
    ∧ square (2 ^ S k) Ap ∧ square (2 ^ S k) Bp
    ∧ (∀ i j, entry Ap i j = padded n (entry A) i j)
    ∧ (∀ i j, entry Bp i j = padded n (entry B) i j)
    ∧ Benchmark._strassen_core fuel Ap Bp cutoff = Ok (matrix_product Ap Bp)
    ∧ Benchmark._strassen_winograd_core fuel Ap Bp cutoff
      = Ok (matrix_product Ap Bp)
    ∧ Benchmark.crop n (matrix_product Ap Bp) = matrix_product A B
    ∧ Benchmark.matmul_strassen fuel A B cutoff
      = Ok (Benchmark.crop n (matrix_product Ap Bp))
    ∧ Benchmark.matmul_strassen_winograd fuel A B cutoff
      = Ok (Benchmark.crop n (matrix_product Ap Bp)).
Proof.
  intros HA HB Hn Hpow Hcut Hfuel.
  assert (2 ≤ n) as Hn2.
  { destruct (decide (n = 1)) as [->|]; [|lia]. destruct Hpow. by exists 0. }
  destruct (padded_order n Hn2) as (k & Hm & Hlo & Hhi).
  assert (S k < fuel) as Hk.
  { apply pow2_lt_inv. rewrite (pow2_S k). lia. }
  exists k. eexists. eexists. split; [reflexivity|]. split; [reflexivity|].
  rewrite Hm, (benchmark_strassen_ok n), (benchmark_winograd_ok n) by done.
  rewrite (square_eq_mk n A HA), (square_eq_mk n B HB).
  rewrite !pad_mk by done. rewrite !matrix_product_mk.
  rewrite crop_mk by done.
  assert (mk n (fprod (2 ^ S k) (padded n (entry A)) (padded n (entry B)))
          = mk n (fprod n (entry A) (entry B))) as Hcrop.
  { apply mk_ext. intros i j Hi Hj. by apply fprod_padded. }
  repeat split; try done; try apply square_mk.
  - intros i j. by rewrite entry_mk_padded, padded_entry_of_mk.
  - intros i j. by rewrite entry_mk_padded, padded_entry_of_mk.
  - by apply _strassen_core_ok.
  - by apply _strassen_winograd_core_ok.
  - by rewrite Hcrop.
  - by rewrite Hcrop.
Qed.

Lemma padding_is_transparent_witness :
  ∃ (k : nat) (Ap Bp : Matrix),
    Ap = Benchmark.pad 3 (Z.shiftl 1 (bit_length (3 - 1))) ex_A3
    ∧ Bp = Benchmark.pad 3 (Z.shiftl 1 (bit_length (3 - 1))) ex_B3
    ∧ Z.shiftl 1 (bit_length (3 - 1)) = Z.of_nat (2 ^ S k)
    ∧ 2 ^ k < 3 ≤ 2 ^ S k
    ∧ square (2 ^ S k) Ap ∧ square (2 ^ S k) Bp
    ∧ (∀ i j, entry Ap i j = padded 3 (entry ex_A3) i j)
    ∧ (∀ i j, entry Bp i j = padded 3 (entry ex_B3) i j)
    ∧ Benchmark._strassen_core 3 Ap Bp 1 = Ok (matrix_product Ap Bp)
    ∧ Benchmark._strassen_winograd_core 3 Ap Bp 1 = Ok (matrix_product Ap Bp)
    ∧ Benchmark.crop 3 (matrix_product Ap Bp) = matrix_product ex_A3 ex_B3
    ∧ Benchmark.matmul_strassen 3 ex_A3 ex_B3 1
      = Ok (Benchmark.crop 3 (matrix_product Ap Bp))
    ∧ Benchmark.matmul_strassen_winograd 3 ex_A3 ex_B3 1
      = Ok (Benchmark.crop 3 (matrix_product Ap Bp)).
Proof.
  apply (padding_is_transparent 3 3 ex_A3 ex_B3 1);
    [solve_square | solve_square | lia | apply three_not_power_of_two
    | lia | simpl; lia].
Defined.

(** C4. For fixed square [A], [B] of equal order [n] and cutoffs [c1],
    [c2] with [1 <= c1, c2 <= n], each recursive entry point returns the
    same matrix under [c1] as under [c2]. *)
Theorem cutoff_invariance n fuel A B c1 c2 :
  square n A → square n B →
  (1 ≤ c1 ≤ Z.of_nat n)%Z → (1 ≤ c2 ≤ Z.of_nat n)%Z → 2 * n ≤ 2 ^ fuel →
  ∃ C : Matrix,
    (Benchmark.matmul_strassen fuel A B c1 = Ok C
     ∧ Benchmark.matmul_strassen fuel A B c2 = Ok C)
    ∧ (Benchmark.matmul_strassen_winograd fuel A B c1 = Ok C
       ∧ Benchmark.matmul_strassen_winograd fuel A B c2 = Ok C)
    ∧ (Answer.matmul_strassen fuel A B c1 = Ok C
       ∧ Answer.matmul_strassen fuel A B c2 = Ok C).
Proof.
  intros HA HB [Hc1 _] [Hc2 _] Hfuel. exists (matrix_product A B).
  rewrite !(benchmark_strassen_ok n), !(benchmark_winograd_ok n),
    !(answer_strassen_ok n) by done.
  done.
Qed.

Lemma cutoff_invariance_witness :
  ∃ C : Matrix,
    (Benchmark.matmul_strassen 2 ex_A2 ex_I2 1 = Ok C
     ∧ Benchmark.matmul_strassen 2 ex_A2 ex_I2 2 = Ok C)
    ∧ (Benchmark.matmul_strassen_winograd 2 ex_A2 ex_I2 1 = Ok C
       ∧ Benchmark.matmul_strassen_winograd 2 ex_A2 ex_I2 2 = Ok C)
    ∧ (Answer.matmul_strassen 2 ex_A2 ex_I2 1 = Ok C
       ∧ Answer.matmul_strassen 2 ex_A2 ex_I2 2 = Ok C).
Proof.
  apply (cutoff_invariance 2 2 ex_A2 ex_I2 1 2);
    [solve_square | solve_square | lia | lia | simpl; lia].
Defined.

(** C5. For square [A], [B] of equal odd order [n] with [n > cutoff],
    [strassen_core] of [answer.py] does not recurse: whatever budget is
    left for deeper calls, it returns what [matmul_classic A B] returns,
    which is the product. *)
Theorem odd_order_falls_back n fuel A B cutoff :
  square n A → square n B → n `mod` 2 = 1 → (cutoff < Z.of_nat n)%Z →
  Answer.strassen_core (S fuel) A B cutoff = matmul_classic A B
  ∧ matmul_classic A B = Ok (matrix_product A B).
Proof.
  intros HA HB Hodd Hcut. split; [|by apply (matmul_classic_square n)].
  rewrite strassen_core_S. destruct HA as [-> _].
  rewrite bool_decide_false by lia. by rewrite bool_decide_true.
Qed.

Lemma odd_order_falls_back_witness :
  Answer.strassen_core 1 ex_A3 ex_B3 1 = matmul_classic ex_A3 ex_B3
  ∧ matmul_classic ex_A3 ex_B3 = Ok (matrix_product ex_A3 ex_B3).
Proof.
  apply (odd_order_falls_back 3 0 ex_A3 ex_B3 1);
    [solve_square | solve_square | reflexivity | lia].
Defined.

(** The core of [matrix_benchmark.py] has no such branch: on an odd order
    above the cutoff it splits unevenly and a subscript goes out of range. *)
Example _strassen_core_odd_order :
  Benchmark._strassen_core 3 ex_A3 ex_B3 1 = Raise IndexError.
Proof. reflexivity. Qed.

(** C6, as stated, fails: an empty [A] is accepted whatever [B] is, and a
    non-square [A] whose first row has the right length is accepted. *)
Lemma shape_error_counterexample :
  (length (@nil (list Z)) ≠ length ex_I2
   ∧ Benchmark.matmul_strassen 1 [] ex_I2 64 = Ok []
   ∧ Benchmark.matmul_strassen_winograd 1 [] ex_I2 64 = Ok []
   ∧ Answer.matmul_strassen 1 [] ex_I2 64 = Ok [])
  ∧ (¬ square 2 ex_ragged
     ∧ Benchmark.matmul_strassen 1 ex_ragged ex_I2 64 = Ok ex_A2
     ∧ Benchmark.matmul_strassen_winograd 1 ex_ragged ex_I2 64 = Ok ex_A2
     ∧ Answer.matmul_strassen 1 ex_ragged ex_I2 64 = Ok ex_A2).
Proof.
  repeat split; try done. apply ragged_not_square.
Qed.

(** C6, amended. When [len(B)] differs from [len(A)], or the first row of
    [A] or of [B] has a length other than [len(A)] (a missing first row
    counting as length 0): for a non-empty [A] the entry points raise
    their shape error ([AssertionError] in [matrix_benchmark.py],
    [ValueError] in [answer.py]) and return no matrix; for an empty [A]
    they return the empty matrix. *)
Theorem shape_error_on_first_rows fuel A B cutoff :
  length B ≠ length A ∨ first_row_len A ≠ length A
    ∨ first_row_len B ≠ length A →
  Benchmark.matmul_strassen fuel A B cutoff
    = (if bool_decide (length A = 0) then Ok [] else Raise AssertionError)
  ∧ Benchmark.matmul_strassen_winograd fuel A B cutoff
    = (if bool_decide (length A = 0) then Ok [] else Raise AssertionError)
  ∧ Answer.matmul_strassen fuel A B cutoff
    = (if bool_decide (length A = 0) then Ok [] else Raise ValueError).
Proof.
  intros Hbad. case_bool_decide as Hlen.
  { destruct A; [done|]. simpl in Hlen. lia. }
  assert (A ≠ []) as HA by (by intros ->).
  rewrite matmul_strassen_unfold, matmul_strassen_winograd_unfold.
  unfold padded_entry.
  rewrite answer_check_spec, shape_assert_spec by done.
  rewrite !(bool_decide_false (length A = 0)) by done.
  rewrite !(bool_decide_false (length B = length A ∧ _)); [done|].
  intros (? & ? & ?). destruct Hbad as [?|[?|?]]; done.
Qed.

Lemma shape_error_on_first_rows_witness :
  Benchmark.matmul_strassen 1 ex_A3 ex_A2 64
    = (if bool_decide (length ex_A3 = 0) then Ok [] else Raise AssertionError)
  ∧ Benchmark.matmul_strassen_winograd 1 ex_A3 ex_A2 64
    = (if bool_decide (length ex_A3 = 0) then Ok [] else Raise AssertionError)
  ∧ Answer.matmul_strassen 1 ex_A3 ex_A2 64
    = (if bool_decide (length ex_A3 = 0) then Ok [] else Raise ValueError).
Proof.
  apply (shape_error_on_first_rows 1 ex_A3 ex_A2 64). left. simpl. lia.
Defined.

(** The case the specification names: a matrix of 3 rows and 4 columns. *)
Example shape_error_3_by_4 :
  let A : Matrix := [[1; 2; 3; 4]; [5; 6; 7; 8]; [9; 10; 11; 12]]%Z in
  Benchmark.matmul_strassen 1 A A 64 = Raise AssertionError
  ∧ Benchmark.matmul_strassen_winograd 1 A A 64 = Raise AssertionError
  ∧ Answer.matmul_strassen 1 A A 64 = Raise ValueError.
Proof. done. Qed.

(** C7, as stated, fails: operands of orders 2 and 3 are multiplied
    without any error. *)
Lemma matmul_classic_mismatch_counterexample :
  square 2 ex_A2 ∧ square 3 ex_B3
  ∧ matmul_classic ex_A2 ex_B3 = Ok [[9; 12]; [19; 26]]%Z.
Proof. repeat split; repeat constructor. Qed.

(** C7, amended. [matmul_classic] makes no dimension check.  For square
    [A] of order [n] and [B] of order [p] with [n ≠ p]: when [n > p] a
    subscript of [B] goes out of range and [IndexError] is raised; when
    [n < p] the result is the product of [A] with the leading [n]-by-[n]
    block of [B]. *)
Theorem matmul_classic_mismatch n p A B :
  square n A → square p B → n ≠ p →
  matmul_classic A B
  = if decide (p < n) then Raise IndexError
    else Ok (mk n (fprod n (entry A) (entry B))).
Proof.
  intros HA HB Hne. case_decide.
  - by apply (matmul_classic_short n p).
  - apply (matmul_classic_long n p); [done..|lia].
Qed.

Lemma matmul_classic_mismatch_witness :
  matmul_classic ex_A3 ex_A2
  = if decide (2 < 3) then Raise IndexError
    else Ok (mk 3 (fprod 3 (entry ex_A3) (entry ex_A2))).
Proof.
  apply (matmul_classic_mismatch 3 2 ex_A3 ex_A2);
    [solve_square | solve_square | lia].
Defined.

(** C8. On two empty matrices each entry point returns the empty matrix
    and raises nothing, even with no recursion budget at all. *)
Theorem empty_matrices fuel cutoff :
  matmul_classic [] [] = Ok []
  ∧ Benchmark.matmul_strassen fuel [] [] cutoff = Ok []
  ∧ Benchmark.matmul_strassen_winograd fuel [] [] cutoff = Ok []
  ∧ Answer.matmul_strassen fuel [] [] cutoff = Ok [].
Proof. done. Qed.

(** C9. No operation mutates its inputs.  In the store model, for every
    store and every two references [a] and [b], a call to [add_matrix],
    [sub_matrix], [matmul_classic], [matmul_strassen] or
    [matmul_strassen_winograd] leaves every object that existed before the
    call unchanged, whether it returns or raises, so [a] and [b] (and
    every other matrix) hold the entries they held before; and the
    reference returned is a new list of new rows. *)
Theorem inputs_not_mutated a b fuel cutoff :
  Store.pure_call (Store.add_matrix a b)
  ∧ Store.pure_call (Store.sub_matrix a b)
  ∧ Store.pure_call (Store.matmul_classic a b)
  ∧ Store.pure_call (Store.Benchmark.matmul_strassen fuel a b cutoff)
  ∧ Store.pure_call (Store.Benchmark.matmul_strassen_winograd fuel a b cutoff)
  ∧ Store.pure_call (Store.Answer.matmul_strassen fuel a b cutoff).
Proof.
  split_and!; apply StoreFacts.fresh_mat_pure_call.
  - apply StoreFacts.fresh_mat_elementwise.
  - apply StoreFacts.fresh_mat_elementwise.
  - apply StoreFacts.fresh_mat_matmul_classic.
  - rewrite StoreFacts.matmul_strassen_padded_call.
    apply StoreFacts.fresh_mat_padded_call. intros.
    apply StoreFacts.fresh_mat__strassen_core.
  - rewrite StoreFacts.matmul_strassen_winograd_padded_call.
    apply StoreFacts.fresh_mat_padded_call. intros.
    apply StoreFacts.fresh_mat__strassen_winograd_core.
  - apply StoreFacts.fresh_mat_answer_matmul_strassen.
Qed.

(** The store model computes what the value model computes, and the
    operands read back as they were stored. *)
Example store_matmul_classic :
  Store.run_on ex_A3 ex_B3 Store.matmul_classic
  = Ok (Some ex_A3, Some ex_B3, Some ex_A3B3).
Proof. vm_compute. reflexivity. Qed.

Example store_add_matrix :
  Store.run_on ex_A3 ex_B3 Store.add_matrix
  = Ok (Some ex_A3, Some ex_B3, Some ex_A3_plus_B3).
Proof. vm_compute. reflexivity. Qed.

Example store_matmul_strassen :
  Store.run_on ex_A3 ex_B3 (λ a b, Store.Benchmark.matmul_strassen 3 a b 1)
  = Ok (Some ex_A3, Some ex_B3, Some ex_A3B3).
Proof. vm_compute. reflexivity. Qed.

Example store_matmul_strassen_winograd :
  Store.run_on ex_A3 ex_B3
    (λ a b, Store.Benchmark.matmul_strassen_winograd 3 a b 1)
  = Ok (Some ex_A3, Some ex_B3, Some ex_A3B3).
Proof. vm_compute. reflexivity. Qed.

Example store_answer_matmul_strassen :
  Store.run_on ex_A2 ex_A2 (λ a b, Store.Answer.matmul_strassen 3 a b 1)
  = Ok (Some ex_A2, Some ex_A2, Some [[7; 10]; [15; 22]]%Z).
Proof. vm_compute. reflexivity. Qed.

Example store_matmul_classic_raises :
  Store.run_on ex_A3 ex_A2 Store.matmul_classic = Raise IndexError.
Proof. vm_compute. reflexivity. Qed.

(** C10. The shape check looks at the first rows only: there is an [A]
    that is not square (its first row has length [len(A)], a later row has
    not) which the entry points accept; no budget and no cutoff makes them
    raise a shape error on it, and with the default cutoff they return a
    matrix. *)
Theorem shape_check_accepts_ragged :
  ∃ A B : Matrix,
    first_row_len A = length A
    ∧ (∃ i row, 0 < i ∧ A !! i = Some row ∧ length row ≠ length A)
    ∧ ¬ square (length A) A
    ∧ (∀ fuel cutoff,
         Benchmark.matmul_strassen fuel A B cutoff ≠ Raise AssertionError
         ∧ Benchmark.matmul_strassen_winograd fuel A B cutoff
           ≠ Raise AssertionError
         ∧ Answer.matmul_strassen fuel A B cutoff ≠ Raise ValueError)
    ∧ (∀ fuel,
         Benchmark.matmul_strassen (S fuel) A B Benchmark.CUTOFF_STRASSEN
         = Ok ex_A2
         ∧ Benchmark.matmul_strassen_winograd (S fuel) A B
             Benchmark.CUTOFF_WINOGRAD = Ok ex_A2
         ∧ Answer.matmul_strassen (S fuel) A B 64 = Ok ex_A2).
Proof.
  exists ex_ragged, ex_I2. split; [done|]. split.
  { exists 1, [3; 4; 5]%Z. split; [lia|]. split; [done|]. simpl. lia. }
  split; [apply ragged_not_square|].
  split; [|done].
  intros fuel cutoff.
  rewrite matmul_strassen_unfold, matmul_strassen_winograd_unfold.
  repeat split.
  - apply nse_padded_entry; try done. intros. apply nse__strassen_core.
  - apply nse_padded_entry; try done. intros. apply nse__strassen_winograd_core.
  - rewrite answer_check_spec by done. rewrite bool_decide_true by done.
    apply nse_strassen_core.
Qed.

(** * Part IV: further properties of the code *)

(** ** The elementwise operations *)

Lemma elementwise_square op n A B :
  square n A → square n B →
  elementwise op A B = Ok (mk n (λ i j, op (entry A i j) (entry B i j))).
Proof.
  intros HA HB. apply elementwise_ok; [by destruct HA|..];
    by apply has_entries_square.
Qed.

(** X1. On square matrices of equal order [n], [add_matrix] and
    [sub_matrix] return the square matrices of order [n] whose entries are
    the sums and the differences of the entries of [A] and [B]. *)
Theorem add_sub_entrywise n A B :
  square n A → square n B →
  ∃ S D : Matrix,
    add_matrix A B = Ok S ∧ sub_matrix A B = Ok D
    ∧ square n S ∧ square n D
    ∧ ∀ i j, i < n → j < n →
        entry S i j = (entry A i j + entry B i j)%Z
        ∧ entry D i j = (entry A i j - entry B i j)%Z.
Proof.
  intros HA HB. eexists. eexists.
  split; [by apply elementwise_square|]. split; [by apply elementwise_square|].
  split; [apply square_mk|]. split; [apply square_mk|].
  intros i j Hi Hj. by rewrite !entry_mk.
Qed.

Lemma add_sub_entrywise_witness :
  ∃ S D : Matrix,
    add_matrix ex_A3 ex_B3 = Ok S ∧ sub_matrix ex_A3 ex_B3 = Ok D
    ∧ square 3 S ∧ square 3 D
    ∧ ∀ i j, i < 3 → j < 3 →
        entry S i j = (entry ex_A3 i j + entry ex_B3 i j)%Z
        ∧ entry D i j = (entry ex_A3 i j - entry ex_B3 i j)%Z.
Proof. apply (add_sub_entrywise 3 ex_A3 ex_B3); solve_square. Defined.

Lemma elementwise_mk_r op n f B :
  square n B →
  elementwise op (mk n f) B = Ok (mk n (λ i j, op (f i j) (entry B i j))).
Proof.
  intros HB. apply elementwise_ok;
    [apply length_mk | apply has_entries_mk | by apply has_entries_square].
Qed.

(** X2. Adding [B] and then subtracting it, or subtracting [B] and then
    adding it, gives [A] back. *)
Theorem add_sub_round_trip n A B :
  square n A → square n B →
  (∃ S : Matrix, add_matrix A B = Ok S ∧ sub_matrix S B = Ok A)
  ∧ (∃ D : Matrix, sub_matrix A B = Ok D ∧ add_matrix D B = Ok A).
Proof.
  intros HA HB. split; eexists;
    (split; [by apply elementwise_square|]);
    unfold add_matrix, sub_matrix;
    rewrite elementwise_mk_r by done;
    f_equal; (etrans; [|symmetry; apply (square_eq_mk n A HA)]);
    apply mk_ext; intros i j Hi Hj; lia.
Qed.

Lemma add_sub_round_trip_witness :
  (∃ S : Matrix, add_matrix ex_A3 ex_B3 = Ok S ∧ sub_matrix S ex_B3 = Ok ex_A3)
  ∧ (∃ D : Matrix, sub_matrix ex_A3 ex_B3 = Ok D ∧ add_matrix D ex_B3 = Ok ex_A3).
Proof. apply (add_sub_round_trip 3 ex_A3 ex_B3); solve_square. Defined.

Lemma mapM_Raise {T U} (f : T → result U) (g : T → U) l1 x l2 e :
  (∀ y, y ∈ l1 → f y = Ok (g y)) → f x = Raise e →
  mapM f (l1 ++ x :: l2) = Raise e.
Proof.
  intros Hl1 Hx. induction l1 as [|y l1 IH]; simpl.
  - by rewrite Hx.
  - rewrite Hl1 by left. simpl. rewrite IH; [done|].
    intros z Hz. apply Hl1. by right.
Qed.

Lemma seq_split_at n p : p < n → seq 0 n = seq 0 p ++ p :: seq (S p) (n - S p).
Proof.
  intros H. replace n with (p + S (n - S p)) at 1 by lia.
  by rewrite seq_app.
Qed.

Lemma elementwise_short op n p A B :
  square n A → square p B → p < n → elementwise op A B = Raise IndexError.
Proof.
  intros HA HB Hlt. pose proof HA as [Hlen _].
  rewrite (square_eq_mk n A HA), (square_eq_mk p B HB).
  unfold elementwise. rewrite length_mk.
  rewrite (seq_split_at n 0) at 1 by lia.
  apply (mapM_Raise _ (λ _, []) [] 0); [by intros y ?%elem_of_nil|].
  rewrite (seq_split_at n p) by lia.
  apply (mapM_Raise _ (λ j, op (entry A 0 j) (entry B 0 j))).
  - intros j Hj. apply elem_of_seq in Hj.
    rewrite (getitem_Some _ _ _ (lookup_mk n _ 0 ltac:(lia))), bind_Ok.
    rewrite (getitem_Some _ _ _ (lookup_tab _ n j ltac:(lia))), bind_Ok.
    rewrite (getitem_Some _ _ _ (lookup_mk p _ 0 ltac:(lia))), bind_Ok.
    rewrite (getitem_Some _ _ _ (lookup_tab _ p j ltac:(lia))), bind_Ok.
    done.
  - rewrite (getitem_Some _ _ _ (lookup_mk n _ 0 ltac:(lia))), bind_Ok.
    rewrite (getitem_Some _ _ _ (lookup_tab _ n p ltac:(lia))), bind_Ok.
    destruct (decide (p = 0)) as [->|Hp]; [done|].
    rewrite (getitem_Some _ _ _ (lookup_mk p _ 0 ltac:(lia))), bind_Ok.
    rewrite getitem_None; [done|]. by rewrite length_fmap, length_seq.
Qed.


(** ** Which subscripts the loops evaluate *)

Lemma bind_Ok_inv {T U} (x : result T) (k : T → result U) y :
  x ≫= k = Ok y → ∃ a, x = Ok a ∧ k a = Ok y.
Proof. destruct x as [a|e]; [|done]. intros H. by exists a. Qed.

Lemma bind_Raise_inv {T U} (x : result T) (k : T → result U) e :
  x ≫= k = Raise e → x = Raise e ∨ ∃ a, x = Ok a ∧ k a = Raise e.
Proof.
  destruct x as [a|e']; [|intros [= ->]; by left]. intros H. right. by exists a.
Qed.

Lemma getitem_Ok_inv {T} (l : list T) i x : getitem l i = Ok x → l !! i = Some x.
Proof. unfold getitem. destruct (l !! i); [by intros [= ->]|done]. Qed.

Lemma getitem_Raise_inv {T} (l : list T) i e :
  getitem l i = Raise e → e = IndexError.
Proof. unfold getitem. destruct (l !! i); [done|by intros [= <-]]. Qed.

Lemma for_each_Ok_inv {St} (body : nat → St → result St) l s s' :
  for_each body l s = Ok s' → ∀ i, i ∈ l → ∃ si si', body i si = Ok si'.
Proof.
  revert s. induction l as [|x l IH]; intros s H i Hi; [by apply elem_of_nil in Hi|].
  simpl in H. apply bind_Ok_inv in H as (s1 & H1 & H2).
  apply elem_of_cons in Hi as [->|Hi]; [by exists s, s1|by eapply IH].
Qed.

Lemma for_range_Ok_inv {St} (body : nat → St → result St) n s s' :
  for_range n body s = Ok s' → ∀ i, i < n → ∃ si si', body i si = Ok si'.
Proof.
  intros H i Hi. eapply for_each_Ok_inv; [done|]. apply elem_of_seq. lia.
Qed.

Lemma for_each_Raise_inv {St} (body : nat → St → result St) l s e :
  for_each body l s = Raise e → ∃ i si, body i si = Raise e.
Proof.
  revert s. induction l as [|x l IH]; intros s H; [done|].
  simpl in H. apply bind_Raise_inv in H as [H|(s1 & H1 & H2)];
    [by exists x, s|by eapply IH].
Qed.

Lemma mapM_Ok_inv {T U} (f : T → result U) l k :
  mapM f l = Ok k → ∀ x, x ∈ l → ∃ y, f x = Ok y.
Proof.
  revert k. induction l as [|a l IH]; intros k H x Hx; [by apply elem_of_nil in Hx|].
  simpl in H. apply bind_Ok_inv in H as (y & Hy & H).
  apply bind_Ok_inv in H as (k' & Hk' & _).
  apply elem_of_cons in Hx as [->|Hx]; [by exists y|by eapply IH].
Qed.

Lemma mapM_Raise_inv {T U} (f : T → result U) l e :
  mapM f l = Raise e → ∃ x, f x = Raise e.
Proof.
  induction l as [|a l IH]; intros H; [done|].
  simpl in H. apply bind_Raise_inv in H as [H|(y & Hy & H)]; [by exists a|].
  apply bind_Raise_inv in H as [H|(k' & Hk' & H)]; [by apply IH|done].
Qed.

Lemma has_block_lookup n M i j :
  has_block n M → i < n → j < n → ∃ row x, M !! i = Some row ∧ row !! j = Some x.
Proof.
  intros [Hlen Hrows] Hi Hj.
  destruct (lookup_lt_is_Some_2 M i) as [row Hrow]; [lia|].
  assert (n ≤ length row) as Hrowlen.
  { eapply (Forall_lookup_1 _ _ i row Hrows). by rewrite lookup_take_lt. }
  destruct (lookup_lt_is_Some_2 row j) as [x Hx]; [lia|]. by exists row, x.
Qed.

Lemma has_block_entries n M : has_block n M → has_entries n M (entry M).
Proof.
  intros H i j Hi Hj.
  destruct (has_block_lookup n M i j H Hi Hj) as (row & x & Hrow & Hx).
  exists row. split; [done|]. unfold entry. rewrite Hrow. simpl. by rewrite Hx.
Qed.

Lemma has_block_intro n M :
  (∀ i j, i < n → j < n → ∃ row x, M !! i = Some row ∧ row !! j = Some x) →
  has_block n M.
Proof.
  intros H. destruct n as [|n].
  { split; [lia|]. by rewrite take_0. }
  split.
  - destruct (H n 0) as (row & x & Hrow & _); [lia..|].
    apply lookup_lt_Some in Hrow. lia.
  - apply Forall_lookup_2. intros i row Hrow.
    apply lookup_take_Some in Hrow as [Hrow Hi].
    destruct (H i n) as (row' & x & Hrow' & Hx); [lia..|].
    apply lookup_lt_Some in Hx. naive_solver lia.
Qed.

Lemma has_block_square n p M : square p M → n ≤ p → has_block n M.
Proof.
  intros [Hlen Hrows] Hle. split; [lia|].
  apply Forall_lookup_2. intros i row Hrow.
  apply lookup_take_Some in Hrow as [Hrow _].
  rewrite (Forall_lookup_1 _ _ i row Hrows Hrow). done.
Qed.

Lemma elementwise_Ok_inv op A B C :
  elementwise op A B = Ok C → has_block (length A) A ∧ has_block (length A) B.
Proof.
  intros H. unfold elementwise in H.
  assert (∀ i j, i < length A → j < length A →
            (∃ row x, A !! i = Some row ∧ row !! j = Some x)
            ∧ (∃ row x, B !! i = Some row ∧ row !! j = Some x)) as Hall.
  { intros i j Hi Hj.
    destruct (mapM_Ok_inv _ _ _ H i) as (row & Hrow); [apply elem_of_seq; lia|].
    destruct (mapM_Ok_inv _ _ _ Hrow j) as (x & Hx); [apply elem_of_seq; lia|].
    apply bind_Ok_inv in Hx as (Ai & HAi%getitem_Ok_inv & Hx).
    apply bind_Ok_inv in Hx as (aij & Haij%getitem_Ok_inv & Hx).
    apply bind_Ok_inv in Hx as (Bi & HBi%getitem_Ok_inv & Hx).
    apply bind_Ok_inv in Hx as (bij & Hbij%getitem_Ok_inv & Hx).
    naive_solver. }
  split; apply has_block_intro; intros i j Hi Hj; by apply Hall.
Qed.

Lemma elementwise_Raise_inv op A B e :
  elementwise op A B = Raise e → e = IndexError.
Proof.
  intros H. unfold elementwise in H.
  apply mapM_Raise_inv in H as (i & H).
  apply mapM_Raise_inv in H as (j & H).
  repeat (apply bind_Raise_inv in H as [H%getitem_Raise_inv|(? & _ & H)];
          [done|]).
  done.
Qed.

(** X3. [add_matrix] and [sub_matrix] take the order [n] from [A] alone and
    compare no shapes.  Whatever the operands, even ragged ones: when both
    contain a leading [n]-by-[n] block, the result is the square matrix of
    order [n] of the sums (differences) over these blocks, and what lies
    outside the blocks is ignored; otherwise a subscript goes out of range
    and [IndexError] is raised. *)
Theorem elementwise_leading_blocks A B :
  let n := length A in
  (add_matrix A B
   = if decide (has_block n A ∧ has_block n B)
     then Ok (mk n (λ i j, entry A i j + entry B i j)%Z)
     else Raise IndexError)
  ∧ (sub_matrix A B
     = if decide (has_block n A ∧ has_block n B)
       then Ok (mk n (λ i j, entry A i j - entry B i j)%Z)
       else Raise IndexError).
Proof.
  intros n. unfold add_matrix, sub_matrix. case_decide as Hb.
  - destruct Hb as [HA HB].
    split; by apply elementwise_ok; [|apply has_block_entries..].
  - split.
    + destruct (elementwise Z.add A B) as [C|e] eqn:H.
      * by apply elementwise_Ok_inv in H.
      * by apply elementwise_Raise_inv in H as ->.
    + destruct (elementwise Z.sub A B) as [C|e] eqn:H.
      * by apply elementwise_Ok_inv in H.
      * by apply elementwise_Raise_inv in H as ->.
Qed.

Lemma matmul_classic_Ok_inv A B C :
  matmul_classic A B = Ok C → has_block (length A) A ∧ has_block (length A) B.
Proof.
  intros H. unfold matmul_classic in H.
  assert (∀ i k j, i < length A → k < length A → j < length A →
            (∃ row x, A !! i = Some row ∧ row !! k = Some x)
            ∧ (∃ row x, B !! k = Some row ∧ row !! j = Some x)) as Hall.
  { intros i k j Hi Hk Hj.
    destruct (for_range_Ok_inv _ _ _ _ H i Hi) as (C1 & C2 & H1).
    apply bind_Ok_inv in H1 as (rowA & HrowA%getitem_Ok_inv & H1).
    apply bind_Ok_inv in H1 as (Ci & _ & H1).
    apply bind_Ok_inv in H1 as (Ci' & H2 & _).
    destruct (for_range_Ok_inv _ _ _ _ H2 k Hk) as (r1 & r2 & H3).
    apply bind_Ok_inv in H3 as (aik & Haik%getitem_Ok_inv & H3).
    apply bind_Ok_inv in H3 as (Bk & HBk%getitem_Ok_inv & H3).
    destruct (for_range_Ok_inv _ _ _ _ H3 j Hj) as (r3 & r4 & H4).
    apply bind_Ok_inv in H4 as (cij & _ & H4).
    apply bind_Ok_inv in H4 as (bkj & Hbkj%getitem_Ok_inv & _).
    naive_solver. }
  split; apply has_block_intro; intros i j Hi Hj.
  - by apply (Hall i j j).
  - by apply (Hall i i j).
Qed.

Lemma matmul_classic_Raise_inv A B e :
  matmul_classic A B = Raise e → e = IndexError.
Proof.
  intros H. unfold matmul_classic, for_range in H.
  apply for_each_Raise_inv in H as (i & C1 & H).
  apply bind_Raise_inv in H as [H%getitem_Raise_inv|(rowA & _ & H)]; [done|].
  apply bind_Raise_inv in H as [H%getitem_Raise_inv|(Ci & _ & H)]; [done|].
  apply bind_Raise_inv in H as [H|(? & _ & H)]; [|done].
  apply for_each_Raise_inv in H as (k & r1 & H).
  apply bind_Raise_inv in H as [H%getitem_Raise_inv|(aik & _ & H)]; [done|].
  apply bind_Raise_inv in H as [H%getitem_Raise_inv|(Bk & _ & H)]; [done|].
  apply for_each_Raise_inv in H as (j & r2 & H).
  apply bind_Raise_inv in H as [H%getitem_Raise_inv|(cij & _ & H)]; [done|].
  apply bind_Raise_inv in H as [H%getitem_Raise_inv|(bkj & _ & H)]; [done|].
  done.
Qed.

(** X4. [matmul_classic] takes the order [n] from [A] alone and checks no
    shapes.  Whatever the operands, even ragged ones: when both contain a
    leading [n]-by-[n] block, the result is the product of these blocks, a
    square matrix of order [n]; otherwise a subscript goes out of range and
    [IndexError] is raised.  No other exception is raised and no matrix of
    another shape is returned. *)
Theorem matmul_classic_leading_blocks A B :
  let n := length A in
  matmul_classic A B
  = if decide (has_block n A ∧ has_block n B)
    then Ok (mk n (fprod n (entry A) (entry B)))
    else Raise IndexError.
Proof.
  intros n. case_decide as Hb.
  - destruct Hb as [HA HB].
    by apply matmul_classic_ok; [|apply has_block_entries..].
  - destruct (matmul_classic A B) as [C|e] eqn:H.
    + by apply matmul_classic_Ok_inv in H.
    + by apply matmul_classic_Raise_inv in H as ->.
Qed.

(** ** Algebraic laws of the operations *)

Lemma bigsum_delta_r n (f : nat → Z) j :
  j < n → bigsum n (λ k, f k * (if decide (k = j) then 1 else 0))%Z = f j.
Proof.
  intros Hj. induction n as [|n IH]; [lia|]. simpl.
  destruct (decide (n = j)) as [->|Hne].
  - rewrite bigsum_zero; [lia|]. intros k Hk. rewrite decide_False by lia. lia.
  - rewrite IH by lia. lia.
Qed.

Lemma bigsum_delta_l n (f : nat → Z) i :
  i < n → bigsum n (λ k, (if decide (i = k) then 1 else 0) * f k)%Z = f i.
Proof.
  intros Hi. rewrite <- (bigsum_delta_r n f i Hi). apply bigsum_ext.
  intros k Hk. destruct (decide (i = k)), (decide (k = i)); lia.
Qed.

Lemma bigsum_mul_l n c f : (c * bigsum n f)%Z = bigsum n (λ k, c * f k)%Z.
Proof. induction n as [|n IH]; simpl; [lia|]. rewrite <- IH. lia. Qed.

Lemma bigsum_mul_r n c f : (bigsum n f * c)%Z = bigsum n (λ k, f k * c)%Z.
Proof. induction n as [|n IH]; simpl; [lia|]. rewrite <- IH. lia. Qed.

Lemma bigsum_swap n m (f : nat → nat → Z) :
  bigsum n (λ k, bigsum m (λ l, f k l)) = bigsum m (λ l, bigsum n (λ k, f k l)).
Proof.
  induction n as [|n IH]; simpl.
  - by rewrite bigsum_zero.
  - by rewrite IH, bigsum_plus.
Qed.

Lemma fprod_identity_r n f i j :
  i < n → j < n →
  fprod n f (λ i j, if decide (i = j) then 1 else 0)%Z i j = f i j.
Proof. intros Hi Hj. unfold fprod. by rewrite (bigsum_delta_r n (f i) j). Qed.

Lemma fprod_identity_l n f i j :
  i < n → j < n →
  fprod n (λ i j, if decide (i = j) then 1 else 0)%Z f i j = f i j.
Proof.
  intros Hi Hj. unfold fprod. by rewrite (bigsum_delta_l n (λ k, f k j) i).
Qed.

Lemma matrix_product_identity n A :
  square n A →
  matrix_product A (identity n) = A ∧ matrix_product (identity n) A = A.
Proof.
  intros HA. pose proof HA as [Hlen _]. unfold matrix_product.
  unfold identity. rewrite length_mk, Hlen.
  split; (etrans; [|symmetry; apply (square_eq_mk n A HA)]);
    apply mk_ext; intros i j Hi Hj.
  - rewrite <- (fprod_identity_r n (entry A) i j Hi Hj).
    apply bigsum_ext. intros k Hk. unfold identity. by rewrite entry_mk.
  - rewrite <- (fprod_identity_l n (entry A) i j Hi Hj).
    apply bigsum_ext. intros k Hk. unfold identity. by rewrite entry_mk.
Qed.

(** X5. Multiplying a square matrix by the identity matrix of its order,
    on either side, returns the matrix itself, with each of the four
    multiplication routines. *)
Theorem identity_is_neutral n fuel A cutoff :
  square n A → (1 ≤ cutoff)%Z → 2 * n ≤ 2 ^ fuel →
  (matmul_classic A (identity n) = Ok A
   ∧ matmul_classic (identity n) A = Ok A)
  ∧ (Benchmark.matmul_strassen fuel A (identity n) cutoff = Ok A
     ∧ Benchmark.matmul_strassen fuel (identity n) A cutoff = Ok A)
  ∧ (Benchmark.matmul_strassen_winograd fuel A (identity n) cutoff = Ok A
     ∧ Benchmark.matmul_strassen_winograd fuel (identity n) A cutoff = Ok A)
  ∧ (Answer.matmul_strassen fuel A (identity n) cutoff = Ok A
     ∧ Answer.matmul_strassen fuel (identity n) A cutoff = Ok A).
Proof.
  intros HA Hcut Hfuel.
  destruct (matrix_product_identity n A HA) as [Hr Hl].
  assert (square n (identity n)) as HI by apply square_mk.
  rewrite !(matmul_classic_square n), !(benchmark_strassen_ok n),
    !(benchmark_winograd_ok n), !(answer_strassen_ok n) by done.
  by rewrite Hr, Hl.
Qed.

Lemma identity_is_neutral_witness :
  (matmul_classic ex_A3 (identity 3) = Ok ex_A3
   ∧ matmul_classic (identity 3) ex_A3 = Ok ex_A3)
  ∧ (Benchmark.matmul_strassen 3 ex_A3 (identity 3) 1 = Ok ex_A3
     ∧ Benchmark.matmul_strassen 3 (identity 3) ex_A3 1 = Ok ex_A3)
  ∧ (Benchmark.matmul_strassen_winograd 3 ex_A3 (identity 3) 1 = Ok ex_A3
     ∧ Benchmark.matmul_strassen_winograd 3 (identity 3) ex_A3 1 = Ok ex_A3)
  ∧ (Answer.matmul_strassen 3 ex_A3 (identity 3) 1 = Ok ex_A3
     ∧ Answer.matmul_strassen 3 (identity 3) ex_A3 1 = Ok ex_A3).
Proof.
  apply (identity_is_neutral 3 3 ex_A3 1); [solve_square | lia | simpl; lia].
Defined.

(** X6. [matmul_classic] distributes over [add_matrix] and over
    [sub_matrix], on the left and on the right: multiplying by a sum
    (difference) gives what adding (subtracting) the two products gives. *)
Theorem matmul_classic_distributes n A B C :
  square n A → square n B → square n C →
  (∃ R : Matrix,
     (S ← add_matrix B C; matmul_classic A S) = Ok R
     ∧ (P ← matmul_classic A B; Q ← matmul_classic A C; add_matrix P Q) = Ok R)
  ∧ (∃ R : Matrix,
       (S ← add_matrix A B; matmul_classic S C) = Ok R
       ∧ (P ← matmul_classic A C; Q ← matmul_classic B C; add_matrix P Q)
         = Ok R)
  ∧ (∃ R : Matrix,
       (S ← sub_matrix B C; matmul_classic A S) = Ok R
       ∧ (P ← matmul_classic A B; Q ← matmul_classic A C; sub_matrix P Q)
         = Ok R)
  ∧ (∃ R : Matrix,
       (S ← sub_matrix A B; matmul_classic S C) = Ok R
       ∧ (P ← matmul_classic A C; Q ← matmul_classic B C; sub_matrix P Q)
         = Ok R).
Proof.
  intros HA HB HC.
  rewrite (square_eq_mk n A HA), (square_eq_mk n B HB), (square_eq_mk n C HC).
  generalize (entry A) (entry B) (entry C). intros a b c.
  rewrite !add_matrix_mk, !sub_matrix_mk, !bind_Ok.
  rewrite !matmul_classic_mk, !bind_Ok.
  rewrite !add_matrix_mk, !sub_matrix_mk.
  split_and!; eexists; (split; [reflexivity|]); f_equal;
    apply mk_ext; intros i j Hi Hj; unfold fprod;
    rewrite ?bigsum_plus, ?bigsum_minus; apply bigsum_ext; intros k Hk; lia.
Qed.

Lemma matmul_classic_distributes_witness :
  (∃ R : Matrix,
     (S ← add_matrix ex_B3 ex_A3B3; matmul_classic ex_A3 S) = Ok R
     ∧ (P ← matmul_classic ex_A3 ex_B3; Q ← matmul_classic ex_A3 ex_A3B3;
        add_matrix P Q) = Ok R)
  ∧ (∃ R : Matrix,
       (S ← add_matrix ex_A3 ex_B3; matmul_classic S ex_A3B3) = Ok R
       ∧ (P ← matmul_classic ex_A3 ex_A3B3; Q ← matmul_classic ex_B3 ex_A3B3;
          add_matrix P Q) = Ok R)
  ∧ (∃ R : Matrix,
       (S ← sub_matrix ex_B3 ex_A3B3; matmul_classic ex_A3 S) = Ok R
       ∧ (P ← matmul_classic ex_A3 ex_B3; Q ← matmul_classic ex_A3 ex_A3B3;
          sub_matrix P Q) = Ok R)
  ∧ (∃ R : Matrix,
       (S ← sub_matrix ex_A3 ex_B3; matmul_classic S ex_A3B3) = Ok R
       ∧ (P ← matmul_classic ex_A3 ex_A3B3; Q ← matmul_classic ex_B3 ex_A3B3;
          sub_matrix P Q) = Ok R).
Proof.
  apply (matmul_classic_distributes 3 ex_A3 ex_B3 ex_A3B3); solve_square.
Defined.

(** X7. [matmul_classic] is associative on square matrices of equal
    order: multiplying the product of [A] and [B] by [C] gives what
    multiplying [A] by the product of [B] and [C] gives. *)
Theorem matmul_classic_associative n A B C :
  square n A → square n B → square n C →
  ∃ R : Matrix,
    (P ← matmul_classic A B; matmul_classic P C) = Ok R
    ∧ (Q ← matmul_classic B C; matmul_classic A Q) = Ok R.
Proof.
  intros HA HB HC.
  rewrite (square_eq_mk n A HA), (square_eq_mk n B HB), (square_eq_mk n C HC).
  generalize (entry A) (entry B) (entry C). intros a b c.
  rewrite !matmul_classic_mk, !bind_Ok, !matmul_classic_mk.
  eexists. split; [reflexivity|]. f_equal.
  apply mk_ext. intros i j Hi Hj. unfold fprod.
  trans (bigsum n (λ l, bigsum n (λ k, a i l * (b l k * c k j))%Z)).
  { apply bigsum_ext. intros l Hl. cbv beta. by rewrite bigsum_mul_l. }
  rewrite bigsum_swap. apply bigsum_ext. intros k Hk. cbv beta.
  rewrite bigsum_mul_r. apply bigsum_ext. intros l Hl. lia.
Qed.

Lemma matmul_classic_associative_witness :
  ∃ R : Matrix,
    (P ← matmul_classic ex_A3 ex_B3; matmul_classic P ex_A3B3) = Ok R
    ∧ (Q ← matmul_classic ex_B3 ex_A3B3; matmul_classic ex_A3 Q) = Ok R.
Proof.
  apply (matmul_classic_associative 3 ex_A3 ex_B3 ex_A3B3); solve_square.
Defined.

(** ** Splitting and gluing, padding and cropping *)

Lemma tab_lookup_take (A : Matrix) m :
  m ≤ length A → (λ i, default [] (A !! i)) <$> seq 0 m = take m A.
Proof.
  intros Hm. apply list_eq. intros i.
  destruct (decide (i < m)) as [Hi|Hi].
  - rewrite lookup_tab by done. rewrite lookup_take_lt by done.
    destruct (lookup_lt_is_Some_2 A i) as [row Hrow]; [lia|]. by rewrite Hrow.
  - rewrite !lookup_ge_None_2; [done|..].
    + rewrite length_take. lia.
    + rewrite length_fmap, length_seq. lia.
Qed.

Lemma glue_rows_take_drop m (rows : Matrix) :
  m ≤ length rows →
  glue_rows m (take m <$> rows) (drop m <$> rows) = Ok (take m rows).
Proof.
  intros Hm. unfold glue_rows. rewrite <- (tab_lookup_take rows m Hm).
  apply mapM_Ok. intros i Hi. apply elem_of_seq in Hi.
  destruct (lookup_lt_is_Some_2 rows i) as [row Hrow]; [lia|].
  rewrite (getitem_Some (take m <$> rows) i (take m row)), bind_Ok
    by (by rewrite list_lookup_fmap, Hrow).
  rewrite (getitem_Some (drop m <$> rows) i (drop m row)), bind_Ok
    by (by rewrite list_lookup_fmap, Hrow).
  by rewrite Hrow, take_drop.
Qed.

(** X8. Gluing the four quadrants of a matrix back together gives the
    matrix itself when it has an even number of rows, and the matrix
    without its last row when the number is odd; this holds for every
    matrix, whatever the lengths of its rows. *)
Theorem split_glue_round_trip (A : Matrix) :
  let m := length A / 2 in
  glue m (quad11 m A) (quad12 m A) (quad21 m A) (quad22 m A)
  = Ok (if decide (length A `mod` 2 = 0) then A else take (length A - 1) A).
Proof.
  intros m. pose proof (Nat.div_mod_eq (length A) 2) as Hdiv.
  pose proof (Nat.mod_upper_bound (length A) 2) as Hmod.
  unfold glue, quad11, quad12, quad21, quad22.
  rewrite (glue_rows_take_drop m (take m A)), bind_Ok
    by (rewrite length_take; lia).
  rewrite (glue_rows_take_drop m (drop m A)), bind_Ok
    by (rewrite length_drop; lia).
  f_equal. rewrite take_take, Nat.min_id.
  assert (take m A ++ take m (drop m A) = take (m + m) A) as ->.
  { rewrite take_drop_commute.
    rewrite <- (take_drop m (take (m + m) A)) at 2.
    rewrite take_take. by replace (m `min` (m + m)) with m by lia. }
  case_decide.
  - apply take_ge. lia.
  - f_equal. lia.
Qed.

Lemma pad_small n m (A : Matrix) :
  (m ≤ Z.of_nat n)%Z → Benchmark.pad (Z.of_nat n) m A = A.
Proof.
  intros Hle. unfold Benchmark.pad, Benchmark.zeros.
  replace (Z.to_nat (m - Z.of_nat n)) with 0 by lia. simpl.
  rewrite app_nil_r. rewrite <- (list_fmap_id A) at 2.
  apply list_fmap_ext. intros i row _. simpl. apply app_nil_r.
Qed.

(** X9. Padding a square matrix of order [n] to any order [m] and
    cropping the result to order [n] gives the matrix back; the padded
    matrix is square of order [max(n, m)], so a target order below [n]
    pads nothing. *)
Theorem pad_crop_round_trip n (m : Z) A :
  square n A →
  Benchmark.crop n (Benchmark.pad (Z.of_nat n) m A) = A
  ∧ square (Z.to_nat (Z.max (Z.of_nat n) m))
      (Benchmark.pad (Z.of_nat n) m A).
Proof.
  intros HA. destruct (decide (m ≤ Z.of_nat n)%Z) as [Hle|Hgt].
  - rewrite pad_small by done.
    replace (Z.to_nat (Z.max (Z.of_nat n) m)) with n by lia.
    split; [|done]. rewrite (square_eq_mk n A HA). by apply crop_mk.
  - replace (Z.to_nat (Z.max (Z.of_nat n) m)) with (Z.to_nat m) by lia.
    assert (Benchmark.pad (Z.of_nat n) m A
            = mk (Z.to_nat m) (padded n (entry A))) as ->.
    { rewrite (square_eq_mk n A HA) at 1.
      rewrite <- (Z2Nat.id m) at 1 by lia. apply pad_mk. lia. }
    split; [|apply square_mk].
    rewrite crop_mk by lia. etrans; [|symmetry; apply (square_eq_mk n A HA)].
    apply mk_ext. intros i j Hi Hj. unfold padded.
    by rewrite !decide_True.
Qed.

Lemma pad_crop_round_trip_witness :
  Benchmark.crop 3 (Benchmark.pad (Z.of_nat 3) 4 ex_A3) = ex_A3
  ∧ square (Z.to_nat (Z.max (Z.of_nat 3) 4)) (Benchmark.pad (Z.of_nat 3) 4 ex_A3).
Proof. apply (pad_crop_round_trip 3 4 ex_A3). solve_square. Defined.

(** X10. The entry points of [matrix_benchmark.py] pad exactly when the
    order is not a power of two.  For square operands of order [n >= 1],
    whatever the cutoff and the recursion budget: at a power of two the
    entry point is the core on the operands as they are; otherwise it is
    the core on the operands padded to [1 << (n - 1).bit_length()],
    followed by the crop. *)
Theorem padding_iff_not_power_of_two n fuel A B cutoff :
  square n A → square n B → 1 ≤ n →
  let m := Z.shiftl 1 (bit_length (Z.of_nat n - 1)) in
  let Ap := Benchmark.pad (Z.of_nat n) m A in
  let Bp := Benchmark.pad (Z.of_nat n) m B in
  (power_of_two n →
     Benchmark.matmul_strassen fuel A B cutoff
     = Benchmark._strassen_core fuel A B cutoff
     ∧ Benchmark.matmul_strassen_winograd fuel A B cutoff
       = Benchmark._strassen_winograd_core fuel A B cutoff)
  ∧ (¬ power_of_two n →
       Benchmark.matmul_strassen fuel A B cutoff
       = (Cp ← Benchmark._strassen_core fuel Ap Bp cutoff;
          Ok (Benchmark.crop n Cp))
       ∧ Benchmark.matmul_strassen_winograd fuel A B cutoff
         = (Cp ← Benchmark._strassen_winograd_core fuel Ap Bp cutoff;
            Ok (Benchmark.crop n Cp))).
Proof.
  intros HA HB Hn m Ap Bp.
  pose proof (shape_assert_square n A B Hn HA HB) as Hshape.
  pose proof HA as [Hlen _].
  rewrite matmul_strassen_unfold, matmul_strassen_winograd_unfold.
  unfold padded_entry. rewrite Hshape, !bind_Ok, Hlen.
  rewrite !(bool_decide_false (n = 0)) by lia.
  split.
  - intros [k ->]. rewrite !bool_decide_false; [done|..];
      intros H; apply H, power_of_two_land_pred.
  - intros Hpow. rewrite !bool_decide_true; [done|..];
      intros H; apply Hpow, land_pred_power_of_two; done || lia.
Qed.

Lemma padding_iff_not_power_of_two_witness :
  let m := Z.shiftl 1 (bit_length ((Z.of_nat 3) - 1)) in
  let Ap := Benchmark.pad (Z.of_nat 3) m ex_A3 in
  let Bp := Benchmark.pad (Z.of_nat 3) m ex_B3 in
  (power_of_two 3 →
     Benchmark.matmul_strassen 3 ex_A3 ex_B3 1
     = Benchmark._strassen_core 3 ex_A3 ex_B3 1
     ∧ Benchmark.matmul_strassen_winograd 3 ex_A3 ex_B3 1
       = Benchmark._strassen_winograd_core 3 ex_A3 ex_B3 1)
  ∧ (¬ power_of_two 3 →
       Benchmark.matmul_strassen 3 ex_A3 ex_B3 1
       = (Cp ← Benchmark._strassen_core 3 Ap Bp 1;
          Ok (Benchmark.crop 3 Cp))
       ∧ Benchmark.matmul_strassen_winograd 3 ex_A3 ex_B3 1
         = (Cp ← Benchmark._strassen_winograd_core 3 Ap Bp 1;
            Ok (Benchmark.crop 3 Cp))).
Proof.
  apply (padding_iff_not_power_of_two 3 3 ex_A3 ex_B3 1);
    [solve_square | solve_square | lia].
Defined.

(** ** The cores away from the powers of two *)

Lemma reaches_cutoff_le n cutoff :
  (Z.of_nat n ≤ cutoff)%Z → reaches_cutoff n cutoff.
Proof. intros H. exists n, 0. simpl. split; [lia|done]. Qed.

Lemma reaches_cutoff_double m cutoff :
  reaches_cutoff m cutoff → reaches_cutoff (m + m) cutoff.
Proof.
  intros (q & k & -> & Hq). exists q, (S k). rewrite pow2_S. split; [lia|done].
Qed.

Lemma reaches_cutoff_half m cutoff :
  reaches_cutoff (m + m) cutoff → (cutoff < Z.of_nat (m + m))%Z →
  reaches_cutoff m cutoff.
Proof.
  intros (q & k & Hn & Hq) Hcut. destruct k as [|k].
  - simpl in Hn. lia.
  - exists q, k. rewrite pow2_S in Hn. split; [lia|done].
Qed.

Lemma reaches_cutoff_odd m cutoff :
  reaches_cutoff (m + S m) cutoff → (Z.of_nat (m + S m) ≤ cutoff)%Z.
Proof.
  intros (q & k & Hn & Hq). destruct k as [|k].
  - simpl in Hn. lia.
  - rewrite pow2_S in Hn. lia.
Qed.

Lemma quad11_mk_le m n f : m ≤ n → quad11 m (mk n f) = mk m f.
Proof.
  intros Hle. unfold quad11, mk. rewrite take_tab by done.
  rewrite <- list_fmap_compose. apply tab_ext. intros i Hi. simpl.
  by apply take_tab.
Qed.

Lemma quad22_mk_gen m m' f :
  quad22 m (mk (m + m') f) = mk m' (λ i j, f (m + i) (m + j)).
Proof.
  unfold quad22, mk. rewrite drop_tab.
  rewrite <- list_fmap_compose. apply tab_ext. intros i Hi. simpl.
  apply drop_tab.
Qed.

Lemma quad12_entries m m' f :
  m ≤ m' →
  length (quad12 m (mk (m + m') f)) = m
  ∧ has_entries m (quad12 m (mk (m + m') f)) (λ i j, f i (m + j)).
Proof.
  intros Hle. unfold quad12, mk. rewrite take_tab by lia.
  rewrite <- list_fmap_compose. split; [by rewrite length_fmap, length_seq|].
  intros i j Hi Hj. eexists. rewrite lookup_tab by done. split; [done|].
  simpl. rewrite drop_tab. by rewrite lookup_tab by lia.
Qed.

Lemma quad21_short m m' f :
  m < m' → ¬ has_block (length (quad21 m (mk (m + m') f)))
              (quad21 m (mk (m + m') f)).
Proof.
  intros Hlt. unfold quad21, mk. rewrite drop_tab.
  rewrite <- list_fmap_compose, length_fmap, length_seq.
  intros [_ Hrows].
  assert (m' ≤ length (take m (f (m + 0) <$> seq 0 (m + m')))) as Hlen.
  { eapply (Forall_lookup_1 _ _ 0 _ Hrows).
    rewrite lookup_take_lt by lia. by rewrite lookup_tab by lia. }
  rewrite length_take in Hlen. lia.
Qed.

Lemma elementwise_no_block op A B :
  ¬ has_block (length A) A → elementwise op A B = Raise IndexError.
Proof.
  intros Hno. destruct (elementwise op A B) as [C|e] eqn:H.
  - apply elementwise_Ok_inv in H as [? _]. done.
  - by apply elementwise_Raise_inv in H as ->.
Qed.

Lemma elementwise_mk_le op m m' f g :
  m ≤ m' →
  elementwise op (mk m f) (mk m' g) = Ok (mk m (λ i j, op (f i j) (g i j))).
Proof.
  intros Hle. apply elementwise_ok; [apply length_mk | apply has_entries_mk|].
  apply (has_entries_le m m'); [done | apply has_entries_mk].
Qed.

Lemma half_odd m : (m + S m) / 2 = m.
Proof.
  replace (m + S m) with (1 + m * 2) by lia.
  rewrite Nat.div_add by lia. done.
Qed.

Lemma split_order n :
  n `mod` 2 = 0 ∧ n = n / 2 + n / 2 ∨ n `mod` 2 = 1 ∧ n = n / 2 + S (n / 2).
Proof.
  pose proof (Nat.div_mod_eq n 2). pose proof (Nat.mod_upper_bound n 2). lia.
Qed.

Lemma add_matrix_mk_le m m' f g :
  m ≤ m' → add_matrix (mk m f) (mk m' g) = Ok (mk m (λ i j, f i j + g i j)%Z).
Proof. apply elementwise_mk_le. Qed.

Lemma add_matrix_quad21_short m m' f B :
  m < m' → add_matrix (quad21 m (mk (m + m') f)) B = Raise IndexError.
Proof. intros H. by apply elementwise_no_block, quad21_short. Qed.

(** At an odd order the first sum over the lower quadrants fails: [a21]
    has one row more than its rows are long. *)
Lemma strassen_step_odd (rec : Matrix → Matrix → result Matrix) m f g :
  (∀ f g, (∃ C, rec (mk m f) (mk m g) = Ok C)
          ∨ rec (mk m f) (mk m g) = Raise IndexError) →
  strassen_step rec (mk (m + S m) f) (mk (m + S m) g) = Raise IndexError.
Proof.
  intros Hrec. unfold strassen_step. rewrite length_mk, half_odd.
  rewrite !quad11_mk_le, !quad22_mk_gen by lia.
  rewrite !(add_matrix_mk_le m (S m)), !bind_Ok by lia.
  rewrite !add_matrix_quad21_short by lia.
  match goal with
  | |- context [rec ?x ?y] =>
      destruct (Hrec _ _ : _ ∨ rec x y = _) as [[C ->]| ->]
  end; done.
Qed.

Lemma winograd_step_odd (rec : Matrix → Matrix → result Matrix) m f g :
  Benchmark.winograd_step rec (mk (m + S m) f) (mk (m + S m) g)
  = Raise IndexError.
Proof.
  unfold Benchmark.winograd_step. rewrite length_mk, half_odd.
  rewrite !quad11_mk_le, !quad22_mk_gen by lia.
  destruct (quad12_entries m (S m) f) as [Hlena Ha]; [lia|].
  destruct (quad12_entries m (S m) g) as [Hlenb Hb]; [lia|].
  assert (sub_matrix (quad12 m (mk (m + S m) g))
            (mk (S m) (λ i j, g (m + i) (m + j)))
          = Ok (mk m (λ i j, g i (m + j)%nat - g (m + i)%nat (m + j)%nat)%Z)) as ->.
  { apply elementwise_ok; [done..|].
    apply (has_entries_le m (S m)); [lia | apply has_entries_mk]. }
  assert (add_matrix (mk m f) (quad12 m (mk (m + S m) f))
          = Ok (mk m (λ i j, f i j + f i (m + j)%nat)%Z)) as ->.
  { apply elementwise_ok; [apply length_mk | apply has_entries_mk | done]. }
  rewrite !bind_Ok. by rewrite !add_matrix_quad21_short by lia.
Qed.

(** At an even order whose half fails, the first recursive call fails. *)
Lemma strassen_step_fails (rec : Matrix → Matrix → result Matrix) m f g e :
  (∀ f g, rec (mk m f) (mk m g) = Raise e) →
  strassen_step rec (mk (m + m) f) (mk (m + m) g) = Raise e.
Proof.
  intros Hrec. unfold strassen_step. rewrite length_mk, half_double.
  rewrite !quad11_mk, !quad12_mk, !quad21_mk, !quad22_mk.
  rewrite !add_matrix_mk, !bind_Ok, !Hrec. done.
Qed.

Lemma winograd_step_fails (rec : Matrix → Matrix → result Matrix) m f g e :
  (∀ f g, rec (mk m f) (mk m g) = Raise e) →
  Benchmark.winograd_step rec (mk (m + m) f) (mk (m + m) g) = Raise e.
Proof.
  intros Hrec. unfold Benchmark.winograd_step. rewrite length_mk, half_double.
  rewrite !quad11_mk, !quad12_mk, !quad21_mk, !quad22_mk.
  rewrite !add_matrix_mk, !sub_matrix_mk, !bind_Ok, !Hrec. done.
Qed.

Lemma _strassen_core_by_order : core_by_order Benchmark._strassen_core.
Proof.
  intros fuel. induction fuel as [|fuel IH]; intros n f g cutoff Hn Hfuel Hcut;
    [simpl in Hfuel; lia|].
  rewrite _strassen_core_S, length_mk. rewrite pow2_S in Hfuel.
  case_bool_decide as Hle.
  { left. split; [by apply reaches_cutoff_le | apply matmul_classic_mk]. }
  destruct (split_order n) as [[_ Hhalf]|[_ Hhalf]];
    set (m := n / 2) in *; clearbody m; subst n.
  - assert (∀ f g, _) as Hrec by (intros f' g'; apply (IH m f' g' cutoff); lia).
    destruct (Hrec f g) as [[Hr _]|[Hnr _]].
    + left. split; [by apply reaches_cutoff_double|].
      apply strassen_step_ok. intros f' g'.
      by destruct (Hrec f' g') as [[_ ?]|[? _]].
    + right. split; [intros H; apply Hnr, reaches_cutoff_half; [done|lia]|].
      apply strassen_step_fails. intros f' g'.
      by destruct (Hrec f' g') as [[? _]|[_ ?]].
  - right. split; [intros H%reaches_cutoff_odd; lia|].
    apply strassen_step_odd. intros f' g'.
    destruct (IH m f' g' cutoff) as [[_ ->]|[_ ->]]; [lia..| |]; eauto.
Qed.

Lemma _strassen_winograd_core_by_order :
  core_by_order Benchmark._strassen_winograd_core.
Proof.
  intros fuel. induction fuel as [|fuel IH]; intros n f g cutoff Hn Hfuel Hcut;
    [simpl in Hfuel; lia|].
  rewrite _strassen_winograd_core_S, length_mk. rewrite pow2_S in Hfuel.
  case_bool_decide as Hle.
  { left. split; [by apply reaches_cutoff_le | apply matmul_classic_mk]. }
  destruct (split_order n) as [[_ Hhalf]|[_ Hhalf]];
    set (m := n / 2) in *; clearbody m; subst n.
  - assert (∀ f g, _) as Hrec by (intros f' g'; apply (IH m f' g' cutoff); lia).
    destruct (Hrec f g) as [[Hr _]|[Hnr _]].
    + left. split; [by apply reaches_cutoff_double|].
      apply winograd_step_ok. intros f' g'.
      by destruct (Hrec f' g') as [[_ ?]|[? _]].
    + right. split; [intros H; apply Hnr, reaches_cutoff_half; [done|lia]|].
      apply winograd_step_fails. intros f' g'.
      by destruct (Hrec f' g') as [[? _]|[_ ?]].
  - right. split; [intros H%reaches_cutoff_odd; lia|].
    apply winograd_step_odd.
Qed.

(** X11. The cores of [matrix_benchmark.py] return the product at every
    order [q * 2 ^ k] with [q] at most the cutoff, not only at the powers
    of two the entry points hand them. *)
Theorem cores_reach_cutoff n fuel A B cutoff :
  square n A → square n B → 0 < n → n < 2 ^ fuel → (1 ≤ cutoff)%Z →
  reaches_cutoff n cutoff →
  Benchmark._strassen_core fuel A B cutoff = Ok (matrix_product A B)
  ∧ Benchmark._strassen_winograd_core fuel A B cutoff
    = Ok (matrix_product A B).
Proof.
  intros HA HB Hn Hfuel Hcut Hr.
  rewrite (square_eq_mk n A HA), (square_eq_mk n B HB), matrix_product_mk.
  split.
  - by destruct (_strassen_core_by_order fuel n (entry A) (entry B) cutoff)
      as [[_ ?]|[? _]].
  - by destruct (_strassen_winograd_core_by_order fuel n (entry A) (entry B)
                   cutoff) as [[_ ?]|[? _]].
Qed.

Lemma cores_reach_cutoff_witness :
  let A := mk 6 (λ i j, Z.of_nat (i + 2 * j)) in
  Benchmark._strassen_core 3 A (identity 6) 3
  = Ok (matrix_product A (identity 6))
  ∧ Benchmark._strassen_winograd_core 3 A (identity 6) 3
    = Ok (matrix_product A (identity 6)).
Proof.
  apply (cores_reach_cutoff 6 3 _ (identity 6) 3);
    [apply square_mk | apply square_mk | lia | simpl; lia | lia |].
  exists 3, 1. split; [reflexivity | lia].
Defined.

Lemma three_above_cutoff_one : ¬ reaches_cutoff 3 1.
Proof. intros H%(reaches_cutoff_odd 1). lia. Qed.

(** X12. At every other order the cores of [matrix_benchmark.py] raise
    [IndexError]: when the halvings of [n] meet an odd order above the
    cutoff, the rows below the middle are split into blocks that are not
    square and a subscript goes out of range.  These cores have no
    fallback for odd orders; they rely on the padding of the entry
    points. *)
Theorem cores_need_padding n fuel A B cutoff :
  square n A → square n B → 0 < n → n < 2 ^ fuel → (1 ≤ cutoff)%Z →
  ¬ reaches_cutoff n cutoff →
  Benchmark._strassen_core fuel A B cutoff = Raise IndexError
  ∧ Benchmark._strassen_winograd_core fuel A B cutoff = Raise IndexError.
Proof.
  intros HA HB Hn Hfuel Hcut Hr.
  rewrite (square_eq_mk n A HA), (square_eq_mk n B HB).
  split.
  - by destruct (_strassen_core_by_order fuel n (entry A) (entry B) cutoff)
      as [[? _]|[_ ?]].
  - by destruct (_strassen_winograd_core_by_order fuel n (entry A) (entry B)
                   cutoff) as [[? _]|[_ ?]].
Qed.

Lemma cores_need_padding_witness :
  Benchmark._strassen_core 2 ex_A3 ex_B3 1 = Raise IndexError
  ∧ Benchmark._strassen_winograd_core 2 ex_A3 ex_B3 1 = Raise IndexError.
Proof.
  apply (cores_need_padding 3 2 ex_A3 ex_B3 1);
    [solve_square | solve_square | lia | simpl; lia | lia
    | apply three_above_cutoff_one].
Defined.

(** ** Cutoffs below one *)

Lemma strassen_step_first_call (rec : Matrix → Matrix → result Matrix)
    m m' f g e :
  m ≤ m' → (m + m') / 2 = m →
  (∀ f g, rec (mk m f) (mk m g) = Raise e) →
  strassen_step rec (mk (m + m') f) (mk (m + m') g) = Raise e.
Proof.
  intros Hle Hhalf Hrec. unfold strassen_step. rewrite length_mk, Hhalf.
  rewrite !quad11_mk_le, !quad22_mk_gen by lia.
  rewrite !(add_matrix_mk_le m m'), !bind_Ok, !Hrec by done. done.
Qed.

Lemma split_order_le n : ∃ m m', n = m + m' ∧ m ≤ m' ∧ (m + m') / 2 = m.
Proof.
  exists (n / 2), (n - n / 2).
  pose proof (Nat.div_mod_eq n 2). pose proof (Nat.mod_upper_bound n 2).
  assert (n = n / 2 + (n - n / 2)) as Hn by lia.
  rewrite <- Hn. split; [done|]. split; [lia|done].
Qed.

(** With a negative cutoff no order is small enough: the first recursive
    call of [_strassen_core] is reached at every level, down to order 0 and
    on, until the interpreter gives up. *)
Lemma _strassen_core_negative fuel : ∀ n f g cutoff,
  (cutoff < 0)%Z →
  Benchmark._strassen_core fuel (mk n f) (mk n g) cutoff
  = Raise RecursionError.
Proof.
  induction fuel as [|fuel IH]; intros n f g cutoff Hcut; [done|].
  rewrite _strassen_core_S, length_mk, bool_decide_false by lia.
  destruct (split_order_le n) as (m & m' & -> & Hle & Hhalf).
  apply strassen_step_first_call; [done..|]. intros f' g'. by apply IH.
Qed.

Lemma _strassen_core_zero fuel : ∀ n f g,
  0 < n → 2 * n < 2 ^ fuel →
  Benchmark._strassen_core fuel (mk n f) (mk n g) 0 = Raise IndexError.
Proof.
  induction fuel as [|fuel IH]; intros n f g Hn Hfuel; [simpl in Hfuel; lia|].
  rewrite _strassen_core_S, length_mk, bool_decide_false by lia.
  rewrite pow2_S in Hfuel.
  destruct (split_order n) as [[_ Hhalf]|[_ Hhalf]];
    set (m := n / 2) in *; clearbody m; subst n.
  - apply strassen_step_fails. intros f' g'. apply IH; lia.
  - apply strassen_step_odd. intros f' g'.
    destruct (decide (m = 0)) as [->|Hm].
    + left. destruct fuel as [|fuel]; [simpl in Hfuel; lia|]. by eexists.
    + right. apply IH; lia.
Qed.

Lemma _strassen_winograd_core_nonpositive fuel : ∀ n f g cutoff,
  0 < n → n < 2 ^ fuel → (cutoff ≤ 0)%Z →
  Benchmark._strassen_winograd_core fuel (mk n f) (mk n g) cutoff
  = Raise IndexError.
Proof.
  induction fuel as [|fuel IH]; intros n f g cutoff Hn Hfuel Hcut;
    [simpl in Hfuel; lia|].
  rewrite _strassen_winograd_core_S, length_mk, bool_decide_false by lia.
  rewrite pow2_S in Hfuel.
  destruct (split_order n) as [[_ Hhalf]|[_ Hhalf]];
    set (m := n / 2) in *; clearbody m; subst n.
  - apply winograd_step_fails. intros f' g'. apply IH; lia.
  - apply winograd_step_odd.
Qed.

(** When the core fails at every order from [n] up to [2 n], the entry
    point fails the same way, padded or not. *)
Lemma padded_entry_raises core n A B cutoff e :
  square n A → square n B → 1 ≤ n →
  (∀ M f g, n ≤ M → M < 2 * n → core (mk M f) (mk M g) cutoff = Raise e) →
  padded_entry core A B cutoff = Raise e.
Proof.
  intros HA HB Hn Hcore.
  pose proof (shape_assert_square n A B Hn HA HB) as Hshape.
  pose proof HA as [Hlen _].
  unfold padded_entry. rewrite Hshape, bind_Ok, Hlen.
  rewrite (bool_decide_false (n = 0)) by lia.
  case_bool_decide as Hland.
  - assert (2 ≤ n) as Hn2.
    { destruct (decide (n = 1)) as [->|]; [done|lia]. }
    destruct (padded_order n Hn2) as (k & -> & Hlo & Hhi).
    rewrite (square_eq_mk n A HA), (square_eq_mk n B HB).
    rewrite !pad_mk by done. rewrite Hcore; [done..|].
    rewrite pow2_S. lia.
  - rewrite (square_eq_mk n A HA), (square_eq_mk n B HB).
    apply Hcore; lia.
Qed.

(** X13. Cutoff 0 breaks the entry points of [matrix_benchmark.py] on
    every non-empty input: order 1 is odd and above the cutoff, so the
    recursion, which stops nowhere before, ends in [IndexError]. *)
Theorem cutoff_zero n fuel A B :
  square n A → square n B → 1 ≤ n → 4 * n ≤ 2 ^ fuel →
  Benchmark.matmul_strassen fuel A B 0 = Raise IndexError
  ∧ Benchmark.matmul_strassen_winograd fuel A B 0 = Raise IndexError.
Proof.
  intros HA HB Hn Hfuel.
  rewrite matmul_strassen_unfold, matmul_strassen_winograd_unfold.
  split; apply (padded_entry_raises _ n); try done; intros M f g HM1 HM2.
  - apply _strassen_core_zero; lia.
  - apply _strassen_winograd_core_nonpositive; lia.
Qed.

Lemma cutoff_zero_witness :
  Benchmark.matmul_strassen 4 ex_A3 ex_B3 0 = Raise IndexError
  ∧ Benchmark.matmul_strassen_winograd 4 ex_A3 ex_B3 0 = Raise IndexError.
Proof.
  apply (cutoff_zero 3 4 ex_A3 ex_B3);
    [solve_square | solve_square | lia | simpl; lia].
Defined.

(** X14. With a negative cutoff, on square operands of order [n >= 1]:
    [matmul_strassen] recurses without end, through order 0, and ends in
    [RecursionError] whatever the recursion limit; and
    [matmul_strassen_winograd], which forms its sums before it recurses,
    raises [IndexError] when it arrives at order 1. *)
Theorem cutoff_negative n fuel A B cutoff :
  square n A → square n B → 1 ≤ n → 2 * n ≤ 2 ^ fuel → (cutoff < 0)%Z →
  (∀ limit, Benchmark.matmul_strassen limit A B cutoff = Raise RecursionError)
  ∧ Benchmark.matmul_strassen_winograd fuel A B cutoff = Raise IndexError.
Proof.
  intros HA HB Hn Hfuel Hcut. split.
  - intros limit. rewrite matmul_strassen_unfold.
    apply (padded_entry_raises _ n); [done..|].
    intros M f g _ _. by apply _strassen_core_negative.
  - rewrite matmul_strassen_winograd_unfold.
    apply (padded_entry_raises _ n); [done..|].
    intros M f g HM1 HM2. apply _strassen_winograd_core_nonpositive; lia.
Qed.

Lemma cutoff_negative_witness :
  (∀ limit,
     Benchmark.matmul_strassen limit ex_A3 ex_B3 (-1) = Raise RecursionError)
  ∧ Benchmark.matmul_strassen_winograd 3 ex_A3 ex_B3 (-1) = Raise IndexError.
Proof.
  apply (cutoff_negative 3 3 ex_A3 ex_B3 (-1));
    [solve_square | solve_square | lia | simpl; lia | lia].
Defined.

(** X15. [matmul_strassen] of [answer.py] returns the product for every
    integer cutoff, also zero and the negative ones: an order above the
    cutoff is halved while it is even and multiplied classically as soon
    as it is odd, and order 1 is odd. *)
Theorem answer_any_cutoff n fuel A B (cutoff : Z) :
  square n A → square n B → 2 * n ≤ 2 ^ fuel →
  Answer.matmul_strassen fuel A B cutoff = Ok (matrix_product A B)
  ∧ matmul_classic A B = Ok (matrix_product A B).
Proof.
  intros HA HB Hfuel.
  split; [by apply (answer_strassen_ok n) | by apply (matmul_classic_square n)].
Qed.

Lemma answer_any_cutoff_witness :
  Answer.matmul_strassen 3 ex_A3 ex_B3 (-5) = Ok (matrix_product ex_A3 ex_B3)
  ∧ matmul_classic ex_A3 ex_B3 = Ok (matrix_product ex_A3 ex_B3).
Proof.
  apply (answer_any_cutoff 3 3 ex_A3 ex_B3 (-5));
    [solve_square | solve_square | simpl; lia].
Defined.

(** ** The store model: results and operands after a call *)

Lemma returns_new_intro h a b A B m C :
  Store.matrix_at h a = Some A → Store.matrix_at h b = Some B →
  Store.fresh_mat m → refines h m (Ok C) → returns_new h a b A B m C.
Proof.
  intros Ha Hb [Hext Hfresh] (c & Hc & HC). exists c.
  split; [done|]. split; [by apply Hfresh|]. split; [done|].
  split; (eapply StoreFacts.matrix_at_weaken; [apply Hext|done]).
Qed.

(** X16. In the store model, where matrices are mutable lists of mutable
    rows: started in any store in which [a] and [b] denote square
    matrices [A] and [B] of order [n], each routine returns a reference to
    a new list of new rows holding the sum, the difference or the product,
    and [a] and [b] denote [A] and [B] afterwards.  Nothing is assumed
    about sharing: [a] and [b] may be one list, or lists with rows in
    common. *)
Theorem store_results h a b A B n fuel cutoff :
  Store.matrix_at h a = Some A → Store.matrix_at h b = Some B →
  square n A → square n B → (1 ≤ cutoff)%Z → 2 * n ≤ 2 ^ fuel →
  returns_new h a b A B (Store.add_matrix a b)
    (mk n (λ i j, entry A i j + entry B i j)%Z)
  ∧ returns_new h a b A B (Store.sub_matrix a b)
      (mk n (λ i j, entry A i j - entry B i j)%Z)
  ∧ returns_new h a b A B (Store.matmul_classic a b) (matrix_product A B)
  ∧ returns_new h a b A B (Store.Benchmark.matmul_strassen fuel a b cutoff)
      (matrix_product A B)
  ∧ returns_new h a b A B
      (Store.Benchmark.matmul_strassen_winograd fuel a b cutoff)
      (matrix_product A B)
  ∧ returns_new h a b A B (Store.Answer.matmul_strassen fuel a b cutoff)
      (matrix_product A B).
Proof.
  intros Ha Hb HA HB Hcut Hfuel.
  destruct (store_refines_values h a b A B fuel cutoff Ha Hb)
    as (Radd & Rsub & Rcl & Rst & Rwi & Ran).
  unfold add_matrix in Radd. unfold sub_matrix in Rsub.
  rewrite (elementwise_square _ n) in Radd by done.
  rewrite (elementwise_square _ n) in Rsub by done.
  rewrite (matmul_classic_square n) in Rcl by done.
  rewrite (benchmark_strassen_ok n) in Rst by done.
  rewrite (benchmark_winograd_ok n) in Rwi by done.
  rewrite (answer_strassen_ok n) in Ran by done.
  split_and!; apply returns_new_intro; try done.
  - apply StoreFacts.fresh_mat_elementwise.
  - apply StoreFacts.fresh_mat_elementwise.
  - apply StoreFacts.fresh_mat_matmul_classic.
  - rewrite StoreFacts.matmul_strassen_padded_call.
    apply StoreFacts.fresh_mat_padded_call. intros.
    apply StoreFacts.fresh_mat__strassen_core.
  - rewrite StoreFacts.matmul_strassen_winograd_padded_call.
    apply StoreFacts.fresh_mat_padded_call. intros.
    apply StoreFacts.fresh_mat__strassen_winograd_core.
  - apply StoreFacts.fresh_mat_answer_matmul_strassen.
Qed.

Lemma store_results_witness :
  let h := ex_shared_rows in
  let a := 2%positive in
  let A : Matrix := [[1; 2]; [1; 2]]%Z in
  returns_new h a a A A (Store.add_matrix a a)
    (mk 2 (λ i j, entry A i j + entry A i j)%Z)
  ∧ returns_new h a a A A (Store.sub_matrix a a)
      (mk 2 (λ i j, entry A i j - entry A i j)%Z)
  ∧ returns_new h a a A A (Store.matmul_classic a a) (matrix_product A A)
  ∧ returns_new h a a A A (Store.Benchmark.matmul_strassen 2 a a 1)
      (matrix_product A A)
  ∧ returns_new h a a A A (Store.Benchmark.matmul_strassen_winograd 2 a a 1)
      (matrix_product A A)
  ∧ returns_new h a a A A (Store.Answer.matmul_strassen 2 a a 1)
      (matrix_product A A).
Proof.
  apply (store_results ex_shared_rows 2%positive 2%positive
           [[1; 2]; [1; 2]]%Z [[1; 2]; [1; 2]]%Z 2 2 1);
    [reflexivity | reflexivity | solve_square | solve_square | lia
    | simpl; lia].
Defined.

(** ** [generate_matrix] and the correctness check of [run_benchmark] *)

Section random_facts.
Variable rng : Type.
Variable Random : Z → rng.
Variable randint : Z → Z → rng → Z * rng.

Lemma comprehension_length {St T} k (e : St → T * St) s :
  length (comprehension k e s).1 = k.
Proof.
  revert s. induction k as [|k IH]; intros s; simpl; [done|].
  destruct (e s) as [x s1]. specialize (IH s1).
  destruct (comprehension k e s1) as [l s2]. simpl in *. by rewrite IH.
Qed.

Lemma comprehension_Forall {St T} (P : T → Prop) k (e : St → T * St) s :
  (∀ s, P (e s).1) → Forall P (comprehension k e s).1.
Proof.
  intros He. revert s. induction k as [|k IH]; intros s; simpl; [done|].
  pose proof (He s) as Hx. destruct (e s) as [x s1]. specialize (IH s1).
  destruct (comprehension k e s1) as [l s2]. simpl in *. by constructor.
Qed.

Lemma generate_matrix_square n seed :
  square (Z.to_nat n) (Run.generate_matrix rng Random randint n seed).
Proof.
  unfold Run.generate_matrix. split; [apply comprehension_length|].
  apply comprehension_Forall. intros s. apply comprehension_length.
Qed.

(** X17. [generate_matrix(n, seed)] returns a square matrix of order [n]
    (the empty matrix for [n <= 0]), and each of its entries lies in
    [[-9, 9]], given that [randint(-9, 9)] returns a number in this
    range. *)
Theorem generate_matrix_range n seed :
  (∀ g, -9 ≤ (randint (-9) 9 g).1 ≤ 9)%Z →
  let M := Run.generate_matrix rng Random randint n seed in
  square (Z.to_nat n) M
  ∧ Forall (Forall (λ x, -9 ≤ x ≤ 9)%Z) M.
Proof.
  intros Hrange M. split; [apply generate_matrix_square|].
  unfold M, Run.generate_matrix.
  apply comprehension_Forall. intros s. by apply comprehension_Forall.
Qed.

Lemma matrices_list_first n is_random num_repeats seed :
  (1 ≤ num_repeats)%Z →
  Run.matrices_list rng Random randint n is_random num_repeats seed !! 0
  = Some (Run.generate_matrix rng Random randint n seed,
          Run.generate_matrix rng Random randint n (seed + 10000)).
Proof.
  intros Hrep. unfold Run.matrices_list.
  destruct (Z.to_nat num_repeats) as [|k] eqn:Hk; [lia|].
  destruct is_random; simpl; [|done].
  by rewrite !Z.add_0_r.
Qed.

Lemma matrices_list_empty n is_random num_repeats seed :
  (num_repeats ≤ 0)%Z →
  Run.matrices_list rng Random randint n is_random num_repeats seed = [].
Proof.
  intros Hrep. unfold Run.matrices_list.
  replace (Z.to_nat num_repeats) with 0 by lia. by destruct is_random.
Qed.

(** X18. The correctness check of [run_benchmark] never raises
    [AssertionError]: whatever the generator produces, whatever the order,
    the seed and the mode, and for all cutoffs of at least one, it passes
    as soon as there is one repeat (the two modes check the same pair of
    matrices); with no repeat there is no pair to check and
    [matrices_list[0]] raises [IndexError]. *)
Theorem check_passes fuel n is_random num_repeats seed cutoff_s cutoff_w :
  (1 ≤ cutoff_s)%Z → (1 ≤ cutoff_w)%Z → 2 * Z.to_nat n ≤ 2 ^ fuel →
  Run.correctness_check rng Random randint fuel n is_random num_repeats seed
    cutoff_s cutoff_w
  = if decide (1 ≤ num_repeats)%Z then Ok () else Raise IndexError.
Proof.
  intros Hs Hw Hfuel. unfold Run.correctness_check. case_decide as Hrep.
  - rewrite (getitem_Some _ _ _
               (matrices_list_first n is_random num_repeats seed Hrep)).
    rewrite bind_Ok.
    pose proof (generate_matrix_square n seed) as HA.
    pose proof (generate_matrix_square n (seed + 10000)) as HB.
    rewrite (matmul_classic_square _ _ _ HA HB), bind_Ok.
    rewrite (benchmark_strassen_ok _ _ _ _ _ HA HB Hs Hfuel), bind_Ok.
    rewrite (benchmark_winograd_ok _ _ _ _ _ HA HB Hw Hfuel), bind_Ok.
    by rewrite !bool_decide_false by (by intros []).
  - by rewrite matrices_list_empty by lia.
Qed.

End random_facts.

Lemma ex_randint_range (g : Z) : (-9 ≤ (Run.ex_randint (-9) 9 g).1 ≤ 9)%Z.
Proof.
  unfold Run.ex_randint. cbn [fst].
  change (9 - -9 + 1)%Z with 19%Z.
  pose proof (Z.mod_pos_bound g 19). lia.
Qed.

Lemma generate_matrix_range_witness :
  let M := Run.generate_matrix Z Run.ex_Random Run.ex_randint 4 42 in
  square (Z.to_nat 4) M ∧ Forall (Forall (λ x, -9 ≤ x ≤ 9)%Z) M.
Proof.
  apply (generate_matrix_range Z Run.ex_Random Run.ex_randint 4 42).
  apply ex_randint_range.
Defined.

Lemma check_passes_witness :
  Run.run_benchmark_check Z Run.ex_Random Run.ex_randint 10
  = if decide (1 ≤ Run.NUM_REPEATS)%Z then Ok () else Raise IndexError.
Proof.
  apply (check_passes Z Run.ex_Random Run.ex_randint 10 Run.N Run.IS_RANDOM
           Run.NUM_REPEATS Run.RANDOM_SEED
           Benchmark.CUTOFF_STRASSEN Benchmark.CUTOFF_WINOGRAD);
    [unfold Benchmark.CUTOFF_STRASSEN; lia
    | unfold Benchmark.CUTOFF_WINOGRAD; lia
    | unfold Run.N; simpl; lia].
Defined.

(** ** [time_algo] *)

Section time_algo_facts.
Variable clock : Type.
Variable time : Type.
Variable perf_counter : clock → time * clock.
Variable elapsed : time → time → time.
Variable during : Matrix → Matrix → clock → clock.

Lemma time_loop_returns fn matrices times w :
  Forall (λ AB, ∃ C, fn AB.1 AB.2 = Ok C) matrices →
  ∃ ts,
    (Timing.time_loop clock time perf_counter elapsed during fn matrices times w).1
    = Ok (times ++ ts)
    ∧ length ts = length matrices
    ∧ Timing.gc_enabled
        (Timing.time_loop clock time perf_counter elapsed during fn matrices times w).2
      = (if decide (matrices = []) then Timing.gc_enabled w else true).
Proof.
  intros Hall. revert times w.
  induction Hall as [|[A B] rest [C HC] _ IH]; intros times w.
  { exists []. by rewrite app_nil_r. }
  simpl in *. destruct (perf_counter (Timing.clk w)) as [t0 c0].
  rewrite HC. simpl. destruct (perf_counter (during _ _ c0)) as [t1 c1].
  destruct (IH (times ++ [elapsed t1 t0]) (Timing.World true c1))
    as (ts & Hts & Hlen & Hgc).
  exists (elapsed t1 t0 :: ts). rewrite Hts, <- app_assoc. simpl.
  split; [done|]. split; [by rewrite Hlen|].
  rewrite Hgc. by case_decide.
Qed.

Lemma time_loop_raises fn before A B after e times w :
  Forall (λ AB, ∃ C, fn AB.1 AB.2 = Ok C) before →
  fn A B = Raise e →
  let r := Timing.time_loop clock time perf_counter elapsed during fn
             (before ++ (A, B) :: after) times w in
  r.1 = Raise e ∧ Timing.gc_enabled r.2 = false.
Proof.
  intros Hall Hfail. revert times w.
  induction Hall as [|[A' B'] rest [C HC] _ IH]; intros times w; simpl.
  - destruct (perf_counter (Timing.clk w)) as [t0 c0]. by rewrite Hfail.
  - simpl in HC. destruct (perf_counter (Timing.clk w)) as [t0 c0].
    rewrite HC. simpl. destruct (perf_counter (during _ _ c0)) as [t1 c1]. apply IH.
Qed.

(** X19. When [fn] returns on every pair, [time_algo] returns one time per
    pair, and the garbage collector is enabled afterwards (left as it was
    when there is no pair). *)
Theorem time_algo_returns fn matrices w :
  Forall (λ AB, ∃ C, fn AB.1 AB.2 = Ok C) matrices →
  let r := Timing.time_algo clock time perf_counter elapsed during fn matrices w in
  (∃ times, r.1 = Ok times ∧ length times = length matrices)
  ∧ Timing.gc_enabled r.2
    = (if decide (matrices = []) then Timing.gc_enabled w else true).
Proof.
  intros Hall r.
  destruct (time_loop_returns fn matrices [] w Hall) as (ts & Hts & Hlen & Hgc).
  split; [by exists ts|done].
Qed.

(** X20. When [fn] raises on a pair, [time_algo] raises the same exception
    and leaves the garbage collector disabled: [gc.enable()] is skipped,
    whatever the state of the collector was before the call. *)
Theorem time_algo_leaves_gc_disabled fn before A B after e w :
  Forall (λ AB, ∃ C, fn AB.1 AB.2 = Ok C) before →
  fn A B = Raise e →
  let r := Timing.time_algo clock time perf_counter elapsed during fn
             (before ++ (A, B) :: after) w in
  r.1 = Raise e ∧ Timing.gc_enabled r.2 = false.
Proof. intros Hall Hfail. by apply time_loop_raises. Qed.

End time_algo_facts.

Lemma time_algo_returns_witness :
  let r := Timing.time_algo nat nat Timing.ex_perf_counter Nat.sub
             Timing.ex_during matmul_classic
             [(ex_A3, ex_B3); (ex_A2, ex_I2)] (Timing.World false 0) in
  (∃ times, r.1 = Ok times ∧ length times = 2)
  ∧ Timing.gc_enabled r.2
    = (if decide ([(ex_A3, ex_B3); (ex_A2, ex_I2)] = []) then false else true).
Proof.
  apply (time_algo_returns nat nat Timing.ex_perf_counter Nat.sub
           Timing.ex_during matmul_classic
           [(ex_A3, ex_B3); (ex_A2, ex_I2)] (Timing.World false 0)).
  repeat constructor; by eexists.
Defined.

Lemma time_algo_leaves_gc_disabled_witness :
  let r := Timing.time_algo nat nat Timing.ex_perf_counter Nat.sub
             Timing.ex_during matmul_classic
             ([(ex_A3, ex_B3)] ++ (ex_A3, ex_A2) :: [])
             (Timing.World true 0) in
  r.1 = Raise IndexError ∧ Timing.gc_enabled r.2 = false.
Proof.
  apply (time_algo_leaves_gc_disabled nat nat Timing.ex_perf_counter Nat.sub
           Timing.ex_during matmul_classic
           [(ex_A3, ex_B3)] ex_A3 ex_A2 [] IndexError (Timing.World true 0)).
  - repeat constructor; by eexists.
  - reflexivity.
Defined.

(** ** The timed runs of [run_benchmark] *)

Section timed_runs.
Variable rng : Type.
Variable Random : Z → rng.
Variable randint : Z → Z → rng → Z * rng.
Variable clock : Type.
Variable time : Type.
Variable perf_counter : clock → time * clock.
Variable elapsed : time → time → time.
Variable during : Matrix → Matrix → clock → clock.

Lemma matrices_list_length n is_random num_repeats seed :
  length (Run.matrices_list rng Random randint n is_random num_repeats seed)
  = Z.to_nat num_repeats.
Proof.
  unfold Run.matrices_list. destruct is_random.
  - by rewrite length_fmap, length_seq.
  - by rewrite length_replicate.
Qed.

Lemma matrices_list_square n is_random num_repeats seed :
  Forall (λ AB, square (Z.to_nat n) AB.1 ∧ square (Z.to_nat n) AB.2)
    (Run.matrices_list rng Random randint n is_random num_repeats seed).
Proof.
  unfold Run.matrices_list. destruct is_random.
  - apply Forall_fmap, Forall_true. intros r. simpl.
    split; apply generate_matrix_square.
  - apply Forall_replicate. split; apply generate_matrix_square.
Qed.

Lemma time_algo_on_squares n fn matrices w :
  (∀ A B, square n A → square n B → ∃ C, fn A B = Ok C) →
  Forall (λ AB, square n AB.1 ∧ square n AB.2) matrices →
  ∃ times,
    (Timing.time_algo clock time perf_counter elapsed during fn matrices w).1
    = Ok times
    ∧ length times = length matrices.
Proof.
  intros Hfn Hsq.
  destruct (time_loop_returns clock time perf_counter elapsed during
              fn matrices [] w) as (ts & Hts & Hlen & _); [|by exists ts].
  eapply Forall_impl; [done|]. intros [A B] [HA HB]. by apply Hfn.
Qed.

(** X21. The three timed runs of [run_benchmark] (lines 290-292) return:
    on the matrices generated for the repeats, whatever the generator, the
    mode and the number of repeats, [time_algo] returns one time per repeat
    for [matmul_classic], for [matmul_strassen] and for
    [matmul_strassen_winograd], for all cutoffs of at least one. *)
Theorem timed_runs_return fuel n is_random num_repeats seed
    cutoff_s cutoff_w w :
  (1 ≤ cutoff_s)%Z → (1 ≤ cutoff_w)%Z → 2 * Z.to_nat n ≤ 2 ^ fuel →
  let matrices :=
    Run.matrices_list rng Random randint n is_random num_repeats seed in
  let timed fn :=
    (Timing.time_algo clock time perf_counter elapsed during fn matrices w).1
  in
  (∃ times, timed matmul_classic = Ok times
            ∧ length times = Z.to_nat num_repeats)
  ∧ (∃ times,
       timed (λ X Y, Benchmark.matmul_strassen fuel X Y cutoff_s) = Ok times
       ∧ length times = Z.to_nat num_repeats)
  ∧ (∃ times,
       timed (λ X Y, Benchmark.matmul_strassen_winograd fuel X Y cutoff_w)
       = Ok times
       ∧ length times = Z.to_nat num_repeats).
Proof.
  intros Hs Hw Hfuel matrices timed.
  pose proof (matrices_list_square n is_random num_repeats seed) as Hsq.
  pose proof (matrices_list_length n is_random num_repeats seed) as Hlen.
  fold matrices in Hsq, Hlen. unfold timed. rewrite <- Hlen.
  split_and!; apply (time_algo_on_squares (Z.to_nat n)); try done;
    intros A B HA HB; eexists.
  - by apply (matmul_classic_square (Z.to_nat n)).
  - by apply (benchmark_strassen_ok (Z.to_nat n)).
  - by apply (benchmark_winograd_ok (Z.to_nat n)).
Qed.

End timed_runs.

Lemma timed_runs_return_witness :
  let matrices :=
    Run.matrices_list Z Run.ex_Random Run.ex_randint Run.N Run.IS_RANDOM
      Run.NUM_REPEATS Run.RANDOM_SEED in
  let timed fn :=
    (Timing.time_algo nat nat Timing.ex_perf_counter Nat.sub Timing.ex_during
       fn matrices (Timing.World true 0)).1
  in
  (∃ times, timed matmul_classic = Ok times
            ∧ length times = Z.to_nat Run.NUM_REPEATS)
  ∧ (∃ times,
       timed (λ X Y, Benchmark.matmul_strassen 10 X Y
                       Benchmark.CUTOFF_STRASSEN) = Ok times
       ∧ length times = Z.to_nat Run.NUM_REPEATS)
  ∧ (∃ times,
       timed (λ X Y, Benchmark.matmul_strassen_winograd 10 X Y
                       Benchmark.CUTOFF_WINOGRAD) = Ok times
       ∧ length times = Z.to_nat Run.NUM_REPEATS).
Proof.
  apply (timed_runs_return Z Run.ex_Random Run.ex_randint nat nat
           Timing.ex_perf_counter Nat.sub Timing.ex_during
           10 Run.N Run.IS_RANDOM Run.NUM_REPEATS Run.RANDOM_SEED
           Benchmark.CUTOFF_STRASSEN Benchmark.CUTOFF_WINOGRAD
           (Timing.World true 0));
    [unfold Benchmark.CUTOFF_STRASSEN; lia
    | unfold Benchmark.CUTOFF_WINOGRAD; lia
    | unfold Run.N; simpl; lia].
Defined.
